(** * Local-Flix: filename parser, metadata cache, library scan, season grouper

    A shallow embedding of the non-GUI core of [4.1.py] and the properties
    its specification states about it.

    Modelling conventions
    - A Python [str] is a [list ascii]; a character is its code point, and
      the model covers the code points 0..255.  The character classes of
      [re] and [str] ([\d], [\s], [\w], [str.lower], [str.strip]) are
      written out for that range.
    - [os.path] is the POSIX flavour ([/] separates, [.] starts an
      extension).
    - [int] results of the filename parsers are [nat] (they come from one
      or two decimal digits); TMDb genre ids are [Z].
    - A function that may raise returns [result]; a function that touches
      the metadata directory takes the directory's state and returns the
      new one.
    - The media library is seen through [os.path.exists] and [os.scandir]:
      a [filesystem] maps a path to the node found there, and a directory
      node lists its entries in scan order.
    - The two cache directories, which the program makes itself when it
      is loaded, hold regular files only.  The state of one is a finite
      map from the path of each of its files to what the file holds, and
      a path is followed component by component, as [open] does it.
      Names hold no NUL and stay within the lengths the file system
      takes.  A metadata file holds a document that [json.dump] wrote,
      or text on which [json.load] raises; JSON of another shape, which
      the program never writes, is left out.
    - An [int] is unbounded; converting between text and an [int] of
      more than 4300 digits, which CPython refuses, is modelled for
      [int] of a string only.
    - Of the library items the fields that the cache feeds are kept;
      posters, pixmaps and Qt signals are left out, and the background
      fetch runs after the constructor has returned. *)

From Stdlib Require Import List Ascii String Bool Arith NArith ZArith Lia.
From Stdlib Require Import DecimalString DecimalNat DecimalFacts Sorted.
From stdpp Require Import gmap strings.
Import ListNotations.

Local Open Scope bool_scope.
Local Open Scope list_scope.

(** ** Text *)

Abbreviation str := (list ascii).

Definition txt (s : string) : str := list_ascii_of_string s.

Definition code (c : ascii) : N := N_of_ascii c.

Definition in_range (lo hi : N) (c : ascii) : bool :=
  ((lo <=? code c) && (code c <=? hi))%N.

Definition chr_eqb (a b : ascii) : bool := Ascii.eqb a b.

(** [\d] on code points 0..255: the decimal digits. *)
Definition is_digit (c : ascii) : bool := in_range 48 57 c.

(** [\s] and [str.isspace] on code points 0..255. *)
Definition is_space (c : ascii) : bool :=
  in_range 9 13 c || in_range 28 32 c || (code c =? 133)%N || (code c =? 160)%N.

(** [str.isalnum] on code points 0..255. *)
Definition is_alnum (c : ascii) : bool :=
  is_digit c || in_range 65 90 c || in_range 97 122 c
  || (code c =? 170)%N || in_range 178 179 c || (code c =? 181)%N
  || in_range 185 186 c || in_range 188 190 c
  || in_range 192 214 c || in_range 216 246 c || in_range 248 255 c.

(** [\w]: alphanumeric or underscore. *)
Definition is_word (c : ascii) : bool := is_alnum c || chr_eqb c "_".

(** [str.lower] on one character. *)
Definition lower_chr (c : ascii) : ascii :=
  if in_range 65 90 c || (in_range 192 222 c && negb (code c =? 215)%N)
  then ascii_of_N (code c + 32) else c.

Definition lower (s : str) : str := map lower_chr s.

Fixpoint str_eqb (a b : str) : bool :=
  match a, b with
  | [], [] => true
  | x :: a', y :: b' => chr_eqb x y && str_eqb a' b'
  | _, _ => false
  end.

Fixpoint startswith (s p : str) : bool :=
  match p, s with
  | [], _ => true
  | x :: p', y :: s' => chr_eqb x y && startswith s' p'
  | _ :: _, [] => false
  end.

Definition endswith (s p : str) : bool := startswith (rev s) (rev p).

(** [s.endswith(tuple)]. *)
Definition endswith_any (s : str) (ps : list str) : bool :=
  existsb (endswith s) ps.

Fixpoint lstrip (s : str) : str :=
  match s with
  | c :: t => if is_space c then lstrip t else s
  | [] => []
  end.

Definition rstrip (s : str) : str := rev (lstrip (rev s)).

(** [str.strip()]. *)
Definition strip (s : str) : str := rstrip (lstrip s).

(** [s.replace(a, b)] for single characters. *)
Definition replace_chr (a b : ascii) (s : str) : str :=
  map (fun c => if chr_eqb c a then b else c) s.

(** [int(s)] on a string of decimal digits. *)
Definition digit_val (c : ascii) : nat := N.to_nat (code c - 48).

Definition int_of_digits (s : str) : nat :=
  fold_left (fun acc c => 10 * acc + digit_val c) s 0.

(** [str(n)] for a non-negative [int]. *)
Definition str_of_nat (n : nat) : str :=
  txt (NilZero.string_of_uint (Nat.to_uint n)).

(** ** os.path *)

Fixpoint rfind_from (c : ascii) (s : str) (i last : Z) : Z :=
  match s with
  | [] => last
  | x :: t => rfind_from c t (i + 1) (if chr_eqb x c then i else last)
  end.

(** [s.rfind(c)]: index of the last occurrence, [-1] if there is none. *)
Definition rfind (c : ascii) (s : str) : Z := rfind_from c s 0 (-1).

Definition slice (lo hi : Z) (s : str) : str :=
  firstn (Z.to_nat (hi - lo)) (skipn (Z.to_nat lo) s).

(** [os.path.splitext]: the extension starts at the last dot of the last
    path component, unless that component has only dots before it. *)
Definition splitext (p : str) : str * str :=
  let sepIndex := rfind "/" p in
  let dotIndex := rfind "." p in
  if (sepIndex <? dotIndex)%Z then
    if forallb (fun c => chr_eqb c ".") (slice (sepIndex + 1) dotIndex p)
    then (p, [])
    else (firstn (Z.to_nat dotIndex) p, skipn (Z.to_nat dotIndex) p)
  else (p, []).

(** [os.path.join(a, b)]. *)
Definition join (a b : str) : str :=
  if startswith b (txt "/") then b
  else match rev a with
       | [] => b
       | c :: _ => if chr_eqb c "/" then a ++ b else a ++ txt "/" ++ b
       end.

(** [os.path.basename]: what follows the last separator. *)
Definition basename (p : str) : str :=
  skipn (Z.to_nat (rfind "/" p + 1)) p.

(** ** Filename parser *)

(** The ways [\d{1,2}] can match at the head of [s], the greedy one
    first: the digits taken and what is left. *)
Definition rep_digit_1_2 (s : str) : list (str * str) :=
  match s with
  | a :: b :: t =>
      if is_digit a
      then if is_digit b then [([a; b], t); ([a], b :: t)] else [([a], b :: t)]
      else []
  | [a] => if is_digit a then [([a], [])] else []
  | [] => []
  end.

(** The first alternative on which the rest of the pattern succeeds. *)
Fixpoint first_some {A B : Type} (k : A -> option B) (l : list A) : option B :=
  match l with
  | [] => None
  | x :: l' => match k x with Some r => Some r | None => first_some k l' end
  end.

(** [.*] without DOTALL: everything up to the first line feed. *)
Fixpoint dot_star (s : str) : str :=
  match s with
  | c :: t => if chr_eqb c "010" then [] else c :: dot_star t
  | [] => []
  end.

(** [re.match] of the pattern [[Ss](\d{1,2})[Ee](\d{1,2})\s*-\s*( .* )] at
    the head of [name]: the three groups.  [\s*] takes all the white space
    there is: what follows it is a hyphen, which no white space matches,
    or [.*], which never fails. *)
Definition match_episode_name (name : str) : option (str * str * str) :=
  match name with
  | c :: r0 =>
      if chr_eqb c "S" || chr_eqb c "s" then
        first_some (fun '(g1, r1) =>
          match r1 with
          | e :: r2 =>
              if chr_eqb e "E" || chr_eqb e "e" then
                first_some (fun '(g2, r3) =>
                  match lstrip r3 with
                  | h :: r4 =>
                      if chr_eqb h "-" then Some (g1, g2, dot_star (lstrip r4))
                      else None
                  | [] => None
                  end) (rep_digit_1_2 r2)
              else None
          | [] => None
          end) (rep_digit_1_2 r0)
      else None
  | [] => None
  end.

Definition parse_filename (filename : str) : nat * nat * str :=
  let name := fst (splitext filename) in
  match match_episode_name name with
  | Some (g1, g2, g3) => (int_of_digits g1, int_of_digits g2, strip g3)
  | None => (1, 0, name)
  end.

(** The filename pattern in the specification's words: [S], one or two
    digits, [E], one or two digits, optional white space, a hyphen,
    optional white space, then the remainder. *)
Inductive episode_form : str -> str -> str -> str -> Prop :=
| episode_form_intro (s e : ascii) (d1 d2 ws1 ws2 rest : str) :
    chr_eqb s "S" || chr_eqb s "s" = true ->
    chr_eqb e "E" || chr_eqb e "e" = true ->
    forallb is_digit d1 = true -> 1 <= length d1 <= 2 ->
    forallb is_digit d2 = true -> 1 <= length d2 <= 2 ->
    forallb is_space ws1 = true ->
    forallb is_space ws2 = true ->
    episode_form (s :: d1 ++ e :: d2 ++ ws1 ++ "-"%char :: ws2 ++ rest) d1 d2 rest.

(** [re.search] of [[Ss]\d{1,2}[Ee](\d{1,2})]: group 1 of the match at the
    head of [s], if there is one. *)
Definition match_episode_tag (s : str) : option str :=
  match s with
  | c :: r0 =>
      if chr_eqb c "S" || chr_eqb c "s" then
        first_some (fun '(_, r1) =>
          match r1 with
          | e :: r2 =>
              if chr_eqb e "E" || chr_eqb e "e" then
                match rep_digit_1_2 r2 with
                | (g, _) :: _ => Some g
                | [] => None
                end
              else None
          | [] => None
          end) (rep_digit_1_2 r0)
      else None
  | [] => None
  end.

(** The leftmost match. *)
Fixpoint search_episode_tag (s : str) : option str :=
  match s with
  | [] => None
  | _ :: t =>
      match match_episode_tag s with
      | Some g => Some g
      | None => search_episode_tag t
      end
  end.

Definition parse_episode_number (name : str) : nat :=
  match search_episode_tag name with
  | Some g => int_of_digits g
  | None => 0
  end.

(** ** Title cleaning *)

Definition word_opt (c : option ascii) : bool :=
  match c with Some c => is_word c | None => false end.

(** [\b] between two neighbours; [None] is the start or the end of the
    string. *)
Definition boundary (prev next : option ascii) : bool :=
  xorb (word_opt prev) (word_opt next).

Abbreviation cls := (ascii -> bool).

(** A literal character, and a literal character under [re.IGNORECASE]. *)
Definition lit (p : ascii) : cls := fun c => chr_eqb c p.
Definition ilit (p : ascii) : cls := fun c => chr_eqb (lower_chr c) (lower_chr p).

(** A sequence of character classes followed by [\b], at the head of [s];
    [prev] is the character before [s]. *)
Fixpoint seq_at (pat : list cls) (prev : option ascii) (s : str) : bool :=
  match pat with
  | [] => boundary prev (head s)
  | p :: pat' =>
      match s with
      | c :: s' => p c && seq_at pat' (Some c) s'
      | [] => false
      end
  end.

(** [\b(alt1|alt2|...)\b] at the head of [s]: the length of the match.
    The alternatives are tried in order. *)
Definition bounded_at (alts : list (list cls)) (prev : option ascii) (s : str)
  : option nat :=
  if boundary prev (head s)
  then first_some
         (fun pat => if seq_at pat prev s then Some (length pat) else None) alts
  else None.

(** [re.sub(pattern, '', s)], scanning left to right: [m prev s] is the
    length of the match of the pattern at the head of [s], [skip] counts
    the characters of the current match still to drop. *)
Fixpoint sub_scan (m : option ascii -> str -> option nat)
    (prev : option ascii) (skip : nat) (s : str) : str :=
  match s with
  | [] => []
  | c :: t =>
      match skip with
      | S k => sub_scan m (Some c) k t
      | 0 =>
          match m prev s with
          | Some (S k) => sub_scan m (Some c) k t
          | _ => c :: sub_scan m (Some c) 0 t
          end
      end
  end.

Definition re_sub_delete (m : option ascii -> str -> option nat) (s : str) : str :=
  sub_scan m None 0 s.

(** [(19|20)\d{2}] *)
Definition year_pattern : list (list cls) :=
  [ [lit "1"; lit "9"; is_digit; is_digit];
    [lit "2"; lit "0"; is_digit; is_digit] ].

(** [(720p|1080p|2160p|480p|HDR|BluRay|WEBRip|x264|H\.?264)] under
    [re.IGNORECASE]; the optional dot is tried first. *)
Definition quality_pattern : list (list cls) :=
  map (fun l => map ilit (txt l))
    ["720p"; "1080p"; "2160p"; "480p"; "HDR"; "BluRay"; "WEBRip"; "x264";
     "H.264"; "H264"]%string.

(** [re.sub(r'\s+', ' ', s)]; [in_run] tells that the previous character
    was white space. *)
Fixpoint collapse_spaces (in_run : bool) (s : str) : str :=
  match s with
  | [] => []
  | c :: t =>
      if is_space c
      then if in_run then collapse_spaces true t else " "%char :: collapse_spaces true t
      else c :: collapse_spaces false t
  end.

Definition clean_filename (filename : str) : str :=
  let name := replace_chr "_" " " (replace_chr "." " " (fst (splitext filename))) in
  let name := re_sub_delete (bounded_at year_pattern) name in
  let name := re_sub_delete (bounded_at quality_pattern) name in
  strip (collapse_spaces false name).

(** *** Words and separators

    A string seen as the sequence of its maximal runs of word characters
    and of its other characters. *)
Inductive token := W (w : str) | C (c : ascii).

Definition merge (c : ascii) (ts : list token) : list token :=
  match ts with
  | W w :: r => W (c :: w) :: r
  | _ => W [c] :: ts
  end.

Fixpoint tok (s : str) : list token :=
  match s with
  | [] => []
  | c :: t => if is_word c then merge c (tok t) else C c :: tok t
  end.

Definition untok_one (t : token) : str :=
  match t with W w => w | C c => [c] end.

Definition untok (ts : list token) : str := flat_map untok_one ts.

Definition starts_with_word (ts : list token) : bool :=
  match ts with W _ :: _ => true | _ => false end.

(** Token lists that are the tokens of a string: words are not empty,
    hold word characters only and are never adjacent. *)
Fixpoint wf (ts : list token) : Prop :=
  match ts with
  | [] => True
  | W w :: r =>
      w <> [] /\ forallb is_word w = true /\ starts_with_word r = false /\ wf r
  | C c :: r => is_word c = false /\ wf r
  end.

(** The words a pattern [m] deletes. *)
Definition keep (m : option ascii -> str -> option nat) (t : token) : bool :=
  match t with
  | W w => match m None w with Some _ => false | None => true end
  | C _ => true
  end.

Definition sep_ok (ok : ascii -> bool) (t : token) : bool :=
  match t with W _ => true | C c => ok c end.

Fixpoint collapse_tok (in_run : bool) (ts : list token) : list token :=
  match ts with
  | [] => []
  | W w :: r => W w :: collapse_tok false r
  | C c :: r =>
      if is_space c
      then if in_run then collapse_tok true r else C " " :: collapse_tok true r
      else C c :: collapse_tok false r
  end.

(** White space in normal form: single blanks only. *)
Fixpoint tidy (in_run : bool) (s : str) : bool :=
  match s with
  | [] => true
  | c :: t =>
      if is_space c then negb in_run && chr_eqb c " " && tidy true t
      else tidy false t
  end.

Definition plain (c : ascii) : bool :=
  negb (chr_eqb c ".") && negb (chr_eqb c "_").

(** The whole of [w] is matched by the sequence of classes. *)
Fixpoint seq_exact (pat : list cls) (w : str) : bool :=
  match pat, w with
  | [], [] => true
  | p :: pat', c :: w' => p c && seq_exact pat' w'
  | _, _ => false
  end.

Definition word_cls (p : cls) : Prop := forall c, p c = true -> is_word c = true.

(** An alternative made of word characters only. *)
Definition word_seq (pat : list cls) : Prop := pat <> [] /\ Forall word_cls pat.

(** An alternative that needs, after its first character, a separator
    that is not among the [ok] ones. *)
Definition dead_seq (ok : ascii -> bool) (pat : list cls) : Prop :=
  exists p q tl, pat = p :: q :: tl /\ word_cls p /\
    forall c, q c = true -> is_word c = false /\ ok c = false.

(** ** Exceptions *)

Inductive exn :=
| FileNotFoundError | NotADirectoryError | IsADirectoryError | PermissionError
| ValueError | TypeError | RecursionError.

Inductive result (A : Type) := Ok (a : A) | Raise (e : exn).
Arguments Ok {A} a.
Arguments Raise {A} e.

Definition bind {A B} (r : result A) (k : A -> result B) : result B :=
  match r with Ok a => k a | Raise e => Raise e end.

(** ** The media library *)

(** What a path names: a regular file, a directory with its entries in
    the order [os.scandir] yields them, or something else (a socket, a
    dangling link).  An entry is a name and the node it names, so that
    [entry.is_file()], [entry.is_dir()] and a scan of [entry.path] read
    that node. *)
#[warnings="-register-all"]
Inductive node := File | Dir (entries : list (str * node)) | Special.

Definition filesystem := str -> option node.

Definition is_file (n : node) : bool := match n with File => true | _ => false end.
Definition is_dir (n : node) : bool := match n with Dir _ => true | _ => false end.

(** [os.scandir(path)]. *)
Definition scandir (fs : filesystem) (path : str) : result (list (str * node)) :=
  match fs path with
  | Some (Dir entries) => Ok entries
  | Some _ => Raise NotADirectoryError
  | None => Raise FileNotFoundError
  end.

(** [os.path.exists(path)]. *)
Definition exists_path (fs : filesystem) (path : str) : bool :=
  match fs path with Some _ => true | None => false end.

(** The module constant. *)
Definition VIDEO_EXTS : list str :=
  map txt [".mp4"; ".mkv"; ".avi"; ".mov"; ".flv"; ".wmv"; ".webm"]%string.

(** The set local to [is_video_file] and to [list_videos_in_dirs]. *)
Definition video_exts_set : list str :=
  map txt [".mp4"; ".mkv"; ".avi"; ".mov"; ".wmv"; ".flv"]%string.

(** The default of the [video_exts] parameter of [parse_series_folder]. *)
Definition video_exts_default : list str :=
  map txt [".mkv"; ".mp4"; ".avi"]%string.

Definition is_video_file (filename : str) : bool :=
  existsb (str_eqb (lower (snd (splitext filename)))) video_exts_set.

Module Episode.
Record t := { name : str; path : str; poster_path : str }.

(** [Episode(title, path)]: without a poster the placeholder is used. *)
Definition init (title path : str) : t :=
  {| name := title; path := path; poster_path := txt "video.png" |}.
End Episode.

(** ** Season grouper *)

(** [list.sort(key=...)]: a stable sort. *)
Fixpoint insert_by {A} (key : A -> nat) (x : A) (l : list A) : list A :=
  match l with
  | [] => [x]
  | y :: r => if key x <=? key y then x :: l else y :: insert_by key x r
  end.

Definition sort_by {A} (key : A -> nat) (l : list A) : list A :=
  fold_right (insert_by key) [] l.

(** A [dict] with string keys, in insertion order. *)
Fixpoint dict_mem {V} (k : str) (d : list (str * V)) : bool :=
  match d with
  | [] => false
  | (k', _) :: r => str_eqb k' k || dict_mem k r
  end.

(** [d[k].append(e)] *)
Fixpoint dict_append {V} (k : str) (e : V) (d : list (str * list V))
  : list (str * list V) :=
  match d with
  | [] => []
  | (k', v) :: r =>
      if str_eqb k' k then (k', v ++ [e]) :: r else (k', v) :: dict_append k e r
  end.

(** The body of the loop of [parse_series_folder]. *)
Definition group_entry (folder_path : str) (video_exts : list str)
    (seasons : list (str * list Episode.t)) (entry : str * node)
  : list (str * list Episode.t) :=
  let '(entry_name, nd) := entry in
  if is_file nd && endswith_any (lower entry_name) video_exts then
    let name_no_ext := fst (splitext entry_name) in
    let '(season_num, episode_num, title) :=
      match match_episode_name name_no_ext with
      | Some (g1, g2, g3) => (int_of_digits g1, int_of_digits g2, strip g3)
      | None => (1, 0, name_no_ext)
      end in
    let season_name := txt "Season " ++ str_of_nat season_num in
    let seasons :=
      if dict_mem season_name seasons then seasons
      else seasons ++ [(season_name, [])] in
    dict_append season_name (Episode.init title (join folder_path entry_name)) seasons
  else seasons.

Definition parse_series_folder (fs : filesystem) (folder_path : str)
    (video_exts : list str) : result (list (str * list Episode.t)) :=
  if negb (exists_path fs folder_path) then Ok []
  else
    bind (scandir fs folder_path) (fun entries =>
      let seasons := fold_left (group_entry folder_path video_exts) entries [] in
      Ok (map (fun '(k, eps) =>
                 (k, sort_by (fun e => parse_episode_number (Episode.name e)) eps))
              seasons)).

(** Episode [e] under key [k] was made from a file of the folder whose
    primary parse gives the season of [k]. *)
Definition from_file (folder : str) (entries : list (str * node))
    (k : str) (e : Episode.t) : Prop :=
  exists entry_name,
    In (entry_name, File) entries
    /\ Episode.path e = join folder entry_name
    /\ Episode.name e = snd (parse_filename entry_name)
    /\ k = txt "Season " ++ str_of_nat (fst (fst (parse_filename entry_name))).

Definition grouped (folder : str) (entries : list (str * node))
    (d : list (str * list Episode.t)) : Prop :=
  forall k eps, In (k, eps) d ->
    eps <> [] /\ forall e, In e eps -> from_file folder entries k e.

(** ** Flat listing *)

(** [os.walk(top)] on the node at [top], top down: a directory, its
    sub-directory names and its other names; what cannot be scanned is
    passed over. *)
Fixpoint walk (top : str) (nd : node) : list (str * list str * list str) :=
  match nd with
  | Dir entries =>
      (top,
       map fst (List.filter (fun e => is_dir (snd e)) entries),
       map fst (List.filter (fun e => negb (is_dir (snd e))) entries))
      :: flat_map (fun e => if is_dir (snd e) then walk (join top (fst e)) (snd e) else [])
           entries
  | _ => []
  end.

Definition has_video_ext (name : str) : bool :=
  existsb (str_eqb (lower (snd (splitext name)))) video_exts_set.

Definition list_videos_in_dirs (fs : filesystem) (folders : list str)
    (recursive : bool) : result (list str) :=
  fold_left (fun acc folder =>
    bind acc (fun videos =>
      match fs folder with
      | None => Ok videos
      | Some nd =>
          if recursive then
            Ok (videos ++
                flat_map (fun '(root, _, files) =>
                            map (join root) (List.filter has_video_ext files))
                         (walk folder nd))
          else
            bind (scandir fs folder) (fun entries =>
              Ok (videos ++
                  map (fun e => join folder (fst e))
                      (List.filter (fun e => is_file (snd e) && has_video_ext (fst e))
                                   entries)))
      end)) folders (Ok []).

(** ** Library scan *)

Inductive item := VideoItem (path : str) | SeriesItem (path : str).

Module LibraryWindow.
(** The body of the inner loop of [refresh_list]. *)
Definition scan_entry (folder : str) (items : list item) (entry : str * node)
  : list item :=
  let '(entry_name, nd) := entry in
  if is_file nd && endswith_any (lower entry_name) VIDEO_EXTS then
    items ++ [VideoItem (join folder entry_name)]
  else
    match nd with
    | Dir children =>
        let has_videos :=
          existsb (fun f => is_file (snd f) && endswith_any (lower (fst f)) VIDEO_EXTS)
                  children in
        if has_videos then items ++ [SeriesItem (join folder entry_name)]
        else items
    | _ => items
    end.

(** The scan of [refresh_list]: the items before the search filter. *)
Definition refresh_list (fs : filesystem) (folders : list str)
  : result (list item) :=
  fold_left (fun acc folder =>
    bind acc (fun items =>
      if negb (exists_path fs folder) then Ok items
      else bind (scandir fs folder) (fun entries =>
             Ok (fold_left (scan_entry folder) entries items))))
    folders (Ok []).
End LibraryWindow.

(** ** Metadata cache *)

(** The values the fields of a metadata dictionary hold. *)
Inductive atom := ANone | ABool (b : bool) | AInt (z : Z) | AStr (s : str).

(** The [data] argument of [save_metadata]; [None] is a missing key. *)
Record metadata := {
  md_title : option atom;
  md_overview : option atom;
  md_genres : option (list atom)
}.

(** What a metadata file gives back when read: title, overview and genre
    ids. *)
Module CacheRecord.
Record t := { title : str; overview : str; genres : list Z }.
End CacheRecord.

(** What a metadata file holds, by what [json.load] does with it: the
    document that [json.dump] wrote for a record, which is read back as
    that record; bytes on which it raises [json.JSONDecodeError] or, if
    they are not UTF-8, [UnicodeDecodeError], both of them a
    [ValueError]; or text whose brackets nest deeper than the recursion
    limit of the interpreter, on which it raises [RecursionError]. *)
Inductive file_text :=
| Document (r : CacheRecord.t)
| Garbage (raw : str)
| Nested (raw : str).

Definition str_of_Z (z : Z) : str :=
  match z with
  | Zneg p => "-"%char :: str_of_nat (Pos.to_nat p)
  | _ => str_of_nat (Z.to_nat z)
  end.

(** [str(v)] *)
Definition py_str (v : atom) : str :=
  match v with
  | ANone => txt "None"
  | ABool true => txt "True"
  | ABool false => txt "False"
  | AInt z => str_of_Z z
  | AStr s => s
  end.

(** The digits of an [int] literal: single underscores may separate
    them. *)
Fixpoint int_digits (acc : Z) (after_digit : bool) (s : str) : option Z :=
  match s with
  | [] => if after_digit then Some acc else None
  | c :: t =>
      if is_digit c then int_digits (10 * acc + Z.of_nat (digit_val c)) true t
      else if chr_eqb c "_" && after_digit then
        match t with
        | d :: _ => if is_digit d then int_digits acc false t else None
        | [] => None
        end
      else None
  end.

(** The white space that [int] passes over at both ends of a string:
    the six of ASCII, and the two above 127 that it turns into blanks.
    The separators 28 to 31, which [str.strip] removes, are none. *)
Definition is_int_space (c : ascii) : bool :=
  in_range 9 13 c || (code c =? 32)%N || (code c =? 133)%N || (code c =? 160)%N.

Fixpoint int_lstrip (s : str) : str :=
  match s with
  | c :: t => if is_int_space c then int_lstrip t else s
  | [] => []
  end.

Definition int_strip (s : str) : str := rev (int_lstrip (rev (int_lstrip s))).

(** [sys.int_info.default_max_str_digits] *)
Definition int_max_str_digits : Z := 4300.

(** The digits after the sign: more of them than the limit are
    refused. *)
Definition int_body (s : str) : option Z :=
  if (int_max_str_digits <? Z.of_nat (length (List.filter is_digit s)))%Z then None
  else int_digits 0 false s.

(** [int(s)] for a string: surrounding white space, a sign, digits. *)
Definition int_of_str (s : str) : option Z :=
  match int_strip s with
  | c :: t =>
      if chr_eqb c "-" then option_map Z.opp (int_body t)
      else if chr_eqb c "+" then int_body t
      else int_body (c :: t)
  | [] => None
  end.

(** [int(v)] *)
Definition py_int (v : atom) : result Z :=
  match v with
  | ANone => Raise TypeError
  | ABool b => Ok (if b then 1 else 0)%Z
  | AInt z => Ok z
  | AStr s => match int_of_str s with Some z => Ok z | None => Raise ValueError end
  end.

(** [[int(g) for g in l]] *)
Fixpoint int_list (l : list atom) : result (list Z) :=
  match l with
  | [] => Ok []
  | g :: l' => bind (py_int g) (fun z => bind (int_list l') (fun zs => Ok (z :: zs)))
  end.

Definition CACHE_DIR : str := txt ".cache".
Definition METADATA_DIR : str := join CACHE_DIR (txt "metadata").

(** ** Files of a cache directory *)

(** [s.split(sep)] *)
Fixpoint split_on (sep : ascii) (s : str) : list str :=
  match s with
  | [] => [[]]
  | c :: t =>
      if chr_eqb c sep then [] :: split_on sep t
      else match split_on sep t with
           | w :: ws => (c :: w) :: ws
           | [] => [[c]]
           end
  end.

(** [s] without the prefix [p], if it starts with it. *)
Fixpoint remove_prefix (p s : str) : option str :=
  match p, s with
  | [], _ => Some s
  | a :: p', b :: s' => if chr_eqb a b then remove_prefix p' s' else None
  | _ :: _, [] => None
  end.

(** The way from the directory [dir] along the components of a path, as
    the system goes it for [open]: an empty component and [.] stay where
    they are; any other component before the last would have to be a
    directory, and in a directory of regular files it is a file or it is
    missing; the last component names the file, which need not exist.
    The result is the path under which the state of the directory keeps
    that file.  The last component of the path of a cache file ends in
    [.json] or [.jpg], so it is none of the names of a directory.  What
    lies beyond [..] the state does not hold: nothing is found there,
    and a write is refused. *)
Fixpoint descend {A} (dir : str) (files : gmap str A) (components : list str)
  : result str :=
  match components with
  | [] => Raise IsADirectoryError
  | c :: rest =>
      let stays := str_eqb c [] || str_eqb c (txt ".") in
      match rest with
      | [] =>
          if stays || str_eqb c (txt "..") then Raise IsADirectoryError
          else Ok (dir ++ txt "/" ++ c)
      | _ :: _ =>
          if stays then descend dir files rest
          else if str_eqb c (txt "..") then Raise PermissionError
          else match files !! (dir ++ txt "/" ++ c) with
               | Some _ => Raise NotADirectoryError
               | None => Raise FileNotFoundError
               end
      end
  end.

(** The file of the cache directory [dir] that [path] names, or what
    [open(path, "w")] raises.  [os.path.join] has put [dir] in front
    unless the name of the file was an absolute path, which leads out of
    the directory as [..] does. *)
Definition resolve {A} (dir : str) (files : gmap str A) (path : str) : result str :=
  match remove_prefix (dir ++ txt "/") path with
  | Some rel => descend dir files (split_on "/" rel)
  | None => Raise PermissionError
  end.

(** [os.path.exists(path)] for a path into the cache directory [dir]. *)
Definition cache_exists {A} (dir : str) (files : gmap str A) (path : str) : bool :=
  match resolve dir files path with
  | Ok file => match files !! file with Some _ => true | None => false end
  | Raise _ => false
  end.

(** ** Reading and writing the metadata *)

Definition metadata_path (filename : str) : str :=
  join METADATA_DIR (filename ++ txt ".json").

(** The file is read when [os.path.exists(path)] holds, that is when
    the path leads to a file that is there.  [RecursionError] is not
    among the exceptions caught. *)
Definition get_cached_metadata (filename : str) (files : gmap str file_text)
  : result (option CacheRecord.t) * gmap str file_text :=
  let path := metadata_path filename in
  match resolve METADATA_DIR files path with
  | Ok file =>
      match files !! file with
      | Some (Document r) => (Ok (Some r), files)
      | Some (Garbage _) => (Ok None, delete file files)
      | Some (Nested _) => (Raise RecursionError, files)
      | None => (Ok None, files)
      end
  | Raise _ => (Ok None, files)
  end.

Definition save_metadata (filename : str) (data : metadata)
    (files : gmap str file_text) : result (gmap str file_text) :=
  let t := py_str (default (AStr []) (md_title data)) in
  let o := py_str (default (AStr []) (md_overview data)) in
  bind (int_list (default [] (md_genres data))) (fun gs =>
    let safe_data :=
      {| CacheRecord.title := t; CacheRecord.overview := o;
         CacheRecord.genres := gs |} in
    let path := metadata_path filename in
    bind (resolve METADATA_DIR files path) (fun file =>
      Ok (<[file := Document safe_data]> files))).

(** A key without a path separator. *)
Definition no_sep (key : str) : bool :=
  forallb (fun c => negb (chr_eqb c "/")) key.

(** The bytes of a name in UTF-8. *)
Definition utf8_length (s : str) : nat :=
  list_sum (map (fun c => if (code c <? 128)%N then 1 else 2) s).

(** A key that, with the suffix of a cache file, is the name of a file:
    no separator, no NUL, at most 255 bytes. *)
Definition file_key (key : str) : bool :=
  no_sep key
  && forallb (fun c => negb (code c =? 0)%N) key
  && (utf8_length key + 5 <=? 255).

(** ** Library items *)

(** The first result of a TMDb search, as far as the items read it. *)
Record tmdb_result := {
  tm_name : str;
  tm_overview : str;
  tm_genre_ids : option (list atom)
}.

(** [a or b] on strings. *)
Definition str_or (a b : str) : str := match a with [] => b | _ => a end.

Module VideoItem.
Record t := {
  path : str; filename : str;
  title : str; overview : str; genres : list Z
}.

(** What [get_cached_metadata] raises leaves the constructor. *)
Definition init (path : str) (files : gmap str file_text)
  : result t * gmap str file_text :=
  let filename := fst (splitext (basename path)) in
  let '(metadata, files) := get_cached_metadata filename files in
  (match metadata with
   | Ok (Some r) => Ok {| path := path; filename := filename;
                          title := CacheRecord.title r;
                          overview := CacheRecord.overview r;
                          genres := CacheRecord.genres r |}
   | Ok None => Ok {| path := path; filename := filename;
                      title := basename path;
                      overview := txt "No description available.";
                      genres := [] |}
   | Raise e => Raise e
   end, files).

(** [_fetch_online(None)]; [search] is the TMDb movie search, giving
    its first result.  An exception ends the thread where it is
    raised. *)
Definition fetch_online (search : str -> option tmdb_result) (self : t)
    (files : gmap str file_text) : t * gmap str file_text :=
  match search (clean_filename (basename (path self))) with
  | None => (self, files)
  | Some movie =>
      let title' := str_or (tm_name movie) (title self) in
      let overview' := str_or (tm_overview movie) (overview self) in
      let with_genres gs :=
        {| path := path self; filename := filename self;
           title := title'; overview := overview'; genres := gs |} in
      match match tm_genre_ids movie with
            | Some ids => int_list ids
            | None => Ok (genres self)
            end with
      | Raise _ => (with_genres (genres self), files)
      | Ok gs =>
          let self' := with_genres gs in
          match save_metadata (filename self')
                  {| md_title := Some (AStr title');
                     md_overview := Some (AStr overview');
                     md_genres := Some (map AInt gs) |} files with
          | Ok files' => (self', files')
          | Raise _ => (self', files)
          end
      end
  end.
End VideoItem.

Module SeriesItem.
Record t := {
  folder_path : str;
  title : str; overview : str; genres : list atom
}.

(** What [get_cached_metadata] raises leaves the constructor. *)
Definition init (folder_path : str) (files : gmap str file_text)
  : result t * gmap str file_text :=
  let title0 := basename folder_path in
  let '(metadata, files) := get_cached_metadata title0 files in
  (match metadata with
   | Ok (Some r) => Ok {| folder_path := folder_path;
                          title := CacheRecord.title r;
                          overview := CacheRecord.overview r;
                          genres := map AInt (CacheRecord.genres r) |}
   | Ok None => Ok {| folder_path := folder_path;
                      title := title0;
                      overview := txt "No description available.";
                      genres := [] |}
   | Raise e => Raise e
   end, files).

(** [fetch_metadata()]; [search] is the TMDb series search, giving its
    first result.  Exceptions are caught and logged. *)
Definition fetch_metadata (search : str -> option tmdb_result) (self : t)
    (files : gmap str file_text) : t * gmap str file_text :=
  match search (title self) with
  | None => (self, files)
  | Some tv =>
      let self' :=
        {| folder_path := folder_path self;
           title := str_or (tm_name tv) (title self);
           overview := str_or (tm_overview tv) (overview self);
           genres := default [] (tm_genre_ids tv) |} in
      match save_metadata (title self')
              {| md_title := Some (AStr (title self'));
                 md_overview := Some (AStr (overview self'));
                 md_genres := Some (genres self') |} files with
      | Ok files' => (self', files')
      | Raise _ => (self', files)
      end
  end.
End SeriesItem.

(** ** The scan in the specification's words *)

(** [name] ends in one of the extensions, whatever the case of its
    letters. *)
Definition has_ext_in (exts : list str) (name : str) : Prop :=
  exists stem ext, name = stem ++ ext /\ In (lower ext) exts.

Definition recognized (name : str) : bool :=
  existsb (fun ext => endswith (lower name) ext) VIDEO_EXTS.

(** A video file is a stand-alone video; a directory with a video file
    among its direct children is a series folder; anything else is
    nothing. *)
Definition classify (folder : str) (entry : str * node) : list item :=
  match entry with
  | (name, File) => if recognized name then [VideoItem (join folder name)] else []
  | (name, Dir children) =>
      if existsb (fun f => is_file (snd f) && recognized (fst f)) children
      then [SeriesItem (join folder name)] else []
  | (_, Special) => []
  end.

Definition scan_spec (fs : filesystem) (folders : list str) : list item :=
  flat_map (fun folder =>
              match fs folder with
              | Some (Dir entries) => flat_map (classify folder) entries
              | _ => []
              end) folders.

(** ** Scenarios *)

(** A series folder whose scan yields episode 2 before episode 1. *)
Definition show_folder : filesystem := fun p =>
  if str_eqb p (txt "/tv/Show")
  then Some (Dir [(txt "S01E02 - Beta.mkv", File); (txt "S01E01 - Alpha.mkv", File)])
  else None.

(** A library with a film, a series, a folder without videos and a
    series whose only episode is a [.webm] file. *)
Definition media_library : filesystem := fun p =>
  if str_eqb p (txt "/media")
  then Some (Dir [ (txt "Movie.2021.1080p.mkv", File);
                   (txt "Show", Dir [(txt "S01E01 - Pilot.mkv", File)]);
                   (txt "Docs", Dir [(txt "notes.txt", File)]) ])
  else if str_eqb p (txt "/web")
  then Some (Dir [ (txt "Clips", Dir [(txt "S01E01 - Intro.webm", File)]) ])
  else if str_eqb p (txt "/web/Clips")
  then Some (Dir [(txt "S01E01 - Intro.webm", File)])
  else None.

(** A genre id as TMDb or a caller hands it over, and the integer it
    stands for: an integer, or a string of decimal digits with an
    optional minus sign.  Neither has more digits than CPython converts
    between [int] and text. *)
Inductive genre_id : atom -> Z -> Prop :=
| genre_id_int z :
    (Z.abs z < 10 ^ int_max_str_digits)%Z -> genre_id (AInt z) z
| genre_id_digits ds :
    ds <> [] -> forallb is_digit ds = true ->
    (Z.of_nat (length ds) <= int_max_str_digits)%Z ->
    genre_id (AStr ds) (Z.of_nat (int_of_digits ds))
| genre_id_minus ds :
    ds <> [] -> forallb is_digit ds = true ->
    (Z.of_nat (length ds) <= int_max_str_digits)%Z ->
    genre_id (AStr ("-"%char :: ds)) (- Z.of_nat (int_of_digits ds)).

(** A TMDb that knows one series. *)
Definition tmdb_office (query : str) : option tmdb_result :=
  if str_eqb (lower query) (txt "the office")
  then Some {| tm_name := txt "The Office";
               tm_overview := txt "A mockumentary.";
               tm_genre_ids := Some [AInt 35] |}
  else None.

(** * Further functions of the file *)

(** ** [SeriesItem._parse_episode] *)

(** [re.search] of [[Ss](\d{1,2})[Ee](\d{1,2})]: the two groups of the
    match at the head of [s], if there is one. *)
Definition match_season_episode (s : str) : option (str * str) :=
  match s with
  | c :: r0 =>
      if chr_eqb c "S" || chr_eqb c "s" then
        first_some (fun '(g1, r1) =>
          match r1 with
          | e :: r2 =>
              if chr_eqb e "E" || chr_eqb e "e" then
                match rep_digit_1_2 r2 with
                | (g2, _) :: _ => Some (g1, g2)
                | [] => None
                end
              else None
          | [] => None
          end) (rep_digit_1_2 r0)
      else None
  | [] => None
  end.

Fixpoint search_season_episode (s : str) : option (str * str) :=
  match s with
  | [] => None
  | _ :: t =>
      match match_season_episode s with
      | Some g => Some g
      | None => search_season_episode t
      end
  end.

Definition _parse_episode (filename : str) : nat * nat :=
  match search_season_episode filename with
  | Some (g1, g2) => (int_of_digits g1, int_of_digits g2)
  | None => (0, 0)
  end.

(** ** What a cleaned title is free of *)

(** [(19|20)\d{2}] as a whole word. *)
Definition is_year (w : str) : bool :=
  match w with
  | [a; b; c; d] =>
      ((chr_eqb a "1" && chr_eqb b "9") || (chr_eqb a "2" && chr_eqb b "0"))
      && is_digit c && is_digit d
  | _ => false
  end.

(** The release tags that are words, in the spelling of the source. *)
Definition quality_words : list str :=
  map txt ["720p"; "1080p"; "2160p"; "480p"; "HDR"; "BluRay"; "WEBRip"; "x264";
           "H264"]%string.

(** One of them, whatever the case of the letters. *)
Definition is_quality_tag (w : str) : bool :=
  existsb (fun t => str_eqb (lower w) (lower t)) quality_words.

(** ** The groups of a series folder, entry by entry *)

(** The entries [parse_series_folder] takes as episodes. *)
Definition is_episode_file (video_exts : list str) (entry : str * node) : bool :=
  is_file (snd entry) && endswith_any (lower (fst entry)) video_exts.

(** The key of the group of a file, and the episode made of it. *)
Definition season_key (entry_name : str) : str :=
  txt "Season " ++ str_of_nat (fst (fst (parse_filename entry_name))).

Definition episode_of (folder_path entry_name : str) : Episode.t :=
  Episode.init (snd (parse_filename entry_name)) (join folder_path entry_name).

(** The episodes of the files of one season, in scan order. *)
Definition episodes_of (folder_path : str) (video_exts : list str) (k : str)
    (entries : list (str * node)) : list Episode.t :=
  map (fun e => episode_of folder_path (fst e))
      (List.filter (fun e => is_episode_file video_exts e
                             && str_eqb (season_key (fst e)) k) entries).

(** The state of the grouping loop after the entries [done]. *)
Definition groups_of (folder_path : str) (video_exts : list str)
    (done : list (str * node)) (d : list (str * list Episode.t)) : Prop :=
  NoDup (map fst d)
  /\ (forall k eps, In (k, eps) d ->
        eps = episodes_of folder_path video_exts k done)
  /\ (forall e, In e done -> is_episode_file video_exts e = true ->
        In (season_key (fst e)) (map fst d)).

(** ** Poster cache *)

Definition POSTER_DIR : str := join CACHE_DIR (txt "posters").

Definition poster_path_of (filename : str) : str :=
  join POSTER_DIR (filename ++ txt ".jpg").

(** The state of the poster directory maps the path of a file to its
    bytes. *)
Definition get_cached_poster (filename : str) (posters : gmap str str)
  : option str :=
  let path := poster_path_of filename in
  match resolve POSTER_DIR posters path with
  | Ok file =>
      match posters !! file with
      | Some _ => Some path
      | None => None
      end
  | Raise _ => None
  end.

(** [download_poster(poster_path, filename)]; [http_get url] is the body
    of the response, or [None] when the request raises.  The bare
    [except] turns every failure into [None], that of the write among
    them. *)
Definition download_poster (http_get : str -> option str)
    (poster_path filename : str) (posters : gmap str str)
  : option str * gmap str str :=
  let url := txt "https://image.tmdb.org/t/p/original" ++ poster_path in
  match http_get url with
  | Some data =>
      let path := poster_path_of filename in
      match resolve POSTER_DIR posters path with
      | Ok file => (Some path, <[file := data]> posters)
      | Raise _ => (None, posters)
      end
  | None => (None, posters)
  end.

(** ** [fetch_series_metadata] *)

(** The first result of the series search, as the function reads it:
    [None] is a missing key, [genre_ids] may hold something that is not
    a list. *)
Record series_hit := {
  sh_name : option atom;
  sh_overview : option atom;
  sh_genre_ids : option (option (list atom));
  sh_poster_path : option str
}.

(** The dictionary the function returns. *)
Record series_meta := {
  sm_title : atom;
  sm_overview : atom;
  sm_genres : list Z;
  sm_poster_path : option str
}.

(** [tv_search series_name] is the list under ["results"] of the
    response, or [None] when the request, its status check or its
    decoding raises. *)
Definition fetch_series_metadata (tv_search : str -> option (list series_hit))
    (http_get : str -> option str) (series_name : str)
    (files : gmap str file_text) (posters : gmap str str)
  : option series_meta * gmap str file_text * gmap str str :=
  match tv_search series_name with
  | None => (None, files, posters)
  | Some [] => (None, files, posters)
  | Some (best :: _) =>
      let genres :=
        match sh_genre_ids best with
        | Some (Some l) => l
        | _ => []
        end in
      let t := default (AStr series_name) (sh_name best) in
      let o := default (AStr []) (sh_overview best) in
      match int_list genres with
      | Raise _ => (None, files, posters)
      | Ok gs =>
          match save_metadata series_name
                  {| md_title := Some t; md_overview := Some o;
                     md_genres := Some (map AInt gs) |} files with
          | Raise _ => (None, files, posters)
          | Ok files' =>
              let meta p := {| sm_title := t; sm_overview := o;
                               sm_genres := gs; sm_poster_path := p |} in
              match sh_poster_path best with
              | Some (c :: pp) =>
                  match download_poster http_get (c :: pp) series_name posters with
                  | (Some poster_file, posters') =>
                      (Some (meta (Some poster_file)), files', posters')
                  | (None, posters') => (Some (meta None), files', posters')
                  end
              | _ => (Some (meta None), files', posters)
              end
          end
      end
  end.

(** A configured path that is a file. *)
Definition file_as_folder : filesystem := fun p =>
  if str_eqb p (txt "/media/a.mkv") then Some File else None.

(** ** [format_seconds] *)

(** [f"{n:02}"] for an [int]: at least two characters, the sign among
    them. *)
Definition fmt02 (n : Z) : str :=
  if (n <? 0)%Z then "-"%char :: str_of_nat (Z.to_nat (- n))
  else if (n <? 10)%Z then "0"%char :: str_of_nat (Z.to_nat n)
  else str_of_nat (Z.to_nat n).

(** The definition in force: the second of the two in the file.  The
    argument is an [int], as [update_ui] passes it. *)
Definition format_seconds (seconds : Z) : str :=
  let seconds := Z.max 0 seconds in
  let h := (seconds / 3600)%Z in
  let m := ((seconds mod 3600) / 60)%Z in
  let s := (seconds mod 60)%Z in
  if (0 <? h)%Z then fmt02 h ++ ":"%char :: fmt02 m ++ ":"%char :: fmt02 s
  else fmt02 m ++ ":"%char :: fmt02 s.

(** The first definition, which the second replaces when the module is
    loaded. *)
Definition format_seconds_shadowed (sec : Z) : str :=
  let '(m, s) := ((sec / 60)%Z, (sec mod 60)%Z) in
  let '(h, m) := ((m / 60)%Z, (m mod 60)%Z) in
  if (0 <? h)%Z then fmt02 h ++ ":"%char :: fmt02 m ++ ":"%char :: fmt02 s
  else fmt02 m ++ ":"%char :: fmt02 s.

(** The number a string of decimal digits stands for. *)
Definition digits_value (s : str) : option nat :=
  option_map Nat.of_uint (NilEmpty.uint_of_string (string_of_list_ascii s)).

(** ** [FlowLayout] *)

(** A [QRect] and the size hint of a widget of the layout. *)
Record rect := { rx : Z; ry : Z; rwidth : Z; rheight : Z }.

(** [QRect.right()] *)
Definition rect_right (r : rect) : Z := (rx r + rwidth r - 1)%Z.

Record widget := { visible : bool; hint_width : Z; hint_height : Z }.

(** The loop of [doLayout] from the state [x], [y], [lineHeight]: the
    geometries set, in the order of the items, and the value returned. *)
Fixpoint layout_items (r : rect) (spacing : Z) (testOnly : bool)
    (item_list : list widget) (x y lineHeight : Z) : list rect * Z :=
  match item_list with
  | [] => ([], (y + lineHeight - ry r)%Z)
  | wid :: rest =>
      if negb (visible wid) then
        layout_items r spacing testOnly rest x y lineHeight
      else
        let wrap :=
          (rect_right r <? x + hint_width wid)%Z && (0 <? lineHeight)%Z in
        let x1 := if wrap then rx r else x in
        let y1 := if wrap then (y + lineHeight + spacing)%Z else y in
        let lineHeight1 := if wrap then 0%Z else lineHeight in
        let '(placed, height) :=
          layout_items r spacing testOnly rest
            (x1 + hint_width wid + spacing)%Z y1
            (Z.max lineHeight1 (hint_height wid)) in
        (if testOnly then placed
         else {| rx := x1; ry := y1;
                 rwidth := hint_width wid; rheight := hint_height wid |} :: placed,
         height)
  end.

Definition doLayout (spacing : Z) (item_list : list widget) (r : rect)
    (testOnly : bool) : list rect * Z :=
  layout_items r spacing testOnly item_list (rx r) (ry r) 0.

(** [heightForWidth(width)] *)
Definition heightForWidth (spacing : Z) (item_list : list widget) (width : Z) : Z :=
  snd (doLayout spacing item_list
         {| rx := 0; ry := 0; rwidth := width; rheight := 0 |} true).

(** Two rectangles with no point in common. *)
Definition apart (a b : rect) : Prop :=
  (rx a + rwidth a <= rx b \/ rx b + rwidth b <= rx a
   \/ ry a + rheight a <= ry b \/ ry b + rheight b <= ry a)%Z.

(** Every visible widget has a size hint with a width that is not
    negative and a height that is positive. *)
Definition sized (item_list : list widget) : Prop :=
  forall wid, In wid item_list -> visible wid = true ->
    (0 <= hint_width wid /\ 0 < hint_height wid)%Z.

(** ** [SeasonWidget.rearrange_cards] *)

(** [range(lo, hi)] *)
Definition range (lo hi : Z) : list Z :=
  map (fun i => (lo + Z.of_nat i)%Z) (seq 0 (Z.to_nat (hi - lo))).

(** What the method puts into the grid: the width given to every card,
    the cell (row, column) of each card, and the cells of the
    placeholders that fill the last row. *)
Record card_grid (A : Type) := {
  columns : Z;
  card_w : Z;
  cards_at : list (A * (Z * Z));
  spacers_at : list (Z * Z)
}.
Arguments columns {A}.
Arguments card_w {A}.
Arguments cards_at {A}.
Arguments spacers_at {A}.

(** [self.spacing], set once by the constructor. *)
Definition season_spacing : Z := 10.

(** [rearrange_cards()]: [None] when the method returns before touching
    the grid.  [cards] is [self.cards], [width] is [self.width()],
    [last_columns] is [self._last_columns] if it is set.  The zoom
    factor of a [SeasonWidget] is always 1.0, so the scaled width is
    [base_width]. *)
Definition rearrange_cards {A} (cards : option (list A)) (is_visible : bool)
    (base_width width : Z) (last_columns : option Z) : option (card_grid A) :=
  match cards with
  | None | Some [] => None
  | Some cards =>
      if negb is_visible then None
      else
        let card_w := Z.max 50 base_width in
        let width := Z.max 100 width in
        let columns := Z.max 1 (width / (card_w + season_spacing)) in
        match last_columns with
        | Some c => if (c =? columns)%Z then None else
            Some {| columns := columns; card_w := card_w;
                    cards_at :=
                      combine cards
                        (map (fun idx => ((idx / columns)%Z, (idx mod columns)%Z))
                             (range 0 (Z.of_nat (length cards))));
                    spacers_at :=
                      let remainder := (Z.of_nat (length cards) mod columns)%Z in
                      if (remainder =? 0)%Z then []
                      else map (fun col => ((Z.of_nat (length cards) / columns)%Z, col))
                               (range remainder columns) |}
        | None =>
            Some {| columns := columns; card_w := card_w;
                    cards_at :=
                      combine cards
                        (map (fun idx => ((idx / columns)%Z, (idx mod columns)%Z))
                             (range 0 (Z.of_nat (length cards))));
                    spacers_at :=
                      let remainder := (Z.of_nat (length cards) mod columns)%Z in
                      if (remainder =? 0)%Z then []
                      else map (fun col => ((Z.of_nat (length cards) / columns)%Z, col))
                               (range remainder columns) |}
        end
  end.

(* ================================================================== *)
(** * Proofs *)

Example parse_filename_beta :
  parse_filename (txt "S01E02 - Beta.mkv") = (1, 2, txt "Beta").
Proof. reflexivity. Qed.

Example parse_filename_newline :
  parse_filename (txt "S1E1 - a" ++ "010"%char :: txt "b.mkv") = (1, 1, txt "a").
Proof. reflexivity. Qed.

Example parse_filename_fallback :
  parse_filename (txt "holiday.2019.mkv") = (1, 0, txt "holiday.2019").
Proof. reflexivity. Qed.

(** ** Characters *)

Ltac by_char c :=
  destruct c as [[] [] [] [] [] [] [] []]; vm_compute;
  intros; try reflexivity; try discriminate; try tauto.

Lemma chr_eqb_eq (a b : ascii) : chr_eqb a b = true <-> a = b.
Proof. apply Ascii.eqb_eq. Qed.

Lemma space_not_digit c : is_space c = true -> is_digit c = false.
Proof. by_char c. Qed.

Lemma space_not_word c : is_space c = true -> is_word c = false.
Proof. by_char c. Qed.

Lemma space_not_hyphen c : is_space c = true -> chr_eqb c "-" = false.
Proof. by_char c. Qed.

Lemma Ee_not_digit c :
  chr_eqb c "E" || chr_eqb c "e" = true -> is_digit c = false.
Proof. by_char c. Qed.

(** ** Stripping *)

Lemma lstrip_spaces ws t :
  forallb is_space ws = true -> lstrip (ws ++ t) = lstrip t.
Proof.
  induction ws as [|c ws IH]; simpl; [easy|].
  intros [Hc Hws]%andb_prop. rewrite Hc. auto.
Qed.

Lemma lstrip_head c t : is_space c = false -> lstrip (c :: t) = c :: t.
Proof. simpl. intros ->. reflexivity. Qed.

Lemma lstrip_split s :
  exists ws, s = ws ++ lstrip s /\ forallb is_space ws = true.
Proof.
  induction s as [|c s [ws [E H]]]; simpl.
  - exists []. split; reflexivity.
  - destruct (is_space c) eqn:Hc.
    + exists (c :: ws). simpl. rewrite Hc, H. split; [congruence | reflexivity].
    + exists []. split; reflexivity.
Qed.

Lemma lstrip_idem s : lstrip (lstrip s) = lstrip s.
Proof.
  induction s as [|c s IH]; simpl; [reflexivity|].
  destruct (is_space c) eqn:Hc; [assumption|]. simpl. rewrite Hc. reflexivity.
Qed.

Lemma strip_lstrip s : strip (lstrip s) = strip s.
Proof. unfold strip. rewrite lstrip_idem. reflexivity. Qed.

Lemma dot_star_no_newline s :
  forallb (fun c => negb (chr_eqb c "010")) s = true -> dot_star s = s.
Proof.
  induction s as [|c s IH]; simpl; [reflexivity|].
  intros [Hc Hs]%andb_prop. apply negb_true_iff in Hc. rewrite Hc, IH; auto.
Qed.

Lemma lstrip_forallb (P : ascii -> bool) s :
  forallb P s = true -> forallb P (lstrip s) = true.
Proof.
  induction s as [|c s IH]; simpl; [reflexivity|].
  intros H. destruct (is_space c); [|exact H].
  apply andb_prop in H as [_ H]. auto.
Qed.

(** ** The filename pattern *)

Lemma first_some_In {A B} (k : A -> option B) l r :
  first_some k l = Some r -> exists x, In x l /\ k x = Some r.
Proof.
  induction l as [|x l IH]; simpl; [discriminate|].
  destruct (k x) eqn:Hk.
  - intros [= <-]. exists x. auto.
  - intros H. destruct (IH H) as [y [Hy Hk']]. exists y. auto.
Qed.

Lemma rep_digit_1_2_In s g r :
  In (g, r) (rep_digit_1_2 s) ->
  s = g ++ r /\ forallb is_digit g = true /\ 1 <= length g <= 2.
Proof.
  destruct s as [|a [|b t]]; simpl; [tauto| |].
  - destruct (is_digit a) eqn:Ha; simpl; [|tauto].
    intros [[= <- <-]|[]]. simpl. rewrite Ha. repeat split; lia.
  - destruct (is_digit a) eqn:Ha; [|simpl; tauto].
    destruct (is_digit b) eqn:Hb; simpl.
    + intros [[= <- <-]|[[= <- <-]|[]]]; simpl; rewrite Ha, ?Hb;
        repeat split; lia.
    + intros [[= <- <-]|[]]. simpl. rewrite Ha. repeat split; lia.
Qed.

(** The greedy alternative of [\d{1,2}] is the one the match takes when
    the digits are followed by something that is not a digit. *)
Lemma rep_digit_1_2_greedy {B} (k : str * str -> option B) d t r :
  forallb is_digit d = true -> 1 <= length d <= 2 ->
  match t with [] => True | c :: _ => is_digit c = false end ->
  k (d, t) = Some r ->
  first_some k (rep_digit_1_2 (d ++ t)) = Some r.
Proof.
  intros Hd Hlen Ht Hk.
  destruct d as [|a [|b [|? ?]]]; simpl in Hlen; try lia.
  - simpl in Hd. rewrite andb_true_r in Hd.
    destruct t as [|c t]; simpl; rewrite Hd; [simpl; rewrite Hk; reflexivity|].
    rewrite Ht. simpl. rewrite Hk. reflexivity.
  - simpl in Hd. apply andb_prop in Hd as [Ha Hb]. rewrite andb_true_r in Hb.
    simpl. rewrite Ha, Hb. simpl. rewrite Hk. reflexivity.
Qed.

Lemma match_episode_name_complete name d1 d2 rest :
  episode_form name d1 d2 rest ->
  match_episode_name name = Some (d1, d2, dot_star (lstrip rest)).
Proof.
  intros [s e d1' d2' ws1 ws2 rest' Hs He Hd1 Hl1 Hd2 Hl2 Hw1 Hw2].
  unfold match_episode_name. rewrite Hs.
  apply rep_digit_1_2_greedy; auto.
  { now apply Ee_not_digit. }
  rewrite He.
  apply rep_digit_1_2_greedy; auto.
  { destruct ws1 as [|w ws1]; simpl; [reflexivity|].
    simpl in Hw1. apply andb_prop in Hw1 as [Hw _]. now apply space_not_digit. }
  rewrite lstrip_spaces by assumption. simpl.
  rewrite lstrip_spaces by assumption. reflexivity.
Qed.

Lemma match_episode_name_sound name g1 g2 g3 :
  match_episode_name name = Some (g1, g2, g3) ->
  exists rest, episode_form name g1 g2 rest /\ g3 = dot_star (lstrip rest).
Proof.
  unfold match_episode_name.
  destruct name as [|s r0]; [discriminate|].
  destruct (chr_eqb s "S" || chr_eqb s "s") eqn:Hs; [|discriminate].
  intros H. apply first_some_In in H as [[d1 r1] [Hin1 H]].
  apply rep_digit_1_2_In in Hin1 as (-> & Hd1 & Hl1).
  destruct r1 as [|e r2]; [discriminate|].
  destruct (chr_eqb e "E" || chr_eqb e "e") eqn:He; [|discriminate].
  apply first_some_In in H as [[d2 r3] [Hin2 H]].
  apply rep_digit_1_2_In in Hin2 as (-> & Hd2 & Hl2).
  destruct (lstrip_split r3) as [ws1 [E3 Hw1]].
  destruct (lstrip r3) as [|h r4]; [discriminate|].
  destruct (chr_eqb h "-") eqn:Hh; [|discriminate].
  apply chr_eqb_eq in Hh. subst h.
  injection H as <- <- <-.
  exists r4. split; [|reflexivity].
  rewrite E3.
  apply (episode_form_intro s e d1 d2 ws1 [] r4); auto.
Qed.

Lemma parse_filename_form filename d1 d2 rest :
  episode_form (fst (splitext filename)) d1 d2 rest ->
  parse_filename filename =
    (int_of_digits d1, int_of_digits d2, strip (dot_star (lstrip rest))).
Proof.
  intros H. unfold parse_filename.
  rewrite (match_episode_name_complete _ _ _ _ H). reflexivity.
Qed.

Lemma parse_filename_no_form filename :
  (forall d1 d2 rest, ~ episode_form (fst (splitext filename)) d1 d2 rest) ->
  parse_filename filename = (1, 0, fst (splitext filename)).
Proof.
  intros H. unfold parse_filename.
  destruct (match_episode_name (fst (splitext filename)))
    as [[[g1 g2] g3]|] eqn:E; [|reflexivity].
  apply match_episode_name_sound in E as [rest [F _]].
  destruct (H _ _ _ F).
Qed.

(** C1, as amended.  For every filename whose stem is [S], one or two
    digits, [E], one or two digits, optional white space, a hyphen,
    optional white space and a remainder, [parse_filename] returns the
    season and the episode as integers and, as title, the remainder with
    its leading white space skipped, cut at its first line feed and
    trimmed; when the remainder has no line feed that is the trimmed
    remainder.  For every filename whose stem has not that form it returns
    season 1, episode 0 and the full stem. *)
Theorem parse_filename_spec (filename : str) :
  (forall d1 d2 rest,
     episode_form (fst (splitext filename)) d1 d2 rest ->
     parse_filename filename =
       (int_of_digits d1, int_of_digits d2, strip (dot_star (lstrip rest)))
     /\ (forallb (fun c => negb (chr_eqb c "010")) rest = true ->
         parse_filename filename =
           (int_of_digits d1, int_of_digits d2, strip rest)))
  /\ ((forall d1 d2 rest, ~ episode_form (fst (splitext filename)) d1 d2 rest) ->
      parse_filename filename = (1, 0, fst (splitext filename))).
Proof.
  split.
  - intros d1 d2 rest H. split; [now apply parse_filename_form|].
    intros Hnl. rewrite (parse_filename_form _ _ _ _ H).
    rewrite dot_star_no_newline by now apply lstrip_forallb.
    rewrite strip_lstrip. reflexivity.
  - apply parse_filename_no_form.
Qed.

Lemma parse_filename_spec_witness :
  parse_filename (txt "S01E02 - Beta.mkv") = (1, 2, txt "Beta")
  /\ parse_filename (txt "Trailer.mp4") = (1, 0, txt "Trailer").
Proof.
  split.
  - apply (proj1 (parse_filename_spec (txt "S01E02 - Beta.mkv"))
             (txt "01") (txt "02") (txt "Beta")); [|reflexivity].
    apply (episode_form_intro "S" "E" (txt "01") (txt "02") (txt " ") (txt " ")
             (txt "Beta")); simpl; auto.
  - apply (proj2 (parse_filename_spec (txt "Trailer.mp4"))).
    intros d1 d2 rest H. vm_compute in H. inversion H; subst.
    discriminate.
Defined.

(** C1 as written fails on a remainder with a line feed in it: the title
    stops there. *)
Lemma parse_filename_title_stops_at_line_feed :
  let filename := txt "S1E1 - a" ++ "010"%char :: txt "b.mkv" in
  let rest := txt "a" ++ "010"%char :: txt "b" in
  episode_form (fst (splitext filename)) (txt "1") (txt "1") rest
  /\ parse_filename filename = (1, 1, txt "a")
  /\ parse_filename filename
     <> (int_of_digits (txt "1"), int_of_digits (txt "1"), strip rest).
Proof.
  repeat split.
  - apply (episode_form_intro "S" "E" (txt "1") (txt "1") (txt " ") (txt " ")
             (txt "a" ++ "010"%char :: txt "b")); simpl; auto.
  - vm_compute. discriminate.
Qed.

Example clean_filename_movie :
  clean_filename (txt "Movie.2021.1080p.mkv") = txt "Movie".
Proof. reflexivity. Qed.

Example clean_filename_tags :
  clean_filename (txt "the_big.show.S01E02.x264-GRP.H.264.WEBRip.1999x.mp4")
  = txt "the big show S01E02 -GRP H 264 1999x".
Proof. reflexivity. Qed.

Example parse_episode_number_ex :
  parse_episode_number (txt "show.s1e07.mkv") = 7
  /\ parse_episode_number (txt "Beta") = 0
  /\ parse_episode_number (txt "S123E4 S1E234") = 23.
Proof. repeat split; reflexivity. Qed.

(** ** Words and separators *)

Lemma untok_merge c ts : untok (merge c ts) = c :: untok ts.
Proof. destruct ts as [|[w|d] r]; reflexivity. Qed.

Lemma untok_tok s : untok (tok s) = s.
Proof.
  induction s as [|c s IH]; simpl; [reflexivity|].
  destruct (is_word c); [rewrite untok_merge|simpl]; now rewrite IH.
Qed.

Lemma wf_merge c ts : is_word c = true -> wf ts -> wf (merge c ts).
Proof.
  intros Hc. destruct ts as [|[w|d] r]; simpl.
  - intros _. rewrite Hc. repeat split; auto; discriminate.
  - intros (Hw & Hall & Hr & Hwf). rewrite Hc, Hall.
    repeat split; auto; discriminate.
  - intros [Hd Hwf]. rewrite Hc. repeat split; auto; discriminate.
Qed.

Lemma wf_tok s : wf (tok s).
Proof.
  induction s as [|c s IH]; simpl; [exact I|].
  destruct (is_word c) eqn:Hc; [now apply wf_merge|]. simpl. auto.
Qed.

Lemma tok_word_app w rest :
  w <> [] -> forallb is_word w = true -> starts_with_word (tok rest) = false ->
  tok (w ++ rest) = W w :: tok rest.
Proof.
  intros Hne Hw Hrest. induction w as [|c w IH]; [congruence|].
  simpl in Hw. apply andb_prop in Hw as [Hc Hw]. simpl. rewrite Hc.
  destruct w as [|c' w].
  - simpl. destruct (tok rest) as [|[?|?] ?]; simpl in *; congruence.
  - rewrite IH by (auto; discriminate). reflexivity.
Qed.

Lemma tok_untok ts : wf ts -> tok (untok ts) = ts.
Proof.
  induction ts as [|[w|c] r IH]; simpl; [reflexivity| |].
  - intros (Hne & Hw & Hr & Hwf). specialize (IH Hwf).
    rewrite tok_word_app; rewrite ?IH; auto.
  - intros [Hc Hwf]. rewrite Hc, IH; auto.
Qed.

Lemma wf_filter (p : token -> bool) ts :
  (forall c, p (C c) = true) -> wf ts -> wf (List.filter p ts).
Proof.
  intros Hp. induction ts as [|[w|c] r IH]; simpl; [auto| |].
  - intros (Hne & Hw & Hr & Hwf). destruct (p (W w)); [|auto].
    simpl. repeat split; auto.
    destruct r as [|[?|d] ?]; simpl in *; [reflexivity|discriminate|].
    rewrite Hp. reflexivity.
  - intros [Hc Hwf]. rewrite Hp. simpl. auto.
Qed.

Lemma sep_ok_tok (ok : ascii -> bool) s :
  forallb ok s = true -> forallb (sep_ok ok) (tok s) = true.
Proof.
  induction s as [|c s IH]; simpl; [reflexivity|].
  intros [Hc Hs]%andb_prop. specialize (IH Hs).
  destruct (is_word c); simpl; [|now rewrite Hc].
  destruct (tok s) as [|[?|?] ?]; simpl in *; auto.
Qed.

(** ** Deleting the matches of a pattern that matches whole words *)

Section WordPattern.
Variable m : option ascii -> str -> option nat.
Variable ok : ascii -> bool.

(** A match starts where a word starts. *)
Hypothesis m_start : forall prev s n,
  m prev s = Some n -> word_opt prev = false /\ word_opt (head s) = true.

(** At the start of a word the pattern sees that word only, as long as
    the separator after it is one of the [ok] ones. *)
Hypothesis m_word : forall prev w rest,
  word_opt prev = false -> w <> [] -> forallb is_word w = true ->
  match rest with [] => True | c :: _ => is_word c = false /\ ok c = true end ->
  m prev (w ++ rest) = m None w.

(** And it matches the whole word. *)
Hypothesis m_len : forall w n,
  forallb is_word w = true -> m None w = Some n -> n = length w.

Lemma sub_scan_skip w c rest :
  exists c', sub_scan m (Some c) (length w) (w ++ rest)
             = sub_scan m (Some c') 0 rest.
Proof.
  revert c. induction w as [|a w IH]; intros c; [now exists c|].
  cbn [length app sub_scan]. apply IH.
Qed.

Lemma sub_scan_in_word w c rest :
  is_word c = true -> forallb is_word w = true ->
  exists c', sub_scan m (Some c) 0 (w ++ rest)
             = w ++ sub_scan m (Some c') 0 rest.
Proof.
  revert c. induction w as [|a w IH]; intros c Hc Hw; [now exists c|].
  simpl in Hw. apply andb_prop in Hw as [Ha Hw].
  cbn [app sub_scan].
  destruct (m (Some c) (a :: w ++ rest)) as [n|] eqn:E.
  { apply m_start in E as [E _]. simpl in E. congruence. }
  destruct (IH a Ha Hw) as [c' ->]. now exists c'.
Qed.

Lemma sub_scan_untok ts prev :
  wf ts -> forallb (sep_ok ok) ts = true ->
  word_opt prev = false \/ starts_with_word ts = false ->
  sub_scan m prev 0 (untok ts) = untok (List.filter (keep m) ts).
Proof.
  revert prev. induction ts as [|[w|c] r IH]; intros prev Hwf Hok Hprev;
    [reflexivity| |].
  - destruct Hwf as (Hne & Hw & Hr & Hwf).
    destruct Hprev as [Hprev|Hprev]; [|discriminate].
    simpl in Hok.
    assert (Hm : m prev (w ++ untok r) = m None w).
    { apply m_word; auto.
      destruct r as [|[?|d] ?]; simpl in *; [exact I|discriminate|].
      apply andb_prop in Hok as [Hd _]. tauto. }
    change (untok (W w :: r)) with (w ++ untok r).
    destruct w as [|c w]; [congruence|].
    cbn [app sub_scan List.filter keep]. cbn [app] in Hm. rewrite Hm.
    destruct (m None (c :: w)) as [n|] eqn:E.
    + apply m_len in E; [|assumption]. subst n. cbn [length].
      destruct (sub_scan_skip w c (untok r)) as [c' ->]. apply IH; auto.
    + simpl in Hw. apply andb_prop in Hw as [Hc Hw].
      destruct (sub_scan_in_word w c (untok r) Hc Hw) as [c' ->].
      rewrite IH by auto. reflexivity.
  - destruct Hwf as [Hc Hwf]. simpl in Hok. apply andb_prop in Hok as [_ Hok].
    cbn [untok flat_map untok_one app sub_scan List.filter keep].
    destruct (m prev (c :: flat_map untok_one r)) as [n|] eqn:E.
    { apply m_start in E as [_ E]. simpl in E. congruence. }
    fold (untok r). rewrite IH; auto.
Qed.

(** Deleting the matches deletes the words that match. *)
Lemma re_sub_delete_tok s :
  forallb ok s = true ->
  re_sub_delete m s = untok (List.filter (keep m) (tok s)).
Proof.
  intros Hs. unfold re_sub_delete.
  rewrite <- (untok_tok s) at 1.
  apply sub_scan_untok; auto using wf_tok, sep_ok_tok.
Qed.

Lemma tok_re_sub_delete s :
  forallb ok s = true ->
  tok (re_sub_delete m s) = List.filter (keep m) (tok s).
Proof.
  intros Hs. rewrite re_sub_delete_tok by assumption.
  apply tok_untok, wf_filter; [reflexivity | apply wf_tok].
Qed.

(** A string none of whose words match is left as it is. *)
Lemma re_sub_delete_fixed s :
  forallb ok s = true -> forallb (keep m) (tok s) = true ->
  re_sub_delete m s = s.
Proof.
  intros Hs Hk. rewrite re_sub_delete_tok by assumption.
  rewrite <- (untok_tok s) at 2. f_equal.
  apply forallb_filter_id. exact Hk.
Qed.
End WordPattern.

(** ** Alternatives of literal words between two [\b] *)

Lemma first_some_ext {A B} (f g : A -> option B) l :
  (forall x, In x l -> f x = g x) -> first_some f l = first_some g l.
Proof.
  induction l as [|x l IH]; simpl; [reflexivity|].
  intros H. rewrite (H x) by auto. destruct (g x); [reflexivity|].
  apply IH. auto.
Qed.

Lemma seq_exact_length pat w : seq_exact pat w = true -> length pat = length w.
Proof.
  revert w. induction pat as [|p pat IH]; intros [|c w]; simpl;
    try discriminate; [reflexivity|].
  intros [_ H]%andb_prop. f_equal. auto.
Qed.

Section Alternatives.
Variable ok : ascii -> bool.
Variable rest : str.
Hypothesis rest_sep :
  match rest with [] => True | c :: _ => is_word c = false /\ ok c = true end.

Lemma seq_at_in_word pat w prev :
  Forall word_cls pat -> forallb is_word w = true -> word_opt prev = true ->
  seq_at pat prev (w ++ rest) = seq_exact pat w.
Proof.
  intros Hpat. revert w prev.
  induction Hpat as [|p pat Hp Hpat IH]; intros w prev Hw Hprev.
  - destruct w as [|c w]; simpl in *.
    + unfold boundary. rewrite Hprev.
      destruct rest as [|d ?]; simpl; [reflexivity|].
      destruct rest_sep as [-> _]. reflexivity.
    + apply andb_prop in Hw as [Hc _].
      unfold boundary. simpl. rewrite Hprev, Hc. reflexivity.
  - destruct w as [|c w]; simpl in *.
    + destruct rest as [|d ?]; [reflexivity|].
      destruct rest_sep as [Hd _].
      destruct (p d) eqn:E; [|reflexivity].
      apply Hp in E. congruence.
    + apply andb_prop in Hw as [Hc Hw].
      destruct (p c); [|reflexivity]. simpl. apply IH; auto.
Qed.

Lemma seq_at_word_seq pat w prev :
  word_seq pat -> forallb is_word w = true ->
  seq_at pat prev (w ++ rest) = seq_exact pat w.
Proof.
  intros [Hne Hpat] Hw.
  destruct Hpat as [|p pat Hp Hpat]; [congruence|].
  destruct w as [|c w]; simpl in *.
  - destruct rest as [|d ?]; [reflexivity|].
    destruct rest_sep as [Hd _].
    destruct (p d) eqn:E; [|reflexivity].
    apply Hp in E. congruence.
  - apply andb_prop in Hw as [Hc Hw].
    destruct (p c); [|reflexivity]. simpl.
    apply seq_at_in_word; auto.
Qed.

Lemma seq_at_dead_seq pat w prev :
  dead_seq ok pat -> w <> [] -> forallb is_word w = true ->
  seq_at pat prev (w ++ rest) = false.
Proof.
  intros (p & q & tl & -> & Hp & Hq) Hne Hw.
  destruct w as [|c [|c2 w]]; [congruence| |]; simpl in *.
  - destruct rest as [|d ?]; [apply andb_false_r|].
    destruct rest_sep as [_ Hd].
    destruct (q d) eqn:E; [|apply andb_false_r].
    apply Hq in E as [_ E]. congruence.
  - apply andb_prop in Hw as [_ [Hc2 _]%andb_prop].
    destruct (q c2) eqn:E; [|apply andb_false_r].
    apply Hq in E as [E _]. congruence.
Qed.
End Alternatives.

Section BoundedAlternatives.
Variable ok : ascii -> bool.
Variable alts : list (list cls).
Hypothesis alts_kind : Forall (fun pat => word_seq pat \/ dead_seq ok pat) alts.

Lemma alt_in_kind pat : In pat alts -> word_seq pat \/ dead_seq ok pat.
Proof. intros H. rewrite Forall_forall in alts_kind. now apply alts_kind, list_elem_of_In. Qed.

Lemma bounded_at_start prev s n :
  bounded_at alts prev s = Some n ->
  word_opt prev = false /\ word_opt (head s) = true.
Proof.
  unfold bounded_at. destruct (boundary prev (head s)) eqn:Hb; [|discriminate].
  intros [pat [Hin H]]%first_some_In.
  destruct (seq_at pat prev s) eqn:E; [|discriminate].
  assert (Hhead : word_opt (head s) = true).
  { destruct (alt_in_kind pat Hin) as [[Hne Hpat]|(p & q & tl & -> & Hp & _)].
    - destruct Hpat as [|p pat Hp _]; [congruence|].
      destruct s as [|c s]; simpl in *; [discriminate|].
      apply andb_prop in E as [E _]. auto.
    - destruct s as [|c s]; simpl in *; [discriminate|].
      apply andb_prop in E as [E _]. auto. }
  split; [|assumption].
  unfold boundary in Hb. rewrite Hhead in Hb.
  destruct (word_opt prev); [discriminate|reflexivity].
Qed.

Lemma bounded_at_word prev w rest :
  word_opt prev = false -> w <> [] -> forallb is_word w = true ->
  match rest with [] => True | c :: _ => is_word c = false /\ ok c = true end ->
  bounded_at alts prev (w ++ rest) = bounded_at alts None w.
Proof.
  intros Hprev Hne Hw Hrest. unfold bounded_at.
  destruct w as [|c w]; [congruence|].
  unfold boundary. cbn [app head word_opt]. rewrite Hprev.
  destruct (xorb false (is_word c)); [|reflexivity].
  apply first_some_ext. intros pat Hin.
  assert (E : forall prev', seq_at pat prev' ((c :: w) ++ rest)
                            = seq_at pat None ((c :: w) ++ [])).
  { intros prev'. destruct (alt_in_kind pat Hin) as [Hk|Hk].
    - rewrite !(seq_at_word_seq ok) by (simpl; auto). reflexivity.
    - rewrite !(seq_at_dead_seq ok) by (simpl; auto). reflexivity. }
  specialize (E prev). rewrite app_nil_r in E. cbn [app] in E.
  rewrite E. reflexivity.
Qed.

Lemma bounded_at_len w n :
  forallb is_word w = true -> bounded_at alts None w = Some n -> n = length w.
Proof.
  intros Hw. unfold bounded_at.
  destruct (boundary None (head w)) eqn:Hb; [|discriminate].
  assert (Hne : w <> []) by (intros ->; discriminate).
  intros [pat [Hin H]]%first_some_In.
  rewrite <- (app_nil_r w) in H.
  destruct (alt_in_kind pat Hin) as [Hk|Hk].
  - rewrite (seq_at_word_seq ok) in H by (simpl; auto).
    destruct (seq_exact pat w) eqn:E; [|discriminate].
    injection H as <-. now apply seq_exact_length.
  - rewrite (seq_at_dead_seq ok) in H by (simpl; auto). discriminate.
Qed.

Lemma tok_sub_bounded s :
  forallb ok s = true ->
  tok (re_sub_delete (bounded_at alts) s)
  = List.filter (keep (bounded_at alts)) (tok s).
Proof.
  apply (tok_re_sub_delete _ ok);
    [apply bounded_at_start | apply bounded_at_word | apply bounded_at_len].
Qed.

Lemma sub_bounded_fixed s :
  forallb ok s = true -> forallb (keep (bounded_at alts)) (tok s) = true ->
  re_sub_delete (bounded_at alts) s = s.
Proof.
  apply (re_sub_delete_fixed _ ok);
    [apply bounded_at_start | apply bounded_at_word | apply bounded_at_len].
Qed.
End BoundedAlternatives.

Lemma lower_chr_word c : is_word (lower_chr c) = is_word c.
Proof. by_char c. Qed.

Lemma word_cls_lit p : is_word p = true -> word_cls (lit p).
Proof. intros Hp c Hc. apply chr_eqb_eq in Hc. congruence. Qed.

Lemma word_cls_ilit p : is_word p = true -> word_cls (ilit p).
Proof.
  intros Hp c Hc. apply chr_eqb_eq in Hc.
  rewrite <- lower_chr_word, Hc, lower_chr_word. exact Hp.
Qed.

Lemma word_cls_digit : word_cls is_digit.
Proof. intros c. by_char c. Qed.

Lemma ilit_dot c : ilit "." c = true -> is_word c = false /\ plain c = false.
Proof. by_char c; split; reflexivity. Qed.

Lemma year_pattern_kind :
  Forall (fun pat => word_seq pat \/ dead_seq (fun _ => true) pat) year_pattern.
Proof.
  unfold year_pattern.
  repeat (apply List.Forall_cons;
    [ left; split; [discriminate|];
      repeat (apply List.Forall_cons;
        [first [apply word_cls_digit | apply word_cls_lit; reflexivity]|]);
      apply List.Forall_nil
    | ]).
  apply List.Forall_nil.
Qed.

Lemma quality_pattern_kind :
  Forall (fun pat => word_seq pat \/ dead_seq plain pat) quality_pattern.
Proof.
  unfold quality_pattern. cbn [map txt list_ascii_of_string].
  repeat (apply List.Forall_cons;
    [ first
        [ left; split; [discriminate|];
          repeat (apply List.Forall_cons; [apply word_cls_ilit; reflexivity|]);
          apply List.Forall_nil
        | right; eexists _, _, _; split; [reflexivity|];
          split; [apply word_cls_ilit; reflexivity | apply ilit_dot] ]
    | ]).
  apply List.Forall_nil.
Qed.

(** ** White space *)

Lemma forallb_rev {A} (f : A -> bool) l : forallb f (rev l) = forallb f l.
Proof.
  induction l as [|x l IH]; simpl; [reflexivity|].
  rewrite forallb_app, IH. simpl. rewrite andb_true_r. apply andb_comm.
Qed.

Lemma lstrip_all_space s : forallb is_space s = true -> lstrip s = [].
Proof.
  intros H. rewrite <- (app_nil_r s). now rewrite lstrip_spaces.
Qed.

Lemma lstrip_app a b :
  lstrip (a ++ b) = if forallb is_space a then lstrip b else lstrip a ++ b.
Proof.
  induction a as [|c a IH]; simpl; [reflexivity|].
  destruct (is_space c); simpl; [exact IH|reflexivity].
Qed.

Lemma rstrip_cons c s :
  rstrip (c :: s) = if forallb is_space s && is_space c then [] else c :: rstrip s.
Proof.
  unfold rstrip. simpl rev. rewrite lstrip_app, forallb_rev.
  destruct (forallb is_space s) eqn:Hs; simpl.
  - rewrite lstrip_all_space by now rewrite forallb_rev.
    destruct (is_space c); reflexivity.
  - rewrite rev_app_distr. reflexivity.
Qed.

Lemma rstrip_split s :
  exists ws, s = rstrip s ++ ws /\ forallb is_space ws = true.
Proof.
  destruct (lstrip_split (rev s)) as [ws [E H]].
  exists (rev ws). rewrite forallb_rev. split; [|assumption].
  unfold rstrip. rewrite <- rev_app_distr, <- E. symmetry. apply rev_involutive.
Qed.

Lemma lstrip_head_not_space s c t : lstrip s = c :: t -> is_space c = false.
Proof.
  induction s as [|a s IH]; simpl; [discriminate|].
  destruct (is_space a) eqn:Ha; [exact IH|]. now intros [= <- <-].
Qed.

Lemma strip_strip s : strip (strip s) = strip s.
Proof.
  unfold strip at 1.
  assert (E : lstrip (strip s) = strip s).
  { unfold strip. destruct (lstrip s) as [|c t] eqn:El; [reflexivity|].
    apply lstrip_head_not_space in El. rewrite rstrip_cons, El, andb_false_r.
    simpl. now rewrite El. }
  rewrite E. unfold strip, rstrip. now rewrite rev_involutive, lstrip_idem.
Qed.

Lemma tidy_collapse b s : tidy b (collapse_spaces b s) = true.
Proof.
  revert b. induction s as [|c s IH]; intros b; simpl; [reflexivity|].
  destruct (is_space c) eqn:Hc.
  - destruct b; [apply IH|]. simpl. apply IH.
  - simpl. rewrite Hc. apply IH.
Qed.

Lemma collapse_tidy b s : tidy b s = true -> collapse_spaces b s = s.
Proof.
  revert b. induction s as [|c s IH]; intros b; simpl; [reflexivity|].
  destruct (is_space c).
  - intros [[Hb Hc]%andb_prop Hs]%andb_prop.
    apply negb_true_iff in Hb. apply chr_eqb_eq in Hc. subst.
    now rewrite IH.
  - intros Hs. now rewrite IH.
Qed.

Lemma tidy_lstrip b s : tidy b s = true -> tidy false (lstrip s) = true.
Proof.
  revert b. induction s as [|c s IH]; intros b; simpl; [reflexivity|].
  destruct (is_space c) eqn:Hc.
  - intros [_ Hs]%andb_prop. now apply (IH true).
  - intros Hs. simpl. now rewrite Hc.
Qed.

Lemma tidy_rstrip b s : tidy b s = true -> tidy b (rstrip s) = true.
Proof.
  revert b. induction s as [|c s IH]; intros b; [reflexivity|].
  rewrite rstrip_cons.
  destruct (forallb is_space s && is_space c); [reflexivity|].
  simpl. destruct (is_space c).
  - intros [H Hs]%andb_prop. rewrite H. simpl. now apply IH.
  - now apply IH.
Qed.

Lemma tidy_strip_collapse s : tidy false (strip (collapse_spaces false s)) = true.
Proof.
  unfold strip. apply tidy_rstrip. eapply tidy_lstrip. apply tidy_collapse.
Qed.

(** ** What the steps leave of the words *)

Lemma merge_collapse_tok b c ts :
  collapse_tok b (merge c ts) = merge c (collapse_tok false ts).
Proof.
  destruct ts as [|[w|d] r]; simpl; try reflexivity.
  destruct (is_space d); reflexivity.
Qed.

Lemma tok_collapse b s : tok (collapse_spaces b s) = collapse_tok b (tok s).
Proof.
  revert b. induction s as [|c s IH]; intros b; simpl; [reflexivity|].
  destruct (is_space c) eqn:Hc.
  - rewrite (space_not_word c Hc). simpl. rewrite Hc.
    destruct b; simpl; now rewrite IH.
  - simpl. destruct (is_word c) eqn:Hw.
    + rewrite merge_collapse_tok. now rewrite IH.
    + simpl. rewrite Hc. now rewrite IH.
Qed.

Lemma keep_collapse_tok m b ts :
  forallb (keep m) ts = true -> forallb (keep m) (collapse_tok b ts) = true.
Proof.
  revert b. induction ts as [|[w|c] r IH]; intros b; simpl; [reflexivity| |].
  - intros [-> Hr]%andb_prop. simpl. auto.
  - intros Hr. destruct (is_space c); [destruct b|]; simpl; auto.
Qed.

Lemma tok_spaces_app ws s :
  forallb is_space ws = true -> tok (ws ++ s) = map C ws ++ tok s.
Proof.
  induction ws as [|c ws IH]; simpl; [reflexivity|].
  intros [Hc Hws]%andb_prop. rewrite (space_not_word c Hc). now rewrite IH.
Qed.

Lemma tok_app_spaces s ws :
  forallb is_space ws = true -> tok (s ++ ws) = tok s ++ map C ws.
Proof.
  intros Hws. induction s as [|c s IH]; simpl.
  - rewrite <- (app_nil_r ws) at 1. rewrite tok_spaces_app by assumption.
    apply app_nil_r.
  - rewrite IH. destruct (is_word c); [|reflexivity].
    destruct (tok s) as [|[?|?] ?]; try reflexivity.
    destruct ws; reflexivity.
Qed.

Lemma keep_strip m s :
  forallb (keep m) (tok s) = true -> forallb (keep m) (tok (strip s)) = true.
Proof.
  intros H. unfold strip.
  destruct (lstrip_split s) as [ws [E Hws]].
  destruct (rstrip_split (lstrip s)) as [ws' [E' Hws']].
  rewrite E, tok_spaces_app, forallb_app in H by assumption.
  apply andb_prop in H as [_ H].
  rewrite E', tok_app_spaces, forallb_app in H by assumption.
  now apply andb_prop in H as [H _].
Qed.

Lemma forallb_filter_same {A} (p : A -> bool) l : forallb p (List.filter p l) = true.
Proof.
  induction l as [|x l IH]; simpl; [reflexivity|].
  destruct (p x) eqn:E; simpl; [rewrite E|]; exact IH.
Qed.

Lemma forallb_filter_other {A} (p q : A -> bool) l :
  forallb p l = true -> forallb p (List.filter q l) = true.
Proof.
  induction l as [|x l IH]; simpl; [reflexivity|].
  intros [Hx Hl]%andb_prop. destruct (q x); simpl; [rewrite Hx|]; auto.
Qed.

(** ** Characters the steps never bring back *)

Lemma forallb_sub_scan (P : ascii -> bool) m prev k s :
  forallb P s = true -> forallb P (sub_scan m prev k s) = true.
Proof.
  revert prev k. induction s as [|c s IH]; intros prev k; simpl; [reflexivity|].
  intros [Hc Hs]%andb_prop.
  destruct k; [|auto].
  destruct (m prev (c :: s)) as [[|n]|]; simpl; rewrite ?Hc; simpl; auto.
Qed.

Lemma forallb_collapse (P : ascii -> bool) b s :
  P " "%char = true -> forallb P s = true ->
  forallb P (collapse_spaces b s) = true.
Proof.
  intros Hsp. revert b. induction s as [|c s IH]; intros b; simpl; [reflexivity|].
  intros [Hc Hs]%andb_prop.
  destruct (is_space c); [destruct b|]; simpl; rewrite ?Hsp, ?Hc; simpl; auto.
Qed.

Lemma forallb_strip (P : ascii -> bool) s :
  forallb P s = true -> forallb P (strip s) = true.
Proof.
  intros H. unfold strip, rstrip.
  rewrite forallb_rev. apply lstrip_forallb. rewrite forallb_rev.
  now apply lstrip_forallb.
Qed.

Lemma plain_replace s :
  forallb plain (replace_chr "_" " " (replace_chr "." " " s)) = true.
Proof.
  induction s as [|c s IH]; simpl; [reflexivity|].
  rewrite IH, andb_true_r. by_char c.
Qed.

Lemma replace_plain s :
  forallb plain s = true ->
  replace_chr "_" " " (replace_chr "." " " s) = s.
Proof.
  induction s as [|c s IH]; simpl; [reflexivity|].
  intros [Hc Hs]%andb_prop. rewrite IH by assumption. f_equal.
  revert Hc. by_char c.
Qed.

Lemma rfind_from_absent c s i last :
  forallb (fun x => negb (chr_eqb x c)) s = true -> rfind_from c s i last = last.
Proof.
  revert i last. induction s as [|x s IH]; intros i last; simpl; [reflexivity|].
  intros [Hx Hs]%andb_prop. apply negb_true_iff in Hx. rewrite Hx. now apply IH.
Qed.

Lemma rfind_from_ge c s i last :
  (-1 <= last)%Z -> (0 <= i)%Z -> (-1 <= rfind_from c s i last)%Z.
Proof.
  revert i last. induction s as [|x s IH]; intros i last Hl Hi; simpl; [assumption|].
  apply IH; [destruct (chr_eqb x c)|]; lia.
Qed.

Lemma splitext_plain s : forallb plain s = true -> splitext s = (s, []).
Proof.
  intros H. unfold splitext, rfind.
  rewrite (rfind_from_absent "." s).
  - pose proof (rfind_from_ge "/" s 0 (-1) ltac:(lia) ltac:(lia)) as Hge.
    destruct (Z.ltb_spec (rfind_from "/" s 0 (-1)) (-1)); [lia|reflexivity].
  - clear -H. induction s as [|x s IH]; simpl in *; [reflexivity|].
    apply andb_prop in H as [Hx Hs]. rewrite IH, andb_true_r by assumption.
    revert Hx. by_char x.
Qed.

(** ** Cleaned titles *)

(** What [clean_filename] leaves: no dot and no underscore, no word that
    is a year or a quality tag, single blanks, none at either end. *)
Lemma clean_filename_fixed r :
  forallb plain r = true ->
  forallb (keep (bounded_at year_pattern)) (tok r) = true ->
  forallb (keep (bounded_at quality_pattern)) (tok r) = true ->
  tidy false r = true ->
  strip r = r ->
  clean_filename r = r.
Proof.
  intros Hp Hy Hq Ht Hs. unfold clean_filename.
  rewrite splitext_plain by assumption. cbn [fst].
  rewrite replace_plain by assumption.
  rewrite (sub_bounded_fixed (fun _ => true) _ year_pattern_kind r);
    [|now apply forallb_forall|assumption].
  rewrite (sub_bounded_fixed plain _ quality_pattern_kind r) by assumption.
  rewrite collapse_tidy by assumption. exact Hs.
Qed.

Lemma clean_filename_normal filename :
  let r := clean_filename filename in
  forallb plain r = true
  /\ forallb (keep (bounded_at year_pattern)) (tok r) = true
  /\ forallb (keep (bounded_at quality_pattern)) (tok r) = true
  /\ tidy false r = true
  /\ strip r = r.
Proof.
  unfold clean_filename.
  set (s1 := replace_chr "_" " " (replace_chr "." " " (fst (splitext filename)))).
  set (s2 := re_sub_delete (bounded_at year_pattern) s1).
  set (s3 := re_sub_delete (bounded_at quality_pattern) s2).
  assert (P1 : forallb plain s1 = true) by apply plain_replace.
  assert (P2 : forallb plain s2 = true) by now apply forallb_sub_scan.
  assert (P3 : forallb plain s3 = true) by now apply forallb_sub_scan.
  assert (T2 : tok s2 = List.filter (keep (bounded_at year_pattern)) (tok s1)).
  { apply (tok_sub_bounded (fun _ => true) _ year_pattern_kind).
    now apply forallb_forall. }
  assert (T3 : tok s3 = List.filter (keep (bounded_at quality_pattern)) (tok s2)).
  { now apply (tok_sub_bounded plain _ quality_pattern_kind). }
  cbn zeta. repeat split.
  - apply forallb_strip, forallb_collapse; [reflexivity|assumption].
  - apply keep_strip. rewrite tok_collapse. apply keep_collapse_tok.
    rewrite T3. apply forallb_filter_other. rewrite T2.
    apply forallb_filter_same.
  - apply keep_strip. rewrite tok_collapse. apply keep_collapse_tok.
    rewrite T3. apply forallb_filter_same.
  - apply tidy_strip_collapse.
  - apply strip_strip.
Qed.

(** C8.  [clean_filename] is idempotent: cleaning a cleaned title gives
    the same string as cleaning once. *)
Theorem clean_filename_idempotent (filename : str) :
  clean_filename (clean_filename filename) = clean_filename filename.
Proof.
  destruct (clean_filename_normal filename) as (Hp & Hy & Hq & Ht & Hs).
  now apply clean_filename_fixed.
Qed.

(** ** Season grouper *)

Lemma str_eqb_eq a b : str_eqb a b = true <-> a = b.
Proof.
  revert b. induction a as [|x a IH]; intros [|y b]; simpl; split;
    try discriminate; try reflexivity.
  - intros [Hx Hab]%andb_prop. apply chr_eqb_eq in Hx. apply IH in Hab.
    congruence.
  - intros [= -> ->]. apply andb_true_intro. split; [now apply chr_eqb_eq|].
    now apply IH.
Qed.

Lemma str_eqb_refl a : str_eqb a a = true.
Proof. now apply str_eqb_eq. Qed.

Lemma str_eqb_neq a b : str_eqb a b = false <-> a <> b.
Proof.
  split.
  - intros H E. apply str_eqb_eq in E. congruence.
  - intros H. destruct (str_eqb a b) eqn:E; [|reflexivity].
    apply str_eqb_eq in E. contradiction.
Qed.

Lemma insert_by_In {A} (key : A -> nat) x y l :
  In x (insert_by key y l) <-> x = y \/ In x l.
Proof.
  induction l as [|z l IH]; simpl; [intuition congruence|].
  destruct (key y <=? key z); simpl; rewrite ?IH; intuition congruence.
Qed.

Lemma sort_by_In {A} (key : A -> nat) x l : In x (sort_by key l) <-> In x l.
Proof.
  induction l as [|y l IH]; simpl; [reflexivity|].
  rewrite insert_by_In, IH. intuition congruence.
Qed.

Lemma sort_by_not_nil {A} (key : A -> nat) l : l <> [] -> sort_by key l <> [].
Proof.
  destruct l as [|y l]; [congruence|]. intros _ E.
  assert (H : In y (sort_by key (y :: l))) by (apply sort_by_In; now left).
  rewrite E in H. destruct H.
Qed.

Lemma insert_by_sorted {A} (key : A -> nat) x l :
  Sorted (fun a b => key a <= key b) l ->
  Sorted (fun a b => key a <= key b) (insert_by key x l).
Proof.
  induction l as [|y l IH]; simpl; intros Hs.
  - repeat constructor.
  - destruct (Nat.leb_spec (key x) (key y)).
    + constructor; [assumption|]. now constructor.
    + inversion Hs as [|? ? Hs' Hhd]; subst.
      constructor; [now apply IH|].
      destruct l as [|z l]; simpl.
      * constructor. lia.
      * destruct (key x <=? key z); constructor; [lia|].
        now inversion Hhd.
Qed.

(** Every group comes out in the order of its sort keys. *)
Lemma sort_by_sorted {A} (key : A -> nat) l :
  Sorted (fun a b => key a <= key b) (sort_by key l).
Proof.
  induction l as [|x l IH]; simpl; [constructor|].
  now apply insert_by_sorted.
Qed.

(** Where all keys are equal the sort changes nothing. *)
Lemma sort_by_same_key {A} (key : A -> nat) k l :
  (forall x, In x l -> key x = k) -> sort_by key l = l.
Proof.
  induction l as [|x l IH]; intros H; simpl; [reflexivity|].
  rewrite IH by (intros; apply H; now right).
  destruct l as [|y l]; [reflexivity|]. simpl.
  rewrite (H x), (H y) by (simpl; auto). now rewrite Nat.leb_refl.
Qed.

Lemma dict_append_In {V} k0 (e : V) d k eps :
  In (k, eps) (dict_append k0 e d) ->
  In (k, eps) d \/ (k = k0 /\ exists eps0, In (k, eps0) d /\ eps = eps0 ++ [e]).
Proof.
  induction d as [|[k' v] d IH]; simpl; [tauto|].
  destruct (str_eqb k' k0) eqn:E; simpl.
  - apply str_eqb_eq in E. subst k'.
    intros [[= <- <-]|H]; [|tauto]. right. split; [reflexivity|].
    exists v. auto.
  - intros [H|H]; [tauto|].
    destruct (IH H) as [H'|[-> (eps0 & H' & ->)]]; [tauto|].
    right. split; [reflexivity|]. exists eps0. auto.
Qed.

Lemma dict_append_fresh {V} k (e : V) d :
  dict_mem k d = false -> dict_append k e (d ++ [(k, [])]) = d ++ [(k, [e])].
Proof.
  induction d as [|[k' v] d IH]; simpl.
  - intros _. now rewrite (proj2 (str_eqb_eq k k) eq_refl).
  - intros [-> H]%orb_false_elim. now rewrite IH.
Qed.

(** The parse inside the loop is [parse_filename]. *)
Lemma group_entry_video folder exts seasons entry_name :
  endswith_any (lower entry_name) exts = true ->
  group_entry folder exts seasons (entry_name, File)
  = let '(season_num, _, title) := parse_filename entry_name in
    let season_name := txt "Season " ++ str_of_nat season_num in
    dict_append season_name (Episode.init title (join folder entry_name))
      (if dict_mem season_name seasons then seasons
       else seasons ++ [(season_name, [])]).
Proof.
  intros H. unfold group_entry, parse_filename. simpl. rewrite H.
  destruct (match_episode_name (fst (splitext entry_name))) as [[[g1 g2] g3]|];
    reflexivity.
Qed.

Lemma group_entry_other folder exts seasons entry_name nd :
  is_file nd && endswith_any (lower entry_name) exts = false ->
  group_entry folder exts seasons (entry_name, nd) = seasons.
Proof. intros H. unfold group_entry. now rewrite H. Qed.

Section Grouping.
Variables (folder : str) (exts : list str) (entries : list (str * node)).

Lemma grouped_step d entry :
  In entry entries -> grouped folder entries d ->
  grouped folder entries (group_entry folder exts d entry).
Proof.
  intros Hin Hd. destruct entry as [entry_name nd].
  destruct (is_file nd && endswith_any (lower entry_name) exts) eqn:E;
    [|now rewrite group_entry_other].
  apply andb_prop in E as [Hf He]. destruct nd; try discriminate.
  rewrite group_entry_video by assumption.
  destruct (parse_filename entry_name) as [[season_num episode_num] title0] eqn:Ep.
  cbn zeta.
  set (k0 := txt "Season " ++ str_of_nat season_num).
  set (e0 := Episode.init title0 (join folder entry_name)).
  assert (H0 : from_file folder entries k0 e0).
  { exists entry_name. rewrite Ep. repeat split; auto. }
  destruct (dict_mem k0 d) eqn:Hm.
  - intros k eps [H|[-> (eps0 & H & ->)]]%dict_append_In; [now apply Hd|].
    split; [now destruct eps0|].
    intros e [He0|[<-|[]]]%in_app_or; [|assumption].
    now apply (Hd _ _ H).
  - rewrite dict_append_fresh by assumption.
    intros k eps [H|[[= <- <-]|[]]]%in_app_or; [now apply Hd|].
    split; [discriminate|]. intros e [<-|[]]. assumption.
Qed.

Lemma grouped_fold es d :
  (forall entry, In entry es -> In entry entries) -> grouped folder entries d ->
  grouped folder entries (fold_left (group_entry folder exts) es d).
Proof.
  revert d. induction es as [|entry es IH]; intros d Hes Hd; simpl; [assumption|].
  apply IH; [intros; apply Hes; now right|].
  apply grouped_step; [apply Hes; now left|assumption].
Qed.
End Grouping.

(** C10.  In every mapping [parse_series_folder] returns, each group is
    non-empty and its key is ["Season N"] with [N] the season that the
    primary parse gives for the file of every episode in the group. *)
Theorem parse_series_folder_groups fs folder_path video_exts seasons :
  parse_series_folder fs folder_path video_exts = Ok seasons ->
  forall season_name eps, In (season_name, eps) seasons ->
    eps <> []
    /\ forall e, In e eps ->
         exists entries entry_name,
           fs folder_path = Some (Dir entries)
           /\ In (entry_name, File) entries
           /\ Episode.path e = join folder_path entry_name
           /\ season_name
              = txt "Season " ++ str_of_nat (fst (fst (parse_filename entry_name))).
Proof.
  unfold parse_series_folder, exists_path, scandir.
  destruct (fs folder_path) as [[|entries|]|] eqn:Efs; simpl;
    try discriminate.
  - intros [= <-] k eps Hin.
    apply in_map_iff in Hin as [[k' eps'] [[= <- <-] Hin]].
    apply (grouped_fold folder_path video_exts entries) in Hin as [Hne Hall];
      [| auto | intros ? ? []].
    split; [now apply sort_by_not_nil|].
    intros e He%sort_by_In.
    destruct (Hall e He) as (entry_name & H1 & H2 & _ & H4).
    exists entries, entry_name. auto.
  - intros [= <-] k eps [].
Qed.

Lemma parse_series_folder_groups_witness :
  [Episode.init (txt "Beta") (txt "/tv/Show/S01E02 - Beta.mkv");
   Episode.init (txt "Alpha") (txt "/tv/Show/S01E01 - Alpha.mkv")] <> []
  /\ forall e,
       In e [Episode.init (txt "Beta") (txt "/tv/Show/S01E02 - Beta.mkv");
             Episode.init (txt "Alpha") (txt "/tv/Show/S01E01 - Alpha.mkv")] ->
       exists entries entry_name,
         show_folder (txt "/tv/Show") = Some (Dir entries)
         /\ In (entry_name, File) entries
         /\ Episode.path e = join (txt "/tv/Show") entry_name
         /\ txt "Season 1"
            = txt "Season " ++ str_of_nat (fst (fst (parse_filename entry_name))).
Proof.
  refine (parse_series_folder_groups show_folder (txt "/tv/Show")
            video_exts_default _ _ (txt "Season 1") _ _).
  - reflexivity.
  - left. reflexivity.
Defined.

(** C9.  For a path that does not exist [parse_series_folder] returns
    the empty mapping; it does not raise. *)
Theorem parse_series_folder_missing fs folder_path video_exts :
  fs folder_path = None ->
  parse_series_folder fs folder_path video_exts = Ok [].
Proof.
  intros H. unfold parse_series_folder, exists_path. now rewrite H.
Qed.

Lemma parse_series_folder_missing_witness :
  parse_series_folder show_folder (txt "/tv/Gone") video_exts_default = Ok [].
Proof.
  apply (parse_series_folder_missing show_folder (txt "/tv/Gone")).
  reflexivity.
Defined.

(** C2, on the code.  The sort key is taken from the episode's title,
    not from its file name: both titles give key 0, the stable sort
    leaves the scan order, and Beta (episode 2) stays before Alpha
    (episode 1). *)
Theorem parse_series_folder_keeps_scan_order :
  parse_series_folder show_folder (txt "/tv/Show") video_exts_default
  = Ok [ (txt "Season 1",
          [ Episode.init (txt "Beta") (txt "/tv/Show/S01E02 - Beta.mkv");
            Episode.init (txt "Alpha") (txt "/tv/Show/S01E01 - Alpha.mkv") ]) ]
  /\ parse_episode_number (txt "Beta") = 0
  /\ parse_episode_number (txt "Alpha") = 0
  /\ parse_episode_number (txt "S01E02 - Beta.mkv") = 2
  /\ parse_episode_number (txt "S01E01 - Alpha.mkv") = 1.
Proof. repeat split; reflexivity. Qed.

(** C6, on the code.  A [.webm] file is a video for the library scan
    only: its folder is listed as a series, the season grouper finds no
    episode in it and the flat listing passes it over.  A [.mov] file is
    a video for the scan and the flat listing, not for the grouper. *)
Theorem webm_recognized_by_scan_only :
  LibraryWindow.refresh_list media_library [txt "/web"]
    = Ok [SeriesItem (txt "/web/Clips")]
  /\ parse_series_folder media_library (txt "/web/Clips") video_exts_default = Ok []
  /\ list_videos_in_dirs media_library [txt "/web"] true = Ok []
  /\ list_videos_in_dirs media_library [txt "/web/Clips"] false = Ok []
  /\ endswith_any (lower (txt "Trailer.MOV")) VIDEO_EXTS = true
  /\ has_video_ext (txt "Trailer.MOV") = true
  /\ endswith_any (lower (txt "Trailer.MOV")) video_exts_default = false.
Proof. repeat split; reflexivity. Qed.

(** ** Library scan *)

Lemma startswith_iff s p : startswith s p = true <-> exists b, s = p ++ b.
Proof.
  revert s. induction p as [|x p IH]; intros s; simpl.
  - split; [intros _; now exists s|intros _; destruct s; reflexivity].
  - destruct s as [|y s]; [split; [discriminate|intros [b [=]]]|].
    split.
    + intros [Hx [b ->]%IH]%andb_prop. apply chr_eqb_eq in Hx. subst.
      now exists b.
    + intros [b [= -> ->]]. apply andb_true_intro.
      split; [now apply chr_eqb_eq|]. apply IH. now exists b.
Qed.

Lemma endswith_iff s p : endswith s p = true <-> exists a, s = a ++ p.
Proof.
  unfold endswith. rewrite startswith_iff. split.
  - intros [b H]. exists (rev b).
    rewrite <- (rev_involutive s), H, rev_app_distr, rev_involutive. reflexivity.
  - intros [a ->]. exists (rev a). apply rev_app_distr.
Qed.

Lemma recognized_iff name : recognized name = true <-> has_ext_in VIDEO_EXTS name.
Proof.
  unfold recognized, has_ext_in. rewrite existsb_exists. split.
  - intros (ext & Hin & [a Ha]%endswith_iff).
    exists (firstn (length a) name), (skipn (length a) name).
    split; [symmetry; apply firstn_skipn|].
    unfold lower in *. rewrite <- skipn_map, Ha, skipn_app, skipn_all, Nat.sub_diag.
    exact Hin.
  - intros (stem & ext & -> & Hin). exists (lower ext). split; [assumption|].
    apply endswith_iff. exists (lower stem). unfold lower. apply map_app.
Qed.

Lemma scan_entry_classify folder items entry :
  LibraryWindow.scan_entry folder items entry = items ++ classify folder entry.
Proof.
  destruct entry as [name nd].
  unfold LibraryWindow.scan_entry, classify.
  change (endswith_any (lower name) VIDEO_EXTS) with (recognized name).
  destruct nd as [|children|]; cbn [is_file andb].
  - destruct (recognized name); [reflexivity|now rewrite app_nil_r].
  - change (fun f : str * node =>
              is_file (snd f) && endswith_any (lower (fst f)) VIDEO_EXTS)
      with (fun f : str * node => is_file (snd f) && recognized (fst f)).
    destruct (existsb _ children); [reflexivity|now rewrite app_nil_r].
  - now rewrite app_nil_r.
Qed.

Lemma scan_entries_classify folder entries items :
  fold_left (LibraryWindow.scan_entry folder) entries items
  = items ++ flat_map (classify folder) entries.
Proof.
  revert items. induction entries as [|e es IH]; intros items; simpl.
  - now rewrite app_nil_r.
  - rewrite IH, scan_entry_classify, app_assoc. reflexivity.
Qed.

Lemma refresh_list_from fs folders items :
  (forall folder, In folder folders ->
     fs folder = None \/ exists entries, fs folder = Some (Dir entries)) ->
  fold_left (fun acc folder =>
      bind acc (fun items =>
        if negb (exists_path fs folder) then Ok items
        else bind (scandir fs folder) (fun entries =>
               Ok (fold_left (LibraryWindow.scan_entry folder) entries items))))
    folders (Ok items)
  = Ok (items ++ scan_spec fs folders).
Proof.
  revert items. induction folders as [|folder folders IH]; intros items H; simpl.
  - now rewrite app_nil_r.
  - unfold exists_path, scandir.
    destruct (H folder (or_introl eq_refl)) as [E|[entries E]]; rewrite E; simpl.
    + apply IH. intros; apply H; now right.
    + rewrite scan_entries_classify, IH by (intros; apply H; now right).
      now rewrite app_assoc.
Qed.

Lemma classify_video folder entry p :
  In (VideoItem p) (classify folder entry) <->
  exists name, entry = (name, File) /\ has_ext_in VIDEO_EXTS name
               /\ p = join folder name.
Proof.
  destruct entry as [name [|children|]]; simpl.
  - destruct (recognized name) eqn:E; simpl.
    + split.
      * intros [[= <-]|[]]. exists name. rewrite <- recognized_iff. auto.
      * intros (n & [= <-] & _ & ->). now left.
    + split; [intros []|].
      intros (n & [= <-] & Hn%recognized_iff & _). congruence.
  - split; [|intros (n & [=] & _)].
    match goal with |- In _ (if ?b then _ else _) -> _ => destruct b end;
      simpl; intros [[=]|[]] || intros [].
  - split; [intros []|intros (n & [=] & _)].
Qed.




(** ** Paths into a cache directory *)

Lemma join_relative a c b :
  a <> [] -> last a <> Some "/"%char -> chr_eqb c "/" = false ->
  join a (c :: b) = a ++ "/"%char :: c :: b.
Proof.
  intros Hne Hl Hc.
  assert (Hc' : chr_eqb "/" c = false)
    by (unfold chr_eqb in *; now rewrite Ascii.eqb_sym).
  unfold join. cbn [startswith txt list_ascii_of_string].
  rewrite Hc'. cbn [andb].
  destruct (rev a) as [|x r] eqn:E.
  - apply (f_equal (@rev ascii)) in E. rewrite rev_involutive in E.
    simpl in E. congruence.
  - destruct (chr_eqb x "/") eqn:Ex; [|reflexivity].
    apply chr_eqb_eq in Ex. subst x. exfalso. apply Hl.
    apply (f_equal (@rev ascii)) in E. rewrite rev_involutive in E.
    rewrite E. simpl. now rewrite last_snoc.
Qed.

Lemma split_on_no_sep s : no_sep s = true -> split_on "/" s = [s].
Proof.
  induction s as [|c s IH]; [reflexivity|]. unfold no_sep. cbn [forallb split_on].
  intros [Hc Hs]%andb_prop. apply negb_true_iff in Hc. rewrite Hc.
  now rewrite (IH Hs).
Qed.

Lemma no_sep_app a b : no_sep (a ++ b) = no_sep a && no_sep b.
Proof. apply forallb_app. Qed.

Lemma remove_prefix_app p s : remove_prefix p (p ++ s) = Some s.
Proof.
  induction p as [|a p IH]; [reflexivity|]. cbn [remove_prefix app].
  unfold chr_eqb. now rewrite Ascii.eqb_refl.
Qed.

(** A cache file's path for a key without a separator. *)
Lemma join_no_sep dir k ext :
  dir <> [] -> last dir <> Some "/"%char -> ext <> [] ->
  no_sep k = true -> no_sep ext = true ->
  join dir (k ++ ext) = dir ++ txt "/" ++ k ++ ext.
Proof.
  intros Hd Hl He Hk Hx.
  assert (Hs : no_sep (k ++ ext) = true) by (rewrite no_sep_app, Hk, Hx; reflexivity).
  destruct (k ++ ext) as [|c b] eqn:E.
  - apply app_eq_nil in E as [_ E]. congruence.
  - unfold no_sep in Hs. cbn [forallb] in Hs. apply andb_prop in Hs as [Hc _].
    apply negb_true_iff in Hc. now apply join_relative.
Qed.

Lemma descend_name {A} (dir : str) (files : gmap str A) name :
  no_sep name = true -> 3 <= length name ->
  descend dir files (split_on "/" name) = Ok (dir ++ txt "/" ++ name).
Proof.
  intros Hs Hl. rewrite (split_on_no_sep name Hs). cbn [descend].
  assert (E1 : str_eqb name [] = false).
  { apply str_eqb_neq. intros ->. simpl in Hl. lia. }
  assert (E2 : str_eqb name (txt ".") = false).
  { apply str_eqb_neq. intros ->. simpl in Hl. lia. }
  assert (E3 : str_eqb name (txt "..") = false).
  { apply str_eqb_neq. intros ->. simpl in Hl. lia. }
  now rewrite E1, E2, E3.
Qed.

Lemma resolve_name {A} (dir : str) (files : gmap str A) name :
  no_sep name = true -> 3 <= length name ->
  resolve dir files (dir ++ txt "/" ++ name) = Ok (dir ++ txt "/" ++ name).
Proof.
  intros Hs Hl. unfold resolve.
  rewrite (app_assoc dir), remove_prefix_app, <- app_assoc. now apply descend_name.
Qed.

Lemma metadata_path_no_sep k :
  no_sep k = true -> metadata_path k = METADATA_DIR ++ txt "/" ++ k ++ txt ".json".
Proof. intros Hk. unfold metadata_path. apply join_no_sep; auto; discriminate. Qed.

(** A key without a separator names the file at its own path. *)
Lemma resolve_metadata_path (k : str) (files : gmap str file_text) :
  no_sep k = true ->
  resolve METADATA_DIR files (metadata_path k) = Ok (metadata_path k).
Proof.
  intros Hk. rewrite (metadata_path_no_sep k Hk).
  apply resolve_name.
  - now rewrite no_sep_app, Hk.
  - rewrite length_app. simpl. lia.
Qed.

(** Which file a path names does not depend on the files there are. *)
Lemma descend_stable {A} (dir : str) (files files' : gmap str A) cs file :
  descend dir files cs = Ok file -> descend dir files' cs = Ok file.
Proof.
  induction cs as [|c rest IH]; [discriminate|]. cbn [descend].
  destruct rest as [|c' rest']; [auto|].
  destruct (str_eqb c [] || str_eqb c (txt ".")); [exact IH|].
  destruct (str_eqb c (txt "..")); [discriminate|].
  destruct (files !! _); discriminate.
Qed.

Lemma resolve_stable {A} (dir : str) (files files' : gmap str A) path file :
  resolve dir files path = Ok file -> resolve dir files' path = Ok file.
Proof.
  unfold resolve. destruct (remove_prefix _ path); [apply descend_stable|discriminate].
Qed.

(** The keys of the library items hold no separator. *)
Lemma rfind_from_tail c s i last :
  let r := rfind_from c s i last in
  (r = last /\ forallb (fun x => negb (chr_eqb x c)) s = true)
  \/ ((i <= r < i + Z.of_nat (length s))%Z
      /\ forallb (fun x => negb (chr_eqb x c)) (skipn (Z.to_nat (r - i + 1)) s) = true).
Proof.
  revert i last. induction s as [|x s IH]; intros i last; [now left|].
  cbn [rfind_from].
  destruct (IH (i + 1)%Z (if chr_eqb x c then i else last)) as [[E Hs]|[Hr Hs]].
  - destruct (chr_eqb x c) eqn:Ex.
    + right. rewrite E. split; [cbn [length]; lia|].
      replace (i - i + 1)%Z with 1%Z by lia. exact Hs.
    + left. split; [exact E|]. cbn [forallb]. now rewrite Ex, Hs.
  - right. split; [cbn [length]; lia|].
    replace (Z.to_nat (rfind_from c s (i + 1) (if chr_eqb x c then i else last) - i + 1))
      with (S (Z.to_nat (rfind_from c s (i + 1) (if chr_eqb x c then i else last)
                         - (i + 1) + 1))) by lia.
    exact Hs.
Qed.

Lemma no_sep_basename p : no_sep (basename p) = true.
Proof.
  unfold basename, rfind, no_sep.
  destruct (rfind_from_tail "/" p 0 (-1)) as [[-> Hs]|[_ Hs]].
  - exact Hs.
  - now rewrite Z.sub_0_r in Hs.
Qed.

Lemma forallb_firstn {A} (f : A -> bool) n l :
  forallb f l = true -> forallb f (firstn n l) = true.
Proof.
  revert n. induction l as [|x l IH]; intros [|n]; simpl; auto.
  intros [Hx Hl]%andb_prop. now rewrite Hx, IH.
Qed.

Lemma no_sep_stem p : no_sep p = true -> no_sep (fst (splitext p)) = true.
Proof.
  intros H. unfold splitext.
  destruct (_ <? _)%Z; [|exact H].
  destruct (forallb _ _); [exact H|]. now apply forallb_firstn.
Qed.

(** ** Metadata cache *)

Lemma digit_not_int_space c : is_digit c = true -> is_int_space c = false.
Proof. by_char c. Qed.

Lemma digit_not_sign c :
  is_digit c = true -> chr_eqb c "-" = false /\ chr_eqb c "+" = false.
Proof. by_char c; split; reflexivity. Qed.

Lemma int_lstrip_digits ds t :
  ds <> [] -> forallb is_digit ds = true -> int_lstrip (ds ++ t) = ds ++ t.
Proof.
  destruct ds as [|c ds]; [congruence|]. simpl.
  intros _ [Hc _]%andb_prop. now rewrite (digit_not_int_space c Hc).
Qed.

Lemma rev_not_nil {A} (l : list A) : l <> [] -> rev l <> [].
Proof.
  intros H E. apply (f_equal (@rev A)) in E. rewrite rev_involutive in E. auto.
Qed.

Lemma int_strip_digits ds :
  ds <> [] -> forallb is_digit ds = true -> int_strip ds = ds.
Proof.
  intros Hne Hd. unfold int_strip.
  rewrite <- (app_nil_r ds) at 1. rewrite int_lstrip_digits, app_nil_r by assumption.
  rewrite <- (app_nil_r (rev ds)).
  rewrite int_lstrip_digits, app_nil_r;
    [apply rev_involutive|now apply rev_not_nil|now rewrite forallb_rev].
Qed.

Lemma int_strip_minus_digits ds :
  ds <> [] -> forallb is_digit ds = true ->
  int_strip ("-"%char :: ds) = "-"%char :: ds.
Proof.
  intros Hne Hd. unfold int_strip. simpl int_lstrip. simpl rev.
  rewrite int_lstrip_digits; [|now apply rev_not_nil|now rewrite forallb_rev].
  rewrite rev_app_distr, rev_involutive. reflexivity.
Qed.

Lemma filter_all {A} (f : A -> bool) l : forallb f l = true -> List.filter f l = l.
Proof.
  induction l as [|x l IH]; [reflexivity|]. simpl.
  intros [-> Hl]%andb_prop. now rewrite IH.
Qed.

Lemma int_digits_value ds acc b :
  forallb is_digit ds = true -> ds <> [] \/ b = true ->
  int_digits acc b ds
  = Some (fold_left (fun a c => 10 * a + Z.of_nat (digit_val c))%Z ds acc).
Proof.
  revert acc b. induction ds as [|c ds IH]; intros acc b Hd Hb; simpl.
  - destruct Hb as [Hb| ->]; [congruence|reflexivity].
  - simpl in Hd. apply andb_prop in Hd as [Hc Hd]. rewrite Hc.
    apply IH; auto.
Qed.

Lemma int_of_digits_Z ds n :
  Z.of_nat (fold_left (fun acc c => 10 * acc + digit_val c) ds n)
  = fold_left (fun a c => 10 * a + Z.of_nat (digit_val c))%Z ds (Z.of_nat n).
Proof.
  revert n. induction ds as [|c ds IH]; intros n; simpl; [reflexivity|].
  rewrite IH. f_equal. lia.
Qed.

Lemma int_body_digits ds :
  ds <> [] -> forallb is_digit ds = true ->
  (Z.of_nat (length ds) <= int_max_str_digits)%Z ->
  int_body ds = Some (Z.of_nat (int_of_digits ds)).
Proof.
  intros Hne Hd Hl. unfold int_body. rewrite (filter_all _ _ Hd).
  destruct (Z.ltb_spec int_max_str_digits (Z.of_nat (length ds))); [lia|].
  rewrite int_digits_value by auto.
  unfold int_of_digits. now rewrite int_of_digits_Z.
Qed.

Lemma py_int_genre_id g z : genre_id g z -> py_int g = Ok z.
Proof.
  intros [z' _|ds Hne Hd Hl|ds Hne Hd Hl]; cbn [py_int]; [reflexivity| |].
  - unfold int_of_str. rewrite int_strip_digits by assumption.
    pose proof (int_body_digits ds Hne Hd Hl) as Hb.
    destruct ds as [|c ds']; [congruence|].
    assert (Hc : is_digit c = true) by now apply andb_prop in Hd.
    destruct (digit_not_sign c Hc) as [-> ->]. now rewrite Hb.
  - unfold int_of_str. rewrite int_strip_minus_digits by assumption.
    cbn [chr_eqb Ascii.eqb Bool.eqb andb].
    now rewrite int_body_digits.
Qed.

Lemma int_list_genre_ids gs ids : Forall2 genre_id gs ids -> int_list gs = Ok ids.
Proof.
  induction 1 as [|g z gs ids Hg _ IH]; simpl; [reflexivity|].
  now rewrite (py_int_genre_id g z Hg), IH.
Qed.

(** Whatever the key, a write that returns is read back. *)
Lemma get_after_save (filename : str) (data : metadata) (files files' : gmap str file_text) :
  save_metadata filename data files = Ok files' ->
  exists r,
    get_cached_metadata filename files' = (Ok (Some r), files')
    /\ CacheRecord.title r = py_str (default (AStr []) (md_title data))
    /\ CacheRecord.overview r = py_str (default (AStr []) (md_overview data))
    /\ int_list (default [] (md_genres data)) = Ok (CacheRecord.genres r).
Proof.
  unfold save_metadata, get_cached_metadata.
  destruct (int_list (default [] (md_genres data))) as [gs|e]; cbn [bind];
    [|discriminate].
  destruct (resolve METADATA_DIR files _) as [file|e] eqn:R; cbn [bind];
    [|discriminate].
  intros [= <-]. rewrite (resolve_stable _ _ _ _ _ R), lookup_insert_eq.
  eexists. split; [reflexivity|]. simpl. auto.
Qed.

Lemma file_key_no_sep k : file_key k = true -> no_sep k = true.
Proof. unfold file_key. now intros [[H _]%andb_prop _]%andb_prop. Qed.

(** C3, as amended.  For every key that is the name of a file and every
    record whose title and overview are strings and whose genre ids are
    integers or numeric strings, [save_metadata] followed by
    [get_cached_metadata] gives a record with the same title, the same
    overview and the genre ids as integers. *)
Theorem save_then_get_metadata (key t o : str) (gs : list atom) (ids : list Z)
    (files : gmap str file_text) :
  file_key key = true ->
  Forall2 genre_id gs ids ->
  exists files',
    save_metadata key
      {| md_title := Some (AStr t); md_overview := Some (AStr o);
         md_genres := Some gs |} files = Ok files'
    /\ get_cached_metadata key files'
       = (Ok (Some {| CacheRecord.title := t; CacheRecord.overview := o;
                      CacheRecord.genres := ids |}), files').
Proof.
  intros Hk%file_key_no_sep Hg. unfold save_metadata.
  cbn [md_genres md_title md_overview default py_str]. unfold id.
  rewrite (int_list_genre_ids gs ids Hg). cbn [bind].
  rewrite (resolve_metadata_path key files Hk). cbn [bind].
  eexists. split; [reflexivity|].
  unfold get_cached_metadata.
  now rewrite (resolve_metadata_path key _ Hk), lookup_insert_eq.
Qed.

Lemma save_then_get_metadata_witness :
  exists files',
    save_metadata (txt "Movie.2021.1080p")
      {| md_title := Some (AStr (txt "Movie"));
         md_overview := Some (AStr (txt "A film."));
         md_genres := Some [AInt 18; AStr (txt "35"); AStr (txt "-7")] |} ∅
    = Ok files'
    /\ get_cached_metadata (txt "Movie.2021.1080p") files'
       = (Ok (Some {| CacheRecord.title := txt "Movie";
                      CacheRecord.overview := txt "A film.";
                      CacheRecord.genres := [18; 35; -7]%Z |}), files').
Proof.
  apply (save_then_get_metadata (txt "Movie.2021.1080p") (txt "Movie")
           (txt "A film.") [AInt 18; AStr (txt "35"); AStr (txt "-7")]
           [18; 35; -7]%Z ∅); [reflexivity|].
  constructor; [apply genre_id_int; reflexivity|].
  constructor;
    [apply (genre_id_digits (txt "35")); [discriminate|reflexivity|discriminate]|].
  constructor;
    [apply (genre_id_minus (txt "7")); [discriminate|reflexivity|discriminate]|].
  constructor.
Defined.

(** C3 as written fails on a key with a path separator: the file would
    lie in a directory that is not there, [open] raises
    [FileNotFoundError], nothing is written, and the next read finds
    nothing. *)
Theorem save_metadata_separator_raises :
  save_metadata (txt "AC/DC")
    {| md_title := Some (AStr (txt "AC/DC")); md_overview := Some (AStr []);
       md_genres := Some [AInt 18] |} ∅
  = Raise FileNotFoundError
  /\ get_cached_metadata (txt "AC/DC") ∅ = (Ok None, ∅).
Proof. split; reflexivity. Qed.

(** C4, as amended.  When the metadata file of a key is there and holds
    what [json.load] rejects with a [JSONDecodeError] or another
    [ValueError], [get_cached_metadata] reports absent, raises nothing
    and removes the file: [os.path.exists] no longer finds it, and the
    next read reports absent again and changes nothing. *)
Theorem get_cached_metadata_corrupt (key raw file : str)
    (files : gmap str file_text) :
  resolve METADATA_DIR files (metadata_path key) = Ok file ->
  files !! file = Some (Garbage raw) ->
  get_cached_metadata key files = (Ok None, delete file files)
  /\ cache_exists METADATA_DIR (delete file files) (metadata_path key) = false
  /\ get_cached_metadata key (delete file files) = (Ok None, delete file files).
Proof.
  intros R H. unfold get_cached_metadata, cache_exists.
  rewrite R, H, (resolve_stable _ _ (delete file files) _ _ R), lookup_delete_eq.
  auto.
Qed.

Lemma get_cached_metadata_corrupt_witness :
  get_cached_metadata (txt "Show")
    {[ metadata_path (txt "Show") := Garbage (txt "{ title: ") ]}
  = (Ok None,
     delete (metadata_path (txt "Show"))
       {[ metadata_path (txt "Show") := Garbage (txt "{ title: ") ]}).
Proof.
  apply (get_cached_metadata_corrupt (txt "Show") (txt "{ title: ")
           (metadata_path (txt "Show"))); reflexivity.
Defined.

(** C4 as written fails on a file of two thousand opening brackets: it
    is no valid JSON, and [json.load] fails on it with a
    [RecursionError], which is not caught, so the error reaches the
    caller and the file stays. *)
Theorem get_cached_metadata_nested_raises :
  let files : gmap str file_text :=
    {[ metadata_path (txt "Show") := Nested (repeat "["%char 2000) ]} in
  cache_exists METADATA_DIR files (metadata_path (txt "Show")) = true
  /\ get_cached_metadata (txt "Show") files = (Raise RecursionError, files).
Proof. split; reflexivity. Qed.

(** ** Library items *)

Lemma int_list_ints gs : int_list (map AInt gs) = Ok gs.
Proof. induction gs as [|g gs IH]; simpl; [reflexivity|]. now rewrite IH. Qed.

Lemma video_item_init_fields (path : str) (files files0 : gmap str file_text)
    (self : VideoItem.t) :
  VideoItem.init path files = (Ok self, files0) ->
  VideoItem.path self = path
  /\ VideoItem.filename self = fst (splitext (basename path)).
Proof.
  unfold VideoItem.init.
  destruct (get_cached_metadata _ files) as [[[r|]|e] f]; intros [= <- <-]; auto.
Qed.

Lemma no_sep_video_key path : no_sep (fst (splitext (basename path))) = true.
Proof. apply no_sep_stem, no_sep_basename. Qed.

(** What a save under a key without a separator leaves is what the next
    constructor of a stand-alone video reads. *)
Lemma video_item_init_after_save (path : str) (files : gmap str file_text)
    (r : CacheRecord.t) :
  VideoItem.init path
    (<[metadata_path (fst (splitext (basename path))) := Document r]> files)
  = (Ok {| VideoItem.path := path;
           VideoItem.filename := fst (splitext (basename path));
           VideoItem.title := CacheRecord.title r;
           VideoItem.overview := CacheRecord.overview r;
           VideoItem.genres := CacheRecord.genres r |},
     <[metadata_path (fst (splitext (basename path))) := Document r]> files).
Proof.
  unfold VideoItem.init, get_cached_metadata.
  now rewrite (resolve_metadata_path _ _ (no_sep_video_key path)), lookup_insert_eq.
Qed.

(** A stand-alone video reads the cache under the key it writes: what
    [fetch_online] saved is found when the same file is scanned again. *)
Lemma video_item_second_pass (path : str) (search : str -> option tmdb_result)
    (files files0 : gmap str file_text) (self : VideoItem.t) (movie : tmdb_result) :
  search (clean_filename (basename path)) = Some movie ->
  tm_genre_ids movie = None ->
  VideoItem.init path files = (Ok self, files0) ->
  let '(self1, files1) := VideoItem.fetch_online search self files0 in
  exists self2 files2,
    VideoItem.init path files1 = (Ok self2, files2)
    /\ VideoItem.title self2 = VideoItem.title self1
    /\ VideoItem.overview self2 = VideoItem.overview self1
    /\ VideoItem.genres self2 = VideoItem.genres self1.
Proof.
  intros Hs Hg E0.
  destruct (video_item_init_fields path files files0 self E0) as [Hp Hf].
  unfold VideoItem.fetch_online. rewrite Hp, Hs, Hg.
  cbv beta iota zeta.
  unfold save_metadata. cbn [md_genres md_title md_overview default py_str].
  unfold id. rewrite int_list_ints. cbn [bind VideoItem.filename]. rewrite Hf.
  rewrite (resolve_metadata_path _ _ (no_sep_video_key path)). cbn [bind].
  rewrite video_item_init_after_save. do 2 eexists. split; [reflexivity|].
  simpl. auto.
Qed.

(** C5, on the code.  A series is looked up under the name of its folder
    and saved under the name TMDb returns: the record written in the
    first pass is not found in the second. *)
Theorem series_item_second_pass_misses :
  let folder := txt "/media/the office" in
  match SeriesItem.init folder ∅ with
  | (Ok self, files0) =>
      let '(self1, files1) := SeriesItem.fetch_metadata tmdb_office self files0 in
      match SeriesItem.init folder files1 with
      | (Ok self2, _) =>
          files1 !! metadata_path (txt "The Office")
            = Some (Document {| CacheRecord.title := txt "The Office";
                                CacheRecord.overview := txt "A mockumentary.";
                                CacheRecord.genres := [35%Z] |})
          /\ files1 !! metadata_path (basename folder) = None
          /\ fst (get_cached_metadata (basename folder) files1) = Ok None
          /\ SeriesItem.title self1 = txt "The Office"
          /\ SeriesItem.title self2 = txt "the office"
          /\ SeriesItem.overview self2 = txt "No description available."
      | (Raise _, _) => False
      end
  | (Raise _, _) => False
  end.
Proof. vm_compute. repeat split; reflexivity. Qed.

(* ================================================================== *)
(** * Further properties *)

(** ** The three filename parsers *)

Lemma digit_val_leb c : is_digit c = true -> (digit_val c <=? 9) = true.
Proof. by_char c. Qed.

Lemma digit_val_le c : is_digit c = true -> digit_val c <= 9.
Proof. intros H. now apply Nat.leb_le, digit_val_leb. Qed.

Lemma int_of_digits_le_99 d :
  forallb is_digit d = true -> length d <= 2 -> int_of_digits d <= 99.
Proof.
  destruct d as [|a [|b [|? ?]]]; simpl; intros Hd Hl; try lia.
  - unfold int_of_digits. simpl. lia.
  - rewrite andb_true_r in Hd. apply digit_val_le in Hd.
    unfold int_of_digits. simpl. lia.
  - apply andb_prop in Hd as [Ha [Hb _]%andb_prop].
    apply digit_val_le in Ha, Hb. unfold int_of_digits. simpl. lia.
Qed.

Lemma rstrip_idem s : rstrip (rstrip s) = rstrip s.
Proof. unfold rstrip. now rewrite rev_involutive, lstrip_idem. Qed.

(** X1.  The season and the episode [parse_filename] returns are at most
    99, and its title is either trimmed or, with season 1 and episode
    0, the stem as it is. *)
Theorem parse_filename_bounds (filename : str) :
  let '(season, episode, title) := parse_filename filename in
  season <= 99 /\ episode <= 99
  /\ (strip title = title
      \/ (season = 1 /\ episode = 0 /\ title = fst (splitext filename))).
Proof.
  unfold parse_filename.
  destruct (match_episode_name (fst (splitext filename)))
    as [[[g1 g2] g3]|] eqn:E.
  - apply match_episode_name_sound in E as [rest [F _]].
    inversion F; subst.
    repeat split; try (apply int_of_digits_le_99; [assumption|lia]).
    left. apply strip_strip.
  - repeat split; try lia. right. auto.
Qed.

Lemma splitext_app p : fst (splitext p) ++ snd (splitext p) = p.
Proof.
  unfold splitext.
  destruct (rfind "/" p <? rfind "." p)%Z; [|apply app_nil_r].
  destruct (forallb _ _); [apply app_nil_r|]. apply firstn_skipn.
Qed.

Lemma rep_digit_1_2_head d t :
  forallb is_digit d = true -> 1 <= length d <= 2 ->
  match t with [] => True | c :: _ => is_digit c = false end ->
  exists tl, rep_digit_1_2 (d ++ t) = (d, t) :: tl.
Proof.
  intros Hd Hl Ht.
  destruct d as [|a [|b [|? ?]]]; simpl in Hl; try lia; simpl in Hd.
  - rewrite andb_true_r in Hd.
    destruct t as [|c t]; simpl; rewrite Hd; [now eexists|].
    rewrite Ht. now eexists.
  - apply andb_prop in Hd as [Ha [Hb _]%andb_prop]. simpl.
    rewrite Ha, Hb. now eexists.
Qed.

Lemma hyphen_not_digit c : chr_eqb c "-" = true -> is_digit c = false.
Proof. by_char c. Qed.

(** On a name of the episode form the search finds season and episode
    at its head, whatever follows. *)
Lemma match_season_episode_form name d1 d2 rest ext :
  episode_form name d1 d2 rest ->
  match_season_episode (name ++ ext) = Some (d1, d2).
Proof.
  intros [s e d1' d2' ws1 ws2 rest' Hs He Hd1 Hl1 Hd2 Hl2 Hw1 Hw2].
  unfold match_season_episode. cbn [app]. rewrite Hs.
  rewrite <- app_assoc. cbn [app].
  apply rep_digit_1_2_greedy; auto.
  { now apply Ee_not_digit. }
  rewrite He. rewrite <- app_assoc.
  destruct (rep_digit_1_2_head d2' ((ws1 ++ "-"%char :: ws2 ++ rest') ++ ext))
    as [tl ->]; auto.
  destruct ws1 as [|w ws1]; simpl; [reflexivity|].
  simpl in Hw1. apply andb_prop in Hw1 as [Hw _]. now apply space_not_digit.
Qed.

Lemma match_tag_season_episode s :
  match_episode_tag s = option_map snd (match_season_episode s).
Proof.
  unfold match_episode_tag, match_season_episode.
  destruct s as [|c r0]; [reflexivity|].
  destruct (chr_eqb c "S" || chr_eqb c "s"); [|reflexivity].
  induction (rep_digit_1_2 r0) as [|[g1 r1] l IH]; simpl; [reflexivity|].
  destruct r1 as [|e r2]; [exact IH|].
  destruct (chr_eqb e "E" || chr_eqb e "e"); [|exact IH].
  destruct (rep_digit_1_2 r2) as [|[g2 ?] ?]; [exact IH|reflexivity].
Qed.

Lemma search_tag_season_episode s :
  search_episode_tag s = option_map snd (search_season_episode s).
Proof.
  induction s as [|c s IH]; [reflexivity|].
  cbn [search_episode_tag search_season_episode].
  rewrite match_tag_season_episode.
  destruct (match_season_episode (c :: s)) as [[g1 g2]|]; [reflexivity|exact IH].
Qed.

Lemma search_season_episode_form filename d1 d2 rest :
  episode_form (fst (splitext filename)) d1 d2 rest ->
  search_season_episode filename = Some (d1, d2).
Proof.
  intros F. pose proof (match_season_episode_form _ _ _ _ (snd (splitext filename)) F) as M.
  rewrite splitext_app in M.
  destruct filename as [|c s]; [discriminate|].
  cbn [search_season_episode]. now rewrite M.
Qed.

(** X2.  On a file name whose stem has the episode form, the sort-key
    parser [parse_episode_number], given the file name, returns the
    episode that [parse_filename] returns. *)
Theorem parse_episode_number_agrees (filename d1 d2 rest : str) :
  episode_form (fst (splitext filename)) d1 d2 rest ->
  parse_episode_number filename = snd (fst (parse_filename filename)).
Proof.
  intros F. unfold parse_episode_number.
  rewrite search_tag_season_episode, (search_season_episode_form _ _ _ _ F).
  rewrite (parse_filename_form _ _ _ _ F). reflexivity.
Qed.

Lemma parse_episode_number_agrees_witness :
  parse_episode_number (txt "S01E02 - Beta.mkv")
  = snd (fst (parse_filename (txt "S01E02 - Beta.mkv"))).
Proof.
  apply (parse_episode_number_agrees (txt "S01E02 - Beta.mkv")
           (txt "01") (txt "02") (txt "Beta")).
  apply (episode_form_intro "S" "E" (txt "01") (txt "02") (txt " ") (txt " ")
           (txt "Beta")); simpl; auto.
Defined.

(** X3.  [_parse_episode] and [parse_episode_number] read the same
    episode off every name, and on a file name whose stem has the
    episode form [_parse_episode] returns the season and the episode of
    [parse_filename]. *)
Theorem parse_episode_agrees (filename : str) :
  snd (_parse_episode filename) = parse_episode_number filename
  /\ (forall d1 d2 rest,
        episode_form (fst (splitext filename)) d1 d2 rest ->
        _parse_episode filename = fst (parse_filename filename)).
Proof.
  split.
  - unfold _parse_episode, parse_episode_number.
    rewrite search_tag_season_episode.
    destruct (search_season_episode filename) as [[g1 g2]|]; reflexivity.
  - intros d1 d2 rest F. unfold _parse_episode.
    rewrite (search_season_episode_form _ _ _ _ F).
    rewrite (parse_filename_form _ _ _ _ F). reflexivity.
Qed.

Lemma parse_episode_agrees_witness :
  _parse_episode (txt "s3e14 -Finale.avi")
  = fst (parse_filename (txt "s3e14 -Finale.avi")).
Proof.
  apply (proj2 (parse_episode_agrees (txt "s3e14 -Finale.avi"))
           (txt "3") (txt "14") (txt "Finale")).
  apply (episode_form_intro "s" "e" (txt "3") (txt "14") (txt " ") []
           (txt "Finale")); simpl; auto.
Defined.

(** ** Cleaned titles, seen from outside *)

Lemma tidy_blank b s c : tidy b s = true -> In c s -> is_space c = true -> c = " "%char.
Proof.
  revert b. induction s as [|x s IH]; intros b Ht Hin Hc; [destruct Hin|].
  destruct Hin as [<-|Hin]; simpl in Ht.
  - rewrite Hc in Ht. apply andb_prop in Ht as [[_ E]%andb_prop _].
    now apply chr_eqb_eq in E.
  - destruct (is_space x); [apply andb_prop in Ht as [_ Ht]|]; eauto.
Qed.

Lemma tidy_no_double b a s : tidy b (a ++ " "%char :: " "%char :: s) = false.
Proof.
  revert b. induction a as [|x a IH]; intros b; simpl.
  - apply andb_false_r.
  - destruct (is_space x); [rewrite IH; apply andb_false_r|apply IH].
Qed.

(** X4.  A cleaned title holds no dot and no underscore, its only white
    space is the blank, no two blanks are adjacent, and it neither
    starts nor ends with white space. *)
Theorem clean_filename_shape (filename : str) :
  let r := clean_filename filename in
  (forall c, In c r ->
     c <> "."%char /\ c <> "_"%char /\ (is_space c = true -> c = " "%char))
  /\ (forall a b, r <> a ++ " "%char :: " "%char :: b)
  /\ strip r = r.
Proof.
  destruct (clean_filename_normal filename) as (Hp & _ & _ & Ht & Hs).
  cbn zeta. split; [|split; [|exact Hs]].
  - intros c Hin. rewrite forallb_forall in Hp. specialize (Hp c Hin).
    unfold plain in Hp. apply andb_prop in Hp as [H1 H2].
    apply negb_true_iff in H1, H2.
    repeat split.
    + intros ->. discriminate.
    + intros ->. discriminate.
    + now apply (tidy_blank false (clean_filename filename)).
  - intros a b E. rewrite E, tidy_no_double in Ht. discriminate.
Qed.

Lemma merge_app c ts us : ts <> [] -> merge c (ts ++ us) = merge c ts ++ us.
Proof. destruct ts as [|[w|d] ts]; [congruence| |]; reflexivity. Qed.

Lemma tok_nil s : tok s = [] -> s = [].
Proof.
  destruct s as [|c s]; [reflexivity|]. simpl.
  destruct (is_word c); [|discriminate].
  destruct (tok s) as [|[?|?] ?]; discriminate.
Qed.

(** The tokens of a string cut where a word cannot continue. *)
Lemma tok_app_sep a s :
  word_opt (last a) = false -> tok (a ++ s) = tok a ++ tok s.
Proof.
  induction a as [|x a IH]; [reflexivity|].
  intros Hl. simpl. destruct a as [|y a].
  - simpl in Hl. rewrite Hl. reflexivity.
  - rewrite IH by exact Hl.
    destruct (is_word x); [|reflexivity].
    apply merge_app. intros E. apply tok_nil in E. discriminate.
Qed.

Lemma tok_standalone a w b :
  w <> [] -> forallb is_word w = true ->
  word_opt (last a) = false -> word_opt (head b) = false ->
  In (W w) (tok (a ++ w ++ b)).
Proof.
  intros Hne Hw Ha Hb. rewrite tok_app_sep by assumption.
  apply in_or_app. right. rewrite tok_word_app; [now left|assumption..|].
  destruct b as [|c b]; [reflexivity|]. simpl in *. now rewrite Hb.
Qed.

Lemma first_some_None {A B} (f : A -> option B) l x :
  first_some f l = None -> In x l -> f x = None.
Proof.
  induction l as [|y l IH]; simpl; [tauto|].
  destruct (f y) eqn:E; [discriminate|]. intros H [<-|Hin]; auto.
Qed.

Lemma digit_word c : is_digit c = true -> is_word c = true.
Proof. by_char c. Qed.

Lemma is_year_matches w :
  is_year w = true ->
  w <> [] /\ forallb is_word w = true
  /\ bounded_at year_pattern None w <> None.
Proof.
  destruct w as [|a [|b [|c [|d [|? ?]]]]]; try discriminate.
  cbn [is_year]. intros [[Hab Hc]%andb_prop Hd]%andb_prop.
  pose proof (digit_word c Hc) as Wc. pose proof (digit_word d Hd) as Wd.
  apply orb_prop in Hab as [[Ha Hb]%andb_prop|[Ha Hb]%andb_prop];
    apply chr_eqb_eq in Ha, Hb; subst a b.
  - split; [discriminate|]. split; [simpl; now rewrite Wc, Wd|].
    unfold bounded_at, year_pattern. cbn. unfold lit, boundary. cbn.
    rewrite Hc, Hd, Wd. discriminate.
  - split; [discriminate|]. split; [simpl; now rewrite Wc, Wd|].
    unfold bounded_at, year_pattern. cbn. unfold lit, boundary. cbn.
    rewrite Hc, Hd, Wd. discriminate.
Qed.

Lemma seq_at_ilit t w prev :
  t <> [] -> forallb is_word t = true -> lower w = lower t ->
  seq_at (map ilit t) prev w = true /\ forallb is_word w = true.
Proof.
  revert w prev. induction t as [|p t IH]; intros w prev Hne Ht E; [congruence|].
  destruct w as [|c w]; [discriminate|].
  simpl in Ht. apply andb_prop in Ht as [Hp Ht].
  injection E as Ec Ew.
  assert (Hc : ilit p c = true) by (unfold ilit; rewrite Ec; now apply chr_eqb_eq).
  pose proof (word_cls_ilit p Hp c Hc) as Wc.
  cbn [map seq_at forallb]. rewrite Hc, Wc. cbn [andb].
  destruct t as [|q t].
  - destruct w; [|discriminate]. split; [|reflexivity].
    cbn. unfold boundary. cbn. now rewrite Wc.
  - apply IH; [discriminate|assumption|exact Ew].
Qed.

Lemma is_quality_tag_matches w :
  is_quality_tag w = true ->
  w <> [] /\ forallb is_word w = true
  /\ bounded_at quality_pattern None w <> None.
Proof.
  unfold is_quality_tag. intros (t & Hin & E%str_eqb_eq)%existsb_exists.
  assert (Ht : t <> [] /\ forallb is_word t = true
               /\ In (map ilit t) quality_pattern).
  { unfold quality_words in Hin. cbn [map] in Hin.
    repeat (destruct Hin as [<-|Hin];
            [split; [discriminate|split; [reflexivity|]];
             unfold quality_pattern; cbn [map];
             repeat (first [left; reflexivity | right])|]).
    destruct Hin. }
  destruct Ht as (Hne & Hw & Hpat).
  destruct (seq_at_ilit t w None Hne Hw E) as [Hseq Hww].
  assert (Hwne : w <> []).
  { intros ->. destruct t; [congruence|discriminate]. }
  split; [assumption|]. split; [assumption|].
  unfold bounded_at.
  destruct w as [|c w]; [congruence|].
  unfold boundary. cbn [head word_opt].
  simpl in Hww. apply andb_prop in Hww as [Wc _]. rewrite Wc. cbn [xorb].
  intros N.
  apply (first_some_None _ _ (map ilit t)) in N; [|exact Hpat].
  cbn beta in N. rewrite Hseq in N. discriminate.
Qed.

(** X5.  No word of a cleaned title is a year from 1900 to 2099 or one of
    the release tags, in any letter case: cleaning leaves none behind. *)
Theorem clean_filename_no_year_no_tag (filename a w b : str) :
  clean_filename filename = a ++ w ++ b ->
  word_opt (last a) = false -> word_opt (head b) = false ->
  is_year w = false /\ is_quality_tag w = false.
Proof.
  intros E Ha Hb.
  destruct (clean_filename_normal filename) as (_ & Hy & Hq & _ & _).
  cbn zeta in Hy, Hq. rewrite E in Hy, Hq.
  rewrite forallb_forall in Hy, Hq.
  split.
  - destruct (is_year w) eqn:Y; [|reflexivity].
    apply is_year_matches in Y as (Hne & Hw & Hm).
    specialize (Hy (W w) (tok_standalone a w b Hne Hw Ha Hb)). simpl in Hy.
    destruct (bounded_at year_pattern None w); [discriminate|congruence].
  - destruct (is_quality_tag w) eqn:Q; [|reflexivity].
    apply is_quality_tag_matches in Q as (Hne & Hw & Hm).
    specialize (Hq (W w) (tok_standalone a w b Hne Hw Ha Hb)). simpl in Hq.
    destruct (bounded_at quality_pattern None w); [discriminate|congruence].
Qed.

Lemma clean_filename_no_year_no_tag_witness :
  is_year (txt "Runner") = false /\ is_quality_tag (txt "Runner") = false.
Proof.
  apply (clean_filename_no_year_no_tag (txt "Blade.Runner.1982.BluRay.x264.mkv")
           (txt "Blade ") (txt "Runner") []); reflexivity.
Defined.

(** ** The groups of a series folder *)

Lemma dict_mem_In {V} k (d : list (str * V)) :
  dict_mem k d = true <-> In k (map fst d).
Proof.
  induction d as [|[k' v] d IH]; simpl; [split; [discriminate|tauto]|].
  rewrite orb_true_iff, IH, str_eqb_eq. reflexivity.
Qed.

Lemma dict_append_keys {V} k (e : V) d :
  map fst (dict_append k e d) = map fst d.
Proof.
  induction d as [|[k' v] d IH]; simpl; [reflexivity|].
  destruct (str_eqb k' k); simpl; [reflexivity|now rewrite IH].
Qed.

Lemma dict_append_spec {V} k0 (e : V) d k eps :
  NoDup (map fst d) -> In (k, eps) (dict_append k0 e d) ->
  (k <> k0 /\ In (k, eps) d)
  \/ (k = k0 /\ exists eps0, In (k0, eps0) d /\ eps = eps0 ++ [e]).
Proof.
  induction d as [|[k' v] d IH]; simpl; [tauto|].
  intros Hnd. inversion Hnd as [|? ? Hk' Hnd']; subst.
  destruct (str_eqb k' k0) eqn:E; simpl.
  - apply str_eqb_eq in E. subst k'. intros [[= <- <-]|H].
    + right. split; [reflexivity|]. exists v. auto.
    + left. split; [|now right]. intros ->. apply Hk'.
      apply list_elem_of_In. apply (in_map fst) in H. exact H.
  - apply str_eqb_neq in E. intros [[= <- <-]|H].
    + left. split; [assumption|now left].
    + destruct (IH Hnd' H) as [[Hne Hin]|[-> (eps0 & Hin & ->)]].
      * left. auto.
      * right. split; [reflexivity|]. exists eps0. auto.
Qed.

Lemma episodes_of_snoc folder exts k done e :
  episodes_of folder exts k (done ++ [e])
  = episodes_of folder exts k done
    ++ (if is_episode_file exts e && str_eqb (season_key (fst e)) k
        then [episode_of folder (fst e)] else []).
Proof.
  unfold episodes_of. rewrite List.filter_app, map_app. cbn [List.filter].
  destruct (is_episode_file exts e && str_eqb (season_key (fst e)) k); reflexivity.
Qed.

Lemma episodes_of_none folder exts k done :
  (forall e, In e done -> is_episode_file exts e = true -> season_key (fst e) <> k) ->
  episodes_of folder exts k done = [].
Proof.
  intros H. unfold episodes_of.
  induction done as [|e done IH]; cbn [List.filter map]; [reflexivity|].
  destruct (is_episode_file exts e) eqn:E; cbn [andb].
  - rewrite (proj2 (str_eqb_neq _ _) (H e (or_introl eq_refl) E)).
    apply IH. intros; apply H; auto. now right.
  - apply IH. intros; apply H; auto. now right.
Qed.

Lemma group_entry_episode folder exts seasons entry :
  is_episode_file exts entry = true ->
  group_entry folder exts seasons entry
  = dict_append (season_key (fst entry)) (episode_of folder (fst entry))
      (if dict_mem (season_key (fst entry)) seasons then seasons
       else seasons ++ [(season_key (fst entry), [])]).
Proof.
  destruct entry as [entry_name nd]. unfold is_episode_file. cbn [fst snd].
  intros [Hf He]%andb_prop. destruct nd; try discriminate.
  rewrite group_entry_video by assumption.
  unfold season_key, episode_of.
  destruct (parse_filename entry_name) as [[s e] t]. reflexivity.
Qed.

Lemma groups_of_step folder exts done d entry :
  groups_of folder exts done d ->
  groups_of folder exts (done ++ [entry]) (group_entry folder exts d entry).
Proof.
  intros (Hnd & Heps & Hkeys).
  destruct (is_episode_file exts entry) eqn:E.
  - rewrite group_entry_episode by assumption.
    set (k0 := season_key (fst entry)). set (e0 := episode_of folder (fst entry)).
    destruct (dict_mem k0 d) eqn:Hm.
    + repeat split.
      * now rewrite dict_append_keys.
      * intros k eps Hin. rewrite episodes_of_snoc, E. cbn [andb]. fold k0 e0.
        destruct (dict_append_spec _ _ _ _ _ Hnd Hin)
          as [[Hne Hin']|[-> (eps0 & Hin' & ->)]].
        -- rewrite (proj2 (str_eqb_neq k0 k)) by congruence.
           rewrite app_nil_r. auto.
        -- rewrite str_eqb_refl. f_equal. auto.
      * intros e [Hin|[<-|[]]]%in_app_or He; rewrite dict_append_keys.
        -- auto.
        -- now apply dict_mem_In.
    + assert (Hfresh : ~ In k0 (map fst d)).
      { intros H. apply dict_mem_In in H. congruence. }
      rewrite dict_append_fresh by assumption.
      repeat split.
      * rewrite map_app. simpl. apply NoDup_app. repeat split; auto.
        -- intros x Hx [<-|[]]%list_elem_of_In. apply Hfresh.
           now apply list_elem_of_In.
        -- repeat constructor. intros []%list_elem_of_In.
      * intros k eps [Hin|[[= <- <-]|[]]]%in_app_or;
          rewrite episodes_of_snoc, E; cbn [andb]; fold k0 e0.
        -- assert (k <> k0).
           { intros ->. apply Hfresh. apply (in_map fst) in Hin. exact Hin. }
           rewrite (proj2 (str_eqb_neq k0 k)) by congruence.
           rewrite app_nil_r. auto.
        -- rewrite str_eqb_refl, episodes_of_none; [reflexivity|].
           intros e Hin He Hk. apply Hfresh. rewrite <- Hk. auto.
      * intros e [Hin|[<-|[]]]%in_app_or He; rewrite map_app; apply in_or_app.
        -- left. auto.
        -- right. now left.
  - destruct entry as [entry_name nd].
    rewrite group_entry_other by exact E.
    repeat split; auto.
    + intros k eps Hin. rewrite episodes_of_snoc, E. cbn [andb].
      rewrite app_nil_r. auto.
    + intros e [Hin|[<-|[]]]%in_app_or He; [auto|congruence].
Qed.

Lemma groups_of_fold folder exts es done d :
  groups_of folder exts done d ->
  groups_of folder exts (done ++ es) (fold_left (group_entry folder exts) es d).
Proof.
  revert done d. induction es as [|entry es IH]; intros done d H; simpl.
  - now rewrite app_nil_r.
  - replace (done ++ entry :: es) with ((done ++ [entry]) ++ es)
      by now rewrite <- app_assoc.
    apply IH. now apply groups_of_step.
Qed.

Lemma groups_of_folder fs folder exts entries seasons :
  fs folder = Some (Dir entries) ->
  parse_series_folder fs folder exts = Ok seasons ->
  exists d,
    groups_of folder exts entries d
    /\ seasons
       = map (fun '(k, eps) =>
                (k, sort_by (fun e => parse_episode_number (Episode.name e)) eps)) d.
Proof.
  intros Hfs. unfold parse_series_folder, exists_path, scandir. rewrite Hfs.
  simpl. intros [= <-].
  exists (fold_left (group_entry folder exts) entries []).
  split; [|reflexivity].
  apply (groups_of_fold folder exts entries [] []).
  repeat split; [constructor|intros ? ? []|intros ? []].
Qed.

(** X6.  [parse_series_folder] returns one group for each season key,
    and the group of a key is the stable sort, by
    [parse_episode_number] of the title, of the episodes made of the
    folder's video files with that key, taken in scan order. *)
Theorem parse_series_folder_characterised fs folder_path video_exts entries seasons :
  fs folder_path = Some (Dir entries) ->
  parse_series_folder fs folder_path video_exts = Ok seasons ->
  NoDup (map fst seasons)
  /\ forall season_name eps, In (season_name, eps) seasons ->
       eps = sort_by (fun e => parse_episode_number (Episode.name e))
               (episodes_of folder_path video_exts season_name entries).
Proof.
  intros Hfs H.
  destruct (groups_of_folder _ _ _ _ _ Hfs H) as (d & (Hnd & Heps & _) & ->).
  split.
  - rewrite map_map.
    erewrite map_ext; [exact Hnd|]. now intros [k eps].
  - intros k eps Hin.
    apply in_map_iff in Hin as [[k' eps'] [[= <- <-] Hin]].
    now rewrite (Heps _ _ Hin).
Qed.

Lemma parse_series_folder_characterised_witness :
  NoDup (map fst [ (txt "Season 1",
                    [ Episode.init (txt "Beta") (txt "/tv/Show/S01E02 - Beta.mkv");
                      Episode.init (txt "Alpha") (txt "/tv/Show/S01E01 - Alpha.mkv") ]) ])
  /\ forall season_name eps,
       In (season_name, eps)
          [ (txt "Season 1",
             [ Episode.init (txt "Beta") (txt "/tv/Show/S01E02 - Beta.mkv");
               Episode.init (txt "Alpha") (txt "/tv/Show/S01E01 - Alpha.mkv") ]) ] ->
       eps = sort_by (fun e => parse_episode_number (Episode.name e))
               (episodes_of (txt "/tv/Show") video_exts_default season_name
                  [(txt "S01E02 - Beta.mkv", File); (txt "S01E01 - Alpha.mkv", File)]).
Proof.
  apply (parse_series_folder_characterised show_folder (txt "/tv/Show")
           video_exts_default); reflexivity.
Defined.

(** X7.  No episode is lost and every group is ordered: each video file
    of the folder has its episode in the group of its season key, and
    each group is in non-decreasing order of [parse_episode_number] of
    the titles. *)
Theorem parse_series_folder_complete fs folder_path video_exts entries seasons :
  fs folder_path = Some (Dir entries) ->
  parse_series_folder fs folder_path video_exts = Ok seasons ->
  (forall entry, In entry entries -> is_episode_file video_exts entry = true ->
     exists eps, In (season_key (fst entry), eps) seasons
                 /\ In (episode_of folder_path (fst entry)) eps)
  /\ (forall season_name eps, In (season_name, eps) seasons ->
        Sorted (fun a b => parse_episode_number (Episode.name a)
                           <= parse_episode_number (Episode.name b)) eps).
Proof.
  intros Hfs H.
  destruct (groups_of_folder _ _ _ _ _ Hfs H) as (d & (Hnd & Heps & Hkeys) & ->).
  split.
  - intros entry Hin He.
    specialize (Hkeys entry Hin He).
    apply in_map_iff in Hkeys as [[k eps] [Hk Hd]]. simpl in Hk. subst k.
    exists (sort_by (fun e => parse_episode_number (Episode.name e)) eps).
    split.
    + apply in_map_iff. exists (season_key (fst entry), eps). auto.
    + apply sort_by_In. rewrite (Heps _ _ Hd). unfold episodes_of.
      apply in_map_iff. exists entry. split; [reflexivity|].
      apply filter_In. split; [assumption|].
      now rewrite He, str_eqb_refl.
  - intros k eps Hin.
    apply in_map_iff in Hin as [[k' eps'] [[= <- <-] Hin]].
    apply (sort_by_sorted (fun e => parse_episode_number (Episode.name e))).
Qed.

Lemma parse_series_folder_complete_witness :
  (forall entry,
     In entry [(txt "S01E02 - Beta.mkv", File); (txt "S01E01 - Alpha.mkv", File)] ->
     is_episode_file video_exts_default entry = true ->
     exists eps,
       In (season_key (fst entry), eps)
          [ (txt "Season 1",
             [ Episode.init (txt "Beta") (txt "/tv/Show/S01E02 - Beta.mkv");
               Episode.init (txt "Alpha") (txt "/tv/Show/S01E01 - Alpha.mkv") ]) ]
       /\ In (episode_of (txt "/tv/Show") (fst entry)) eps)
  /\ (forall season_name eps,
        In (season_name, eps)
           [ (txt "Season 1",
              [ Episode.init (txt "Beta") (txt "/tv/Show/S01E02 - Beta.mkv");
                Episode.init (txt "Alpha") (txt "/tv/Show/S01E01 - Alpha.mkv") ]) ] ->
        Sorted (fun a b => parse_episode_number (Episode.name a)
                           <= parse_episode_number (Episode.name b)) eps).
Proof.
  apply (parse_series_folder_complete show_folder (txt "/tv/Show")
           video_exts_default); reflexivity.
Defined.

(** ** The three tests for a video file *)

Lemma lower_app a b : lower (a ++ b) = lower a ++ lower b.
Proof. apply map_app. Qed.

Lemma video_exts_set_known e : In e video_exts_set -> In e VIDEO_EXTS.
Proof.
  unfold video_exts_set, VIDEO_EXTS. cbn [map].
  intros H. repeat (destruct H as [<-|H]; [cbn; tauto|]). destruct H.
Qed.

Lemma video_exts_default_known e : In e video_exts_default -> In e VIDEO_EXTS.
Proof.
  unfold video_exts_default, VIDEO_EXTS. cbn [map].
  intros H. repeat (destruct H as [<-|H]; [cbn; tauto|]). destruct H.
Qed.

(** X8.  What the flat listing or the season grouper takes for a video,
    the library scan takes for one too: the extension sets of
    [is_video_file] and of [parse_series_folder] lie within
    [VIDEO_EXTS], and an extension found by [os.path.splitext] is a
    suffix of the name. *)
Theorem video_tests_within_scan (name : str) :
  (is_video_file name = true -> endswith_any (lower name) VIDEO_EXTS = true)
  /\ (endswith_any (lower name) video_exts_default = true ->
      endswith_any (lower name) VIDEO_EXTS = true).
Proof.
  unfold is_video_file, endswith_any. split.
  - intros (e & Hin & E%str_eqb_eq)%existsb_exists.
    apply existsb_exists. exists e. split; [now apply video_exts_set_known|].
    apply endswith_iff. exists (lower (fst (splitext name))).
    rewrite <- E, <- lower_app, splitext_app. reflexivity.
  - intros (e & Hin & E)%existsb_exists.
    apply existsb_exists. exists e. split; [now apply video_exts_default_known|].
    exact E.
Qed.

Lemma video_tests_within_scan_witness :
  endswith_any (lower (txt "Trailer.MOV")) VIDEO_EXTS = true
  /\ endswith_any (lower (txt "S01E01.Mkv")) VIDEO_EXTS = true.
Proof.
  split.
  - apply (proj1 (video_tests_within_scan (txt "Trailer.MOV"))). reflexivity.
  - apply (proj2 (video_tests_within_scan (txt "S01E01.Mkv"))). reflexivity.
Defined.

(** ** Flat listing *)


Lemma list_videos_flat_from fs folders acc flat :
  fold_left (fun acc folder =>
    bind acc (fun videos =>
      match fs folder with
      | None => Ok videos
      | Some nd =>
          if false then
            Ok (videos ++
                flat_map (fun '(root, _, files) =>
                            map (join root) (List.filter has_video_ext files))
                         (walk folder nd))
          else
            bind (scandir fs folder) (fun entries =>
              Ok (videos ++
                  map (fun e => join folder (fst e))
                      (List.filter (fun e => is_file (snd e) && has_video_ext (fst e))
                                   entries)))
      end)) folders (Ok acc)
  = Ok flat ->
  forall p, In p flat ->
    In p acc
    \/ exists folder entries name,
         In folder folders /\ fs folder = Some (Dir entries)
         /\ In (name, File) entries /\ has_video_ext name = true
         /\ p = join folder name.
Proof.
  revert acc. induction folders as [|folder folders IH]; intros acc.
  - simpl. intros [= <-] p Hp. now left.
  - cbn [fold_left bind]. unfold scandir.
    destruct (fs folder) as [[|entries|]|] eqn:Efs; cbn [bind].
    + intros H. exfalso. clear -H.
      induction folders as [|f fs' IH]; [discriminate|]. exact (IH H).
    + intros H p Hp. destruct (IH _ H p Hp) as [Hin|(f & es & n & Hf & R)].
      * apply in_app_or in Hin as [Hin|Hin]; [now left|]. right.
        apply in_map_iff in Hin as ([name nd] & <- & [Hn [Hfile Hv]%andb_prop]%filter_In).
        simpl in Hfile, Hv. destruct nd; try discriminate.
        exists folder, entries, name. repeat split; auto. now left.
      * right. exists f, es, n. split; [now right|exact R].
    + intros H. exfalso. clear -H.
      induction folders as [|f fs' IH]; [discriminate|]. exact (IH H).
    + intros H p Hp. destruct (IH _ H p Hp) as [Hin|(f & es & n & Hf & R)].
      * now left.
      * right. exists f, es, n. split; [now right|exact R].
Qed.

(** The listing of the top level, when it returns: the regular files
    with a video extension among the direct children of the configured
    folders, in the order of the folders and of their entries. *)
Lemma list_videos_flat_exact fs folders acc flat :
  fold_left (fun acc folder =>
    bind acc (fun videos =>
      match fs folder with
      | None => Ok videos
      | Some nd =>
          if false then
            Ok (videos ++
                flat_map (fun '(root, _, files) =>
                            map (join root) (List.filter has_video_ext files))
                         (walk folder nd))
          else
            bind (scandir fs folder) (fun entries =>
              Ok (videos ++
                  map (fun e => join folder (fst e))
                      (List.filter (fun e => is_file (snd e) && has_video_ext (fst e))
                                   entries)))
      end)) folders (Ok acc)
  = Ok flat ->
  flat = acc ++
         flat_map (fun folder =>
                     match fs folder with
                     | Some (Dir entries) =>
                         map (fun e => join folder (fst e))
                             (List.filter
                                (fun e => is_file (snd e) && is_video_file (fst e))
                                entries)
                     | _ => []
                     end) folders.
Proof.
  revert acc. induction folders as [|folder folders IH]; intros acc.
  - simpl. intros [= <-]. now rewrite app_nil_r.
  - cbn [fold_left bind flat_map]. unfold scandir.
    destruct (fs folder) as [[|entries|]|] eqn:Efs; cbn [bind].
    + intros H. exfalso. clear -H.
      induction folders as [|f fs' IH]; [discriminate|]. exact (IH H).
    + intros H. rewrite (IH _ H). now rewrite app_assoc.
    + intros H. exfalso. clear -H.
      induction folders as [|f fs' IH]; [discriminate|]. exact (IH H).
    + intros H. now rewrite (IH _ H).
Qed.

(** A folder that is missing is passed over. *)
Lemma list_videos_skip_missing fs folders recursive :
  list_videos_in_dirs fs folders recursive
  = list_videos_in_dirs fs (List.filter (exists_path fs) folders) recursive.
Proof.
  unfold list_videos_in_dirs. generalize (Ok [] : result (list str)).
  induction folders as [|folder folders IH]; intros acc; [reflexivity|].
  cbn [fold_left List.filter]. unfold exists_path at 1.
  destruct (fs folder) as [nd|] eqn:Efs.
  - cbn [fold_left]. rewrite Efs. apply IH.
  - rewrite <- IH. f_equal. now destruct acc.
Qed.



Lemma fold_bind_raise {A B} (f : A -> B -> result A) l e :
  fold_left (fun acc x => bind acc (fun a => f a x)) l (Raise e) = Raise e.
Proof. induction l as [|x l IH]; [reflexivity|exact IH]. Qed.

Lemma fold_bind_outcome {A B} (f : A -> B -> result A) (bad : B -> Prop) e0 l :
  (forall a x, (exists a', f a x = Ok a') \/ (f a x = Raise e0 /\ bad x)) ->
  (forall a x, bad x -> f a x = Raise e0) ->
  forall a,
    (exists a', fold_left (fun acc x => bind acc (fun a => f a x)) l (Ok a) = Ok a'
                /\ forall x, In x l -> ~ bad x)
    \/ (fold_left (fun acc x => bind acc (fun a => f a x)) l (Ok a) = Raise e0
        /\ exists x, In x l /\ bad x).
Proof.
  intros Hf Hbad. induction l as [|x l IH]; intros a.
  - left. exists a. split; [reflexivity|intros ? []].
  - cbn [fold_left bind].
    destruct (Hf a x) as [[a' E]|[E Hx]]; rewrite E.
    + destruct (IH a') as [(a'' & E' & Hall)|(E' & y & Hy & By)].
      * left. exists a''. split; [exact E'|].
        intros y [Hy|Hy]; [|auto]. subst y. intros By.
        rewrite (Hbad a x By) in E. discriminate.
      * right. split; [exact E'|]. exists y. split; [now right|exact By].
    + right. split; [apply fold_bind_raise|]. exists x. split; [now left|exact Hx].
Qed.

(** X10.  A configured folder that exists and is not a directory makes
    the listing of the top level raise; a folder that is missing is
    passed over, in either mode; and when the listing of the top level
    returns, it returns the regular files with a video extension among
    the direct children of the configured folders, in the order of the
    folders and of their entries. *)
Theorem list_videos_in_dirs_flat_raises fs folders :
  ((exists folder nd, In folder folders /\ fs folder = Some nd /\ is_dir nd = false) ->
   exists e, list_videos_in_dirs fs folders false = Raise e)
  /\ (forall recursive,
        list_videos_in_dirs fs folders recursive
        = list_videos_in_dirs fs (List.filter (exists_path fs) folders) recursive)
  /\ (forall flat, list_videos_in_dirs fs folders false = Ok flat ->
        flat = flat_map (fun folder =>
                           match fs folder with
                           | Some (Dir entries) =>
                               map (fun e => join folder (fst e))
                                   (List.filter
                                      (fun e => is_file (snd e) && is_video_file (fst e))
                                      entries)
                           | _ => []
                           end) folders).
Proof.
  split; [|split; [apply list_videos_skip_missing|
                   intros flat H; exact (list_videos_flat_exact fs folders [] flat H)]].
  pose (bad := fun folder => exists nd, fs folder = Some nd /\ is_dir nd = false).
  pose (f := fun (videos : list str) folder =>
      match fs folder with
      | None => Ok videos
      | Some nd =>
          if false then
            Ok (videos ++
                flat_map (fun '(root, _, files) =>
                            map (join root) (List.filter has_video_ext files))
                         (walk folder nd))
          else
            bind (scandir fs folder) (fun entries =>
              Ok (videos ++
                  map (fun e => join folder (fst e))
                      (List.filter (fun e => is_file (snd e) && has_video_ext (fst e))
                                   entries)))
      end).
  assert (Hf : forall a x, (exists a', f a x = Ok a') \/
                           (f a x = Raise NotADirectoryError /\ bad x)).
  { intros a x. unfold f, bad, scandir.
    destruct (fs x) as [[|es|]|]; simpl; eauto. }
  assert (Hbad : forall a x, bad x -> f a x = Raise NotADirectoryError).
  { intros a x (nd & E & Hd). unfold f, scandir. rewrite E.
    destruct nd; try discriminate; reflexivity. }
  destruct (fold_bind_outcome f bad NotADirectoryError folders Hf Hbad [])
    as [(a' & E & Hall)|(E & x & Hx & nd & Efs & Hd)];
    change (fold_left _ folders (Ok [])) with (list_videos_in_dirs fs folders false) in E;
    rewrite E.
  - intros (folder & nd & Hin & Efs & Hd). exfalso.
    apply (Hall folder Hin). now exists nd.
  - eauto.
Qed.

Lemma list_videos_in_dirs_flat_raises_witness :
  exists e, list_videos_in_dirs file_as_folder [txt "/gone"; txt "/media/a.mkv"] false
            = Raise e.
Proof.
  apply (proj1 (list_videos_in_dirs_flat_raises file_as_folder
                  [txt "/gone"; txt "/media/a.mkv"])).
  exists (txt "/media/a.mkv"), File. repeat split. right. now left.
Defined.

(** A folder that is missing is passed over by the scan. *)
Lemma refresh_list_skip_missing fs folders :
  LibraryWindow.refresh_list fs folders
  = LibraryWindow.refresh_list fs (List.filter (exists_path fs) folders).
Proof.
  unfold LibraryWindow.refresh_list. generalize (Ok [] : result (list item)).
  induction folders as [|folder folders IH]; intros acc; [reflexivity|].
  cbn [fold_left List.filter].
  destruct (exists_path fs folder) eqn:Ex.
  - cbn [fold_left]. rewrite Ex. apply IH.
  - rewrite <- IH. f_equal. now destruct acc.
Qed.

(** X11.  A configured folder that exists and is not a directory makes
    the library scan raise; a folder that is missing is passed over. *)
Theorem refresh_list_raises fs folders :
  ((exists folder nd, In folder folders /\ fs folder = Some nd /\ is_dir nd = false) ->
   exists e, LibraryWindow.refresh_list fs folders = Raise e)
  /\ LibraryWindow.refresh_list fs folders
     = LibraryWindow.refresh_list fs (List.filter (exists_path fs) folders).
Proof.
  split; [|apply refresh_list_skip_missing].
  pose (bad := fun folder => exists nd, fs folder = Some nd /\ is_dir nd = false).
  pose (f := fun (items : list item) folder =>
      if negb (exists_path fs folder) then Ok items
      else bind (scandir fs folder) (fun entries =>
             Ok (fold_left (LibraryWindow.scan_entry folder) entries items))).
  assert (Hf : forall a x, (exists a', f a x = Ok a') \/
                           (f a x = Raise NotADirectoryError /\ bad x)).
  { intros a x. unfold f, bad, exists_path, scandir.
    destruct (fs x) as [[|es|]|]; simpl; eauto. }
  assert (Hbad : forall a x, bad x -> f a x = Raise NotADirectoryError).
  { intros a x (nd & E & Hd). unfold f, exists_path, scandir. rewrite E.
    destruct nd; try discriminate; reflexivity. }
  destruct (fold_bind_outcome f bad NotADirectoryError folders Hf Hbad [])
    as [(a' & E & Hall)|(E & x & Hx & nd & Efs & Hd)];
    change (fold_left _ folders (Ok [])) with (LibraryWindow.refresh_list fs folders) in E;
    rewrite E.
  - intros (folder & nd & Hin & Efs & Hd). exfalso.
    apply (Hall folder Hin). now exists nd.
  - eauto.
Qed.

Lemma refresh_list_raises_witness :
  exists e, LibraryWindow.refresh_list file_as_folder [txt "/gone"; txt "/media/a.mkv"]
            = Raise e.
Proof.
  apply (proj1 (refresh_list_raises file_as_folder
                  [txt "/gone"; txt "/media/a.mkv"])).
  exists (txt "/media/a.mkv"), File. repeat split. right. now left.
Defined.

(** ** Keys and files of the cache *)

Lemma join_absolute a b : join a ("/"%char :: b) = "/"%char :: b.
Proof. unfold join. destruct b; reflexivity. Qed.

(** Distinct keys make distinct paths. *)
Lemma join_suffix_inj dir ext k k' :
  dir <> [] -> last dir <> Some "/"%char -> ext <> [] ->
  (forall c, head dir = Some c -> chr_eqb c "/" = false) ->
  join dir (k ++ ext) = join dir (k' ++ ext) -> k = k'.
Proof.
  intros Hne Hl Hext Hhead.
  assert (Hcase : forall k,
            (exists b, k ++ ext = "/"%char :: b /\ join dir (k ++ ext) = k ++ ext)
            \/ (exists c b, k ++ ext = c :: b /\ chr_eqb c "/" = false
                            /\ join dir (k ++ ext) = dir ++ "/"%char :: k ++ ext)).
  { intros q. destruct (q ++ ext) as [|c b] eqn:E.
    - apply app_eq_nil in E as [_ E]. congruence.
    - destruct (chr_eqb c "/") eqn:Ec.
      + apply chr_eqb_eq in Ec. subst c. left. exists b.
        split; [reflexivity|apply join_absolute].
      + right. exists c, b. repeat split; auto. now apply join_relative. }
  destruct (Hcase k) as [(b & E & ->)|(c & b & E & Hc & ->)];
    destruct (Hcase k') as [(b' & E' & ->)|(c' & b' & E' & Hc' & ->)].
  - apply app_inv_tail.
  - intros H. exfalso. rewrite E in H.
    destruct dir as [|d dir]; [congruence|]. injection H as <- _.
    specialize (Hhead "/"%char eq_refl). discriminate.
  - intros H. exfalso. rewrite E' in H.
    destruct dir as [|d dir]; [congruence|]. injection H as -> _.
    specialize (Hhead "/"%char eq_refl). discriminate.
  - intros H. apply app_inv_head in H. injection H as H. now apply app_inv_tail in H.
Qed.

Lemma metadata_path_inj k k' : metadata_path k = metadata_path k' -> k = k'.
Proof.
  unfold metadata_path. apply join_suffix_inj; try discriminate.
  intros c [= <-]. reflexivity.
Qed.

Lemma poster_path_of_inj k k' : poster_path_of k = poster_path_of k' -> k = k'.
Proof.
  unfold poster_path_of. apply join_suffix_inj; try discriminate.
  intros c [= <-]. reflexivity.
Qed.

Lemma poster_path_no_sep k :
  no_sep k = true -> poster_path_of k = POSTER_DIR ++ txt "/" ++ k ++ txt ".jpg".
Proof. intros Hk. unfold poster_path_of. apply join_no_sep; auto; discriminate. Qed.

Lemma resolve_poster_path (k : str) (posters : gmap str str) :
  no_sep k = true ->
  resolve POSTER_DIR posters (poster_path_of k) = Ok (poster_path_of k).
Proof.
  intros Hk. rewrite (poster_path_no_sep k Hk).
  apply resolve_name.
  - now rewrite no_sep_app, Hk.
  - rewrite length_app. simpl. lia.
Qed.

(** [./] before a key changes the path and not the file. *)
Lemma resolve_dot_slash {A} (dir : str) (files : gmap str A) (name : str) :
  no_sep name = true -> 3 <= length name ->
  resolve dir files (dir ++ txt "/" ++ txt "./" ++ name) = Ok (dir ++ txt "/" ++ name).
Proof.
  intros Hs Hl. unfold resolve.
  rewrite (app_assoc dir), remove_prefix_app.
  change (split_on "/" (txt "./" ++ name))
    with (match split_on "/" ([] ++ "/"%char :: name) with
          | w :: ws => ("."%char :: w) :: ws
          | [] => [["."%char]]
          end).
  cbn [app split_on chr_eqb Ascii.eqb Bool.eqb andb].
  rewrite <- (descend_name dir files name Hs Hl).
  rewrite (split_on_no_sep name Hs).
  destruct name; [simpl in Hl; lia|reflexivity].
Qed.

Lemma metadata_path_dot_slash (k : str) (files : gmap str file_text) :
  no_sep k = true ->
  resolve METADATA_DIR files (metadata_path (txt "./" ++ k)) = Ok (metadata_path k).
Proof.
  intros Hk. rewrite (metadata_path_no_sep k Hk).
  unfold metadata_path.
  change ((txt "./" ++ k) ++ txt ".json") with ("."%char :: "/"%char :: k ++ txt ".json").
  rewrite join_relative by (reflexivity || discriminate).
  apply (resolve_dot_slash METADATA_DIR files (k ++ txt ".json")).
  - now rewrite no_sep_app, Hk.
  - rewrite length_app. simpl. lia.
Qed.

(** X12.  Keys without a path separator that differ name different
    files: reading the metadata of one, even where the read removes a
    file, or writing it leaves what is read under the other as it was.
    With a separator this fails: [./] before a key names the file of
    the key. *)
Theorem metadata_keys_independent (k k' : str) (data : metadata)
    (files : gmap str file_text) :
  no_sep k = true -> no_sep k' = true -> k <> k' ->
  fst (get_cached_metadata k' (snd (get_cached_metadata k files)))
    = fst (get_cached_metadata k' files)
  /\ (forall files', save_metadata k data files = Ok files' ->
        fst (get_cached_metadata k' files') = fst (get_cached_metadata k' files))
  /\ get_cached_metadata (txt "./" ++ k) files = get_cached_metadata k files.
Proof.
  intros Hk Hk' Hne.
  assert (Hp : metadata_path k <> metadata_path k')
    by (intros E; now apply metadata_path_inj in E).
  assert (Hget : forall f : gmap str file_text,
            f !! metadata_path k' = files !! metadata_path k' ->
            fst (get_cached_metadata k' f) = fst (get_cached_metadata k' files)).
  { intros f E. unfold get_cached_metadata.
    rewrite !(resolve_metadata_path k' _ Hk'), E.
    destruct (files !! metadata_path k') as [[?|?|?]|]; reflexivity. }
  split; [|split].
  - apply Hget. unfold get_cached_metadata.
    rewrite (resolve_metadata_path k files Hk).
    destruct (files !! metadata_path k) as [[r|raw|raw]|]; cbn [snd]; try reflexivity.
    now apply lookup_delete_ne.
  - unfold save_metadata.
    destruct (int_list (default [] (md_genres data))); cbn [bind]; [|discriminate].
    rewrite (resolve_metadata_path k files Hk). cbn [bind].
    intros files' [= <-]. apply Hget. now apply lookup_insert_ne.
  - unfold get_cached_metadata.
    now rewrite (metadata_path_dot_slash k files Hk), (resolve_metadata_path k files Hk).
Qed.

Lemma metadata_keys_independent_witness :
  fst (get_cached_metadata (txt "Alien")
         (snd (get_cached_metadata (txt "Aliens")
                 {[ metadata_path (txt "Aliens") := Garbage (txt "{") ]})))
    = fst (get_cached_metadata (txt "Alien")
             {[ metadata_path (txt "Aliens") := Garbage (txt "{") ]}).
Proof.
  refine (proj1 (metadata_keys_independent (txt "Aliens") (txt "Alien")
                   {| md_title := None; md_overview := None; md_genres := None |}
                   _ _ _ _)); [reflexivity|reflexivity|discriminate].
Defined.

(** X13.  A second read of a key returns what the first returned and
    changes nothing: the file that a read deletes is gone for the next
    one, which reports absent again. *)
Theorem get_cached_metadata_again (k : str) (files : gmap str file_text) :
  get_cached_metadata k (snd (get_cached_metadata k files))
  = get_cached_metadata k files.
Proof.
  unfold get_cached_metadata at 2 3.
  destruct (resolve METADATA_DIR files (metadata_path k)) as [file|e] eqn:R.
  - destruct (files !! file) as [[r|raw|raw]|] eqn:E; cbn [snd];
      unfold get_cached_metadata;
      rewrite ?(resolve_stable _ _ (delete file files) _ _ R), ?R, ?E,
        ?lookup_delete_eq; reflexivity.
  - cbn [snd]. unfold get_cached_metadata. now rewrite R.
Qed.

(** X14.  A write replaces whatever the file of the key held, a record
    or text that cannot be parsed: the next read returns the title and
    the overview as [str] made them, with the empty string for a missing
    one, and the genre ids as [int] made them; and the directory after
    two writes to a key is the directory after the second alone. *)
Theorem save_metadata_overwrites (k : str) (d1 d2 : metadata)
    (files f1 f2 : gmap str file_text) :
  save_metadata k d1 files = Ok f1 ->
  save_metadata k d2 f1 = Ok f2 ->
  save_metadata k d2 files = Ok f2
  /\ exists r,
       get_cached_metadata k f2 = (Ok (Some r), f2)
       /\ CacheRecord.title r = py_str (default (AStr []) (md_title d2))
       /\ CacheRecord.overview r = py_str (default (AStr []) (md_overview d2))
       /\ int_list (default [] (md_genres d2)) = Ok (CacheRecord.genres r).
Proof.
  intros H1 H2. split; [|now apply (get_after_save k d2 f1)].
  unfold save_metadata in *.
  destruct (int_list (default [] (md_genres d1))); cbn [bind] in H1; [|discriminate].
  destruct (int_list (default [] (md_genres d2))); cbn [bind] in *; [|discriminate].
  destruct (resolve METADATA_DIR files (metadata_path k)) as [file|e] eqn:R;
    cbn [bind] in *; [|discriminate].
  rewrite (resolve_stable _ _ f1 _ _ R) in H2. cbn [bind] in H2.
  injection H1 as <-. injection H2 as <-.
  now rewrite insert_insert_eq.
Qed.

Lemma save_metadata_overwrites_witness :
  save_metadata (txt "Heat")
    {| md_title := None; md_overview := Some ANone; md_genres := Some [ABool true] |}
    {[ metadata_path (txt "Heat") := Garbage (txt "{") ]}
  = Ok (<[ metadata_path (txt "Heat") :=
             Document {| CacheRecord.title := [];
                         CacheRecord.overview := txt "None";
                         CacheRecord.genres := [1%Z] |} ]>
          (<[ metadata_path (txt "Heat") :=
                Document {| CacheRecord.title := txt "Heat";
                            CacheRecord.overview := [];
                            CacheRecord.genres := [] |} ]>
             {[ metadata_path (txt "Heat") := Garbage (txt "{") ]})).
Proof.
  refine (proj1 (save_metadata_overwrites (txt "Heat")
            {| md_title := Some (AStr (txt "Heat")); md_overview := None;
               md_genres := None |}
            {| md_title := None; md_overview := Some ANone;
               md_genres := Some [ABool true] |}
            {[ metadata_path (txt "Heat") := Garbage (txt "{") ]} _ _ _ _));
    reflexivity.
Defined.

(** ** Posters *)

(** X15.  When [download_poster] returns a path, it is the path of the
    name, the request had succeeded, the file that the path names holds
    the body of the response and nothing else has changed, and
    [get_cached_poster] returns the path for the same name.  When it
    returns [None], nothing is written, and it does so whenever the
    request fails.  For a name that is the name of a file a request
    that succeeds is stored, and the posters of other such names are as
    before. *)
Theorem download_then_get_poster (http_get : str -> option str)
    (poster_path filename : str) (posters : gmap str str) :
  match download_poster http_get poster_path filename posters with
  | (Some path, posters') =>
      path = poster_path_of filename
      /\ get_cached_poster filename posters' = Some path
      /\ exists data file,
           http_get (txt "https://image.tmdb.org/t/p/original" ++ poster_path)
             = Some data
           /\ resolve POSTER_DIR posters path = Ok file
           /\ posters' = <[file := data]> posters
  | (None, posters') => posters' = posters
  end
  /\ (http_get (txt "https://image.tmdb.org/t/p/original" ++ poster_path) = None ->
      fst (download_poster http_get poster_path filename posters) = None)
  /\ (file_key filename = true ->
      forall data,
        http_get (txt "https://image.tmdb.org/t/p/original" ++ poster_path)
          = Some data ->
        download_poster http_get poster_path filename posters
          = (Some (poster_path_of filename),
             <[poster_path_of filename := data]> posters)
        /\ forall other, no_sep other = true -> other <> filename ->
             get_cached_poster other (<[poster_path_of filename := data]> posters)
             = get_cached_poster other posters).
Proof.
  unfold download_poster. split; [|split].
  - destruct (http_get _) as [data|]; [|reflexivity].
    destruct (resolve POSTER_DIR posters (poster_path_of filename)) as [file|e] eqn:R;
      [|reflexivity].
    split; [reflexivity|]. split; [|eauto].
    unfold get_cached_poster.
    now rewrite (resolve_stable _ _ (<[file := data]> posters) _ _ R), lookup_insert_eq.
  - now intros ->.
  - intros Hk%file_key_no_sep data ->.
    rewrite (resolve_poster_path filename posters Hk). split; [reflexivity|].
    intros other Ho Hne. unfold get_cached_poster.
    rewrite !(resolve_poster_path other _ Ho).
    rewrite lookup_insert_ne; [reflexivity|].
    intros H. apply poster_path_of_inj in H. congruence.
Qed.

Lemma download_then_get_poster_witness :
  download_poster (fun _ => Some (txt "JFIF")) (txt "/abc.jpg") (txt "Heat") ∅
  = (Some (poster_path_of (txt "Heat")),
     <[poster_path_of (txt "Heat") := txt "JFIF"]> ∅).
Proof.
  refine (proj1 (proj2 (proj2 (download_then_get_poster (fun _ => Some (txt "JFIF"))
                                 (txt "/abc.jpg") (txt "Heat") ∅))
                   _ (txt "JFIF") _)); reflexivity.
Defined.

(** ** Items on the next scan *)





(** X18.  [fetch_series_metadata] saves under the name it was asked
    for: when it returns a dictionary, [get_cached_metadata] of that
    name gives its title and overview as strings and its genres, and a
    poster path in it is what [get_cached_poster] returns; when it
    returns [None], neither cache directory has changed. *)
Theorem fetch_series_metadata_cached (tv_search : str -> option (list series_hit))
    (http_get : str -> option str) (series_name : str)
    (files : gmap str file_text) (posters : gmap str str) :
  match fetch_series_metadata tv_search http_get series_name files posters with
  | (Some meta, files', posters') =>
      fst (get_cached_metadata series_name files')
        = Ok (Some {| CacheRecord.title := py_str (sm_title meta);
                      CacheRecord.overview := py_str (sm_overview meta);
                      CacheRecord.genres := sm_genres meta |})
      /\ match sm_poster_path meta with
         | Some p => get_cached_poster series_name posters' = Some p
         | None => True
         end
  | (None, files', posters') => files' = files /\ posters' = posters
  end.
Proof.
  unfold fetch_series_metadata.
  destruct (tv_search series_name) as [[|best rest]|]; auto.
  destruct (int_list _) as [gs|e]; auto.
  unfold save_metadata. cbn [md_genres md_title md_overview default].
  unfold id. rewrite int_list_ints. cbn [bind].
  destruct (resolve METADATA_DIR files (metadata_path series_name)) as [file|e] eqn:R;
    cbn [bind]; auto.
  assert (Hget : forall t o,
    fst (get_cached_metadata series_name
           (<[file :=
                Document {| CacheRecord.title := t; CacheRecord.overview := o;
                            CacheRecord.genres := gs |}]> files))
    = Ok (Some {| CacheRecord.title := t; CacheRecord.overview := o;
                  CacheRecord.genres := gs |})).
  { intros t o. unfold get_cached_metadata.
    now rewrite (resolve_stable _ _ _ _ _ R), lookup_insert_eq. }
  destruct (sh_poster_path best) as [[|c pp]|];
    try (cbn [sm_title sm_overview sm_genres sm_poster_path];
         split; [apply Hget|exact I]).
  unfold download_poster.
  destruct (http_get _) as [data|];
    [|cbn [sm_title sm_overview sm_genres sm_poster_path];
      split; [apply Hget|exact I]].
  destruct (resolve POSTER_DIR posters (poster_path_of series_name)) as [pf|e] eqn:P;
    cbn [sm_title sm_overview sm_genres sm_poster_path];
    (split; [apply Hget|]); [|exact I].
  unfold get_cached_poster.
  now rewrite (resolve_stable _ _ _ _ _ P), lookup_insert_eq.
Qed.

(** ** Clock strings *)

Example format_seconds_examples :
  format_seconds 0 = txt "00:00"
  /\ format_seconds 59 = txt "00:59"
  /\ format_seconds 3599 = txt "59:59"
  /\ format_seconds 3600 = txt "01:00:00"
  /\ format_seconds 360000 = txt "100:00:00"
  /\ format_seconds_shadowed (-1) = txt "59:59".
Proof. repeat split; reflexivity. Qed.

Lemma to_uint_nonnil n : Nat.to_uint n <> Decimal.Nil.
Proof.
  rewrite <- (Unsigned.of_to n) at 1. rewrite Unsigned.to_of.
  apply unorm_nonnil.
Qed.

Lemma digits_value_str_of_nat n : digits_value (str_of_nat n) = Some n.
Proof.
  unfold digits_value, str_of_nat, txt.
  rewrite string_of_list_ascii_of_string.
  pose proof (NilZero.usu (Nat.to_uint n) (to_uint_nonnil n)) as H.
  unfold NilZero.uint_of_string in H.
  destruct (NilZero.string_of_uint (Nat.to_uint n)); [discriminate|].
  rewrite H. simpl. now rewrite Unsigned.of_to.
Qed.

Lemma str_of_nat_inj n n' : str_of_nat n = str_of_nat n' -> n = n'.
Proof.
  intros E. apply (f_equal digits_value) in E.
  rewrite !digits_value_str_of_nat in E. congruence.
Qed.

Lemma digits_value_zero s n :
  digits_value s = Some n -> digits_value ("0"%char :: s) = Some n.
Proof.
  unfold digits_value. simpl.
  destruct (NilEmpty.uint_of_string (string_of_list_ascii s)); simpl; [|discriminate].
  intros [= <-]. reflexivity.
Qed.

Lemma digits_value_fmt02 n :
  (0 <= n)%Z -> digits_value (fmt02 n) = Some (Z.to_nat n).
Proof.
  intros Hn. unfold fmt02.
  destruct (Z.ltb_spec n 0); [lia|].
  destruct (n <? 10)%Z;
    [apply digits_value_zero|]; apply digits_value_str_of_nat.
Qed.

Lemma fmt02_inj a b : (0 <= a)%Z -> (0 <= b)%Z -> fmt02 a = fmt02 b -> a = b.
Proof.
  intros Ha Hb E. apply (f_equal digits_value) in E.
  rewrite !digits_value_fmt02 in E by assumption.
  injection E as E. lia.
Qed.

Lemma fmt02_length_below_60 n : n < 60 -> length (fmt02 (Z.of_nat n)) = 2.
Proof.
  intros H. do 60 (destruct n as [|n]; [reflexivity|]). lia.
Qed.

Lemma fmt02_length_60 z : (0 <= z < 60)%Z -> length (fmt02 z) = 2.
Proof.
  intros H. rewrite <- (Z2Nat.id z) by lia. apply fmt02_length_below_60. lia.
Qed.

(** X19.  The clock string tells the time: two non-negative numbers of
    seconds that [format_seconds] shows alike are equal; and whatever is
    not positive is shown as [00:00]. *)
Theorem format_seconds_injective (a b : Z) :
  ((0 <= a)%Z -> (0 <= b)%Z -> format_seconds a = format_seconds b -> a = b)
  /\ ((a <= 0)%Z -> format_seconds a = txt "00:00").
Proof.
  split.
  - intros Ha Hb. unfold format_seconds.
    rewrite !Z.max_r by assumption.
    pose proof (Z.mod_pos_bound a 3600 ltac:(lia)).
    pose proof (Z.mod_pos_bound b 3600 ltac:(lia)).
    pose proof (Z.mod_pos_bound a 60 ltac:(lia)) as Sa.
    pose proof (Z.mod_pos_bound b 60 ltac:(lia)) as Sb.
    assert (Ma : (0 <= (a mod 3600) / 60 < 60)%Z)
      by (split; [apply Z.div_pos; lia|apply Z.div_lt_upper_bound; lia]).
    assert (Mb : (0 <= (b mod 3600) / 60 < 60)%Z)
      by (split; [apply Z.div_pos; lia|apply Z.div_lt_upper_bound; lia]).
    assert (Hha : (0 <= a / 3600)%Z) by (apply Z.div_pos; lia).
    assert (Hhb : (0 <= b / 3600)%Z) by (apply Z.div_pos; lia).
    set (ha := (a / 3600)%Z) in *. set (hb := (b / 3600)%Z) in *.
    set (ma := ((a mod 3600) / 60)%Z) in *. set (mb := ((b mod 3600) / 60)%Z) in *.
    set (sa := (a mod 60)%Z) in *. set (sb := (b mod 60)%Z) in *.
    intros E.
    assert (Tail : forall (p q : str),
              p ++ fmt02 ma ++ ":"%char :: fmt02 sa
              = q ++ fmt02 mb ++ ":"%char :: fmt02 sb ->
              p = q /\ ma = mb /\ sa = sb).
    { intros p q Epq.
      apply app_inj_2 in Epq as [Ep Et];
        [|rewrite !length_app; simpl; now rewrite !fmt02_length_60].
      apply app_inj_1 in Et as [Em Es]; [|now rewrite !fmt02_length_60].
      injection Es as Es.
      split; [assumption|]. split; apply fmt02_inj; auto; lia. }
    assert (Hh : ha = hb /\ ma = mb /\ sa = sb).
    { destruct (Z.ltb_spec 0 ha), (Z.ltb_spec 0 hb).
      - assert (E' : (fmt02 ha ++ [":"%char]) ++ fmt02 ma ++ ":"%char :: fmt02 sa
                     = (fmt02 hb ++ [":"%char]) ++ fmt02 mb ++ ":"%char :: fmt02 sb)
          by (rewrite <- !app_assoc; exact E).
        apply Tail in E' as (Ep & Em & Es).
        apply app_inv_tail in Ep. split; [now apply fmt02_inj|auto].
      - exfalso.
        assert (E' : (fmt02 ha ++ [":"%char]) ++ fmt02 ma ++ ":"%char :: fmt02 sa
                     = [] ++ fmt02 mb ++ ":"%char :: fmt02 sb)
          by (rewrite <- !app_assoc; exact E).
        apply Tail in E' as (Ep & _). destruct (fmt02 ha); discriminate.
      - exfalso.
        assert (E' : [] ++ fmt02 ma ++ ":"%char :: fmt02 sa
                     = (fmt02 hb ++ [":"%char]) ++ fmt02 mb ++ ":"%char :: fmt02 sb)
          by (rewrite <- !app_assoc; exact E).
        apply Tail in E' as (Ep & _). destruct (fmt02 hb); discriminate.
      - apply (Tail [] []) in E as (_ & Em & Es). split; [lia|auto]. }
    destruct Hh as (Eh & Em & Es). subst ha hb ma mb sa sb.
    rewrite (Z.div_mod a 3600), (Z.div_mod b 3600) by lia.
    rewrite Eh. f_equal.
    rewrite (Z.div_mod (a mod 3600) 60), (Z.div_mod (b mod 3600) 60) by lia.
    rewrite Em. f_equal.
    replace ((a mod 3600) mod 60)%Z with (a mod 60)%Z
      by (symmetry; apply (Z.mod_mod_divide a 3600 60); now exists 60%Z).
    replace ((b mod 3600) mod 60)%Z with (b mod 60)%Z
      by (symmetry; apply (Z.mod_mod_divide b 3600 60); now exists 60%Z).
    exact Es.
  - intros Ha. unfold format_seconds. rewrite Z.max_l by assumption. reflexivity.
Qed.

Lemma format_seconds_injective_witness :
  (3661 = 3661)%Z /\ format_seconds (-5) = txt "00:00".
Proof.
  split.
  - apply (proj1 (format_seconds_injective 3661 3661)); [lia|lia|reflexivity].
  - apply (proj2 (format_seconds_injective (-5) 0)). lia.
Defined.

(** X20.  Both definitions of [format_seconds] in the file show every
    non-negative number of seconds alike: the one that replaces the
    other changes what negative numbers give, nothing else. *)
Theorem format_seconds_definitions_agree (sec : Z) :
  (0 <= sec)%Z -> format_seconds_shadowed sec = format_seconds sec.
Proof.
  intros H. unfold format_seconds_shadowed, format_seconds.
  rewrite Z.max_r by assumption.
  replace (sec / 60 / 60)%Z with (sec / 3600)%Z
    by (rewrite Z.div_div by lia; reflexivity).
  replace ((sec / 60) mod 60)%Z with ((sec mod 3600) / 60)%Z; [reflexivity|].
  change 3600%Z with (60 * 60)%Z.
  rewrite Z.rem_mul_r by lia.
  rewrite Z.mul_comm, Z.div_add by lia.
  rewrite (Z.div_small (sec mod 60)) by (apply Z.mod_pos_bound; lia).
  reflexivity.
Qed.

Lemma format_seconds_definitions_agree_witness :
  format_seconds_shadowed 7325 = format_seconds 7325.
Proof. apply (format_seconds_definitions_agree 7325). lia. Defined.

(** ** Flow layout *)

Lemma sized_tail wid rest : sized (wid :: rest) -> sized rest.
Proof. intros H w Hin. apply H. now right. Qed.

(** Where the rest of the items can land: in the current row to the
    right of [x], or below the current row. *)
Lemma layout_items_region r spacing item_list x y lineHeight :
  (0 <= spacing)%Z -> (0 <= lineHeight)%Z -> sized item_list ->
  forall q, In q (fst (layout_items r spacing false item_list x y lineHeight)) ->
    (ry q = y /\ x <= rx q)%Z \/ (y + lineHeight <= ry q)%Z.
Proof.
  intros Hsp. revert x y lineHeight.
  induction item_list as [|wid rest IH]; intros x y lh Hlh Hs q; [intros []|].
  cbn [layout_items].
  destruct (visible wid) eqn:V; cbn [negb];
    [|apply IH; [assumption|now apply (sized_tail wid)]].
  destruct (Hs wid (or_introl eq_refl) V) as [Hw Hh].
  set (wrap := (rect_right r <? x + hint_width wid)%Z && (0 <? lh)%Z).
  specialize (IH (((if wrap then rx r else x) + hint_width wid + spacing)%Z)
                 (if wrap then (y + lh + spacing)%Z else y)
                 (Z.max (if wrap then 0%Z else lh) (hint_height wid))).
  destruct (layout_items r spacing false rest _ _ _) as [placed height].
  cbn [fst] in *. intros [<-|Hin].
  - cbn [rx ry]. destruct wrap; [right|left]; lia.
  - destruct (IH ltac:(destruct wrap; lia) (sized_tail _ _ Hs) q Hin) as [H|H];
      destruct wrap; lia.
Qed.

Lemma layout_items_apart r spacing item_list x y lineHeight :
  (0 <= spacing)%Z -> (0 <= lineHeight)%Z -> sized item_list ->
  ForallOrdPairs apart
    (fst (layout_items r spacing false item_list x y lineHeight)).
Proof.
  intros Hsp. revert x y lineHeight.
  induction item_list as [|wid rest IH]; intros x y lh Hlh Hs; [constructor|].
  cbn [layout_items].
  destruct (visible wid) eqn:V; cbn [negb];
    [|apply IH; [assumption|now apply (sized_tail wid)]].
  destruct (Hs wid (or_introl eq_refl) V) as [Hw Hh].
  set (wrap := (rect_right r <? x + hint_width wid)%Z && (0 <? lh)%Z).
  pose proof (layout_items_region r spacing rest
                (((if wrap then rx r else x) + hint_width wid + spacing)%Z)
                (if wrap then (y + lh + spacing)%Z else y)
                (Z.max (if wrap then 0%Z else lh) (hint_height wid))
                Hsp ltac:(destruct wrap; lia) (sized_tail _ _ Hs)) as Hreg.
  specialize (IH (((if wrap then rx r else x) + hint_width wid + spacing)%Z)
                 (if wrap then (y + lh + spacing)%Z else y)
                 (Z.max (if wrap then 0%Z else lh) (hint_height wid))
                 ltac:(destruct wrap; lia) (sized_tail _ _ Hs)).
  destruct (layout_items r spacing false rest _ _ _) as [placed height].
  cbn [fst] in *. constructor; [|exact IH].
  apply List.Forall_forall. intros q Hq. unfold apart. cbn [rx ry rwidth rheight].
  destruct (Hreg q Hq) as [H|H]; lia.
Qed.

(** A widget crosses the right edge only when it is the first of its
    row; [at_start] tells that the row is still empty. *)
Lemma layout_items_fit r spacing item_list x y lineHeight :
  sized item_list -> (0 < lineHeight \/ x = rx r)%Z ->
  forall q, In q (fst (layout_items r spacing false item_list x y lineHeight)) ->
    (rx q = rx r \/ rx q + rwidth q <= rect_right r)%Z.
Proof.
  revert x y lineHeight.
  induction item_list as [|wid rest IH]; intros x y lh Hs Hst q; [intros []|].
  cbn [layout_items].
  destruct (visible wid) eqn:V; cbn [negb];
    [|apply IH; [now apply (sized_tail wid)|assumption]].
  destruct (Hs wid (or_introl eq_refl) V) as [Hw Hh].
  destruct (Z.ltb_spec (rect_right r) (x + hint_width wid));
    destruct (Z.ltb_spec 0 lh); cbn [andb];
    match goal with
    | |- In q (fst (let '(_, _) := layout_items r spacing false rest ?a ?b ?c in _)) -> _ =>
        specialize (IH a b c (sized_tail _ _ Hs) ltac:(lia));
        destruct (layout_items r spacing false rest a b c) as [placed height]
    end;
    cbn [fst] in *; (intros [<-|Hin]; [cbn [rx rwidth]; lia|now apply IH]).
Qed.

Lemma layout_items_height r spacing item_list x y lineHeight :
  (0 <= spacing)%Z -> (0 <= lineHeight)%Z -> sized item_list ->
  let '(placed, height) := layout_items r spacing false item_list x y lineHeight in
  (y + lineHeight <= ry r + height)%Z
  /\ forall q, In q placed -> (ry q + rheight q <= ry r + height)%Z.
Proof.
  intros Hsp. revert x y lineHeight.
  induction item_list as [|wid rest IH]; intros x y lh Hlh Hs.
  - cbn. split; [lia|intros q []].
  - cbn [layout_items].
    destruct (visible wid) eqn:V; cbn [negb];
      [|apply IH; [assumption|now apply (sized_tail wid)]].
    destruct (Hs wid (or_introl eq_refl) V) as [Hw Hh].
    set (wrap := (rect_right r <? x + hint_width wid)%Z && (0 <? lh)%Z).
    specialize (IH (((if wrap then rx r else x) + hint_width wid + spacing)%Z)
                   (if wrap then (y + lh + spacing)%Z else y)
                   (Z.max (if wrap then 0%Z else lh) (hint_height wid))
                   ltac:(destruct wrap; lia) (sized_tail _ _ Hs)).
    destruct (layout_items r spacing false rest _ _ _) as [placed height].
    destruct IH as [Htop Hall]. split; [destruct wrap; lia|].
    intros q [<-|Hin]; [cbn [ry rheight]; destruct wrap; lia|auto].
Qed.

Lemma layout_items_test_only r spacing item_list x y lineHeight :
  snd (layout_items r spacing true item_list x y lineHeight)
  = snd (layout_items r spacing false item_list x y lineHeight).
Proof.
  revert x y lineHeight.
  induction item_list as [|wid rest IH]; intros x y lh; [reflexivity|].
  cbn [layout_items]. destruct (visible wid); cbn [negb]; [|apply IH].
  set (wrap := (rect_right r <? x + hint_width wid)%Z && (0 <? lh)%Z).
  specialize (IH (((if wrap then rx r else x) + hint_width wid + spacing)%Z)
                 (if wrap then (y + lh + spacing)%Z else y)
                 (Z.max (if wrap then 0%Z else lh) (hint_height wid))).
  destruct (layout_items r spacing true rest _ _ _) as [p1 h1].
  destruct (layout_items r spacing false rest _ _ _) as [p2 h2].
  exact IH.
Qed.

(** The height does not depend on where the rectangle lies, only on its
    width. *)
Lemma layout_items_shift r r' spacing testOnly item_list x y lineHeight :
  rwidth r' = rwidth r ->
  snd (layout_items r' spacing testOnly item_list
         (x - rx r + rx r')%Z (y - ry r + ry r')%Z lineHeight)
  = snd (layout_items r spacing testOnly item_list x y lineHeight).
Proof.
  intros Hw. revert x y lineHeight.
  induction item_list as [|wid rest IH]; intros x y lh.
  - cbn. lia.
  - cbn [layout_items]. destruct (visible wid); cbn [negb]; [|apply IH].
    assert (E : (rect_right r' <? x - rx r + rx r' + hint_width wid)%Z
                = (rect_right r <? x + hint_width wid)%Z).
    { unfold rect_right. rewrite Hw.
      destruct (Z.ltb_spec (rx r' + rwidth r - 1) (x - rx r + rx r' + hint_width wid));
        destruct (Z.ltb_spec (rx r + rwidth r - 1) (x + hint_width wid));
        reflexivity || lia. }
    rewrite E.
    set (wrap := (rect_right r <? x + hint_width wid)%Z && (0 <? lh)%Z).
    specialize (IH (((if wrap then rx r else x) + hint_width wid + spacing)%Z)
                   (if wrap then (y + lh + spacing)%Z else y)
                   (Z.max (if wrap then 0%Z else lh) (hint_height wid))).
    replace ((if wrap then rx r' else (x - rx r + rx r')%Z) + hint_width wid + spacing)%Z
      with ((if wrap then rx r else x) + hint_width wid + spacing - rx r + rx r')%Z
      by (destruct wrap; lia).
    replace (if wrap then (y - ry r + ry r' + lh + spacing)%Z else (y - ry r + ry r')%Z)
      with ((if wrap then (y + lh + spacing)%Z else y) - ry r + ry r')%Z
      by (destruct wrap; lia).
    destruct (layout_items r' spacing testOnly rest _ _ _) as [p1 h1].
    destruct (layout_items r spacing testOnly rest _ _ _) as [p2 h2].
    exact IH.
Qed.

(** X21.  With a spacing that is not negative and size hints of
    non-negative width and positive height, [doLayout] sets geometries
    no two of which overlap; a widget reaches beyond the right edge of
    the rectangle only at the start of a row; the height returned
    reaches the bottom of every widget; a trial run on the same
    rectangle returns the same height; and so does [heightForWidth] for
    the width of the rectangle, wherever the rectangle lies and
    whatever its height. *)
Theorem doLayout_sound (spacing : Z) (item_list : list widget) (r : rect) :
  (0 <= spacing)%Z -> sized item_list ->
  let '(placed, height) := doLayout spacing item_list r false in
  ForallOrdPairs apart placed
  /\ (forall q, In q placed ->
        (rx q = rx r \/ rx q + rwidth q <= rect_right r)%Z
        /\ (ry q + rheight q <= ry r + height)%Z)
  /\ snd (doLayout spacing item_list r true) = height
  /\ heightForWidth spacing item_list (rwidth r) = height.
Proof.
  intros Hsp Hs. unfold heightForWidth, doLayout. cbn [rx ry].
  pose proof (layout_items_apart r spacing item_list (rx r) (ry r) 0
                Hsp ltac:(lia) Hs) as Ha.
  pose proof (layout_items_fit r spacing item_list (rx r) (ry r) 0
                Hs ltac:(lia)) as Hf.
  pose proof (layout_items_height r spacing item_list (rx r) (ry r) 0
                Hsp ltac:(lia) Hs) as Hh.
  pose proof (layout_items_test_only r spacing item_list (rx r) (ry r) 0) as Ht.
  pose proof (layout_items_shift r
                {| rx := 0; ry := 0; rwidth := rwidth r; rheight := 0 |}
                spacing true item_list (rx r) (ry r) 0 eq_refl) as Hw.
  cbn [rx ry] in Hw.
  replace (rx r - rx r + 0)%Z with 0%Z in Hw by lia.
  replace (ry r - ry r + 0)%Z with 0%Z in Hw by lia.
  rewrite Hw.
  destruct (layout_items r spacing false item_list (rx r) (ry r) 0)
    as [placed height].
  cbn [fst snd] in *. destruct Hh as [_ Hh].
  repeat split; auto.
Qed.

Lemma doLayout_sound_witness :
  let '(placed, height) :=
    doLayout 10
      [ {| visible := true; hint_width := 130; hint_height := 200 |};
        {| visible := false; hint_width := 500; hint_height := 500 |};
        {| visible := true; hint_width := 130; hint_height := 180 |};
        {| visible := true; hint_width := 130; hint_height := 210 |} ]
      {| rx := 40; ry := 25; rwidth := 300; rheight := 600 |} false in
  ForallOrdPairs apart placed
  /\ (forall q, In q placed ->
        (rx q = 40 \/ rx q + rwidth q
                     <= rect_right {| rx := 40; ry := 25; rwidth := 300; rheight := 600 |})%Z
        /\ (ry q + rheight q <= 25 + height)%Z)
  /\ snd (doLayout 10
            [ {| visible := true; hint_width := 130; hint_height := 200 |};
              {| visible := false; hint_width := 500; hint_height := 500 |};
              {| visible := true; hint_width := 130; hint_height := 180 |};
              {| visible := true; hint_width := 130; hint_height := 210 |} ]
            {| rx := 40; ry := 25; rwidth := 300; rheight := 600 |} true) = height
  /\ heightForWidth 10
       [ {| visible := true; hint_width := 130; hint_height := 200 |};
         {| visible := false; hint_width := 500; hint_height := 500 |};
         {| visible := true; hint_width := 130; hint_height := 180 |};
         {| visible := true; hint_width := 130; hint_height := 210 |} ]
       300 = height.
Proof.
  apply (doLayout_sound 10
           [ {| visible := true; hint_width := 130; hint_height := 200 |};
             {| visible := false; hint_width := 500; hint_height := 500 |};
             {| visible := true; hint_width := 130; hint_height := 180 |};
             {| visible := true; hint_width := 130; hint_height := 210 |} ]
           {| rx := 40; ry := 25; rwidth := 300; rheight := 600 |}); [lia|].
  intros wid [<-|[<-|[<-|[<-|[]]]]]; cbn; intros; try discriminate; lia.
Defined.

Example doLayout_wraps :
  doLayout 10
    [ {| visible := true; hint_width := 130; hint_height := 200 |};
      {| visible := true; hint_width := 130; hint_height := 180 |};
      {| visible := true; hint_width := 130; hint_height := 210 |} ]
    {| rx := 0; ry := 0; rwidth := 300; rheight := 0 |} false
  = ([ {| rx := 0; ry := 0; rwidth := 130; rheight := 200 |};
       {| rx := 140; ry := 0; rwidth := 130; rheight := 180 |};
       {| rx := 0; ry := 210; rwidth := 130; rheight := 210 |} ], 420%Z).
Proof. reflexivity. Qed.

(** ** Card grid *)

Lemma range_In lo hi z : In z (range lo hi) <-> (lo <= z < hi)%Z.
Proof.
  unfold range. rewrite in_map_iff. split.
  - intros (i & <- & Hi%in_seq). lia.
  - intros H. exists (Z.to_nat (z - lo)). split; [lia|]. apply in_seq. lia.
Qed.

Lemma range_NoDup lo hi : List.NoDup (range lo hi).
Proof.
  unfold range. apply List.NoDup_map_NoDup_ForallPairs; [|apply List.seq_NoDup].
  intros x y _ _ E. lia.
Qed.

Lemma range_length lo hi : length (range lo hi) = Z.to_nat (hi - lo).
Proof. unfold range. now rewrite length_map, length_seq. Qed.

Lemma grid_cells (n c : Z) :
  (0 <= n)%Z -> (1 <= c)%Z ->
  let cells := map (fun idx => ((idx / c)%Z, (idx mod c)%Z)) (range 0 n) in
  let spacers :=
    if (n mod c =? 0)%Z then []
    else map (fun col => ((n / c)%Z, col)) (range (n mod c) c) in
  List.NoDup (cells ++ spacers)
  /\ (forall row col, In (row, col) (cells ++ spacers) ->
        (0 <= row /\ 0 <= col < c)%Z)
  /\ (Z.of_nat (length (cells ++ spacers)) mod c = 0)%Z.
Proof.
  intros Hn Hc. cbn zeta.
  pose proof (Z.mod_pos_bound n c ltac:(lia)) as Hr.
  set (cells := map (fun idx => ((idx / c)%Z, (idx mod c)%Z)) (range 0 n)).
  set (spacers := if (n mod c =? 0)%Z then []
                  else map (fun col => ((n / c)%Z, col)) (range (n mod c) c)).
  assert (Hcell : forall row col, In (row, col) cells ->
            exists idx, (0 <= idx < n)%Z /\ row = (idx / c)%Z /\ col = (idx mod c)%Z).
  { intros row col (idx & [= <- <-] & Hi%range_In)%in_map_iff. eauto. }
  assert (Hsp : forall row col, In (row, col) spacers ->
            row = (n / c)%Z /\ (n mod c <= col < c)%Z).
  { intros row col. subst spacers. destruct (n mod c =? 0)%Z; [intros []|].
    intros (k & [= <- <-] & Hk%range_In)%in_map_iff. auto. }
  split; [|split].
  - apply List.NoDup_app.
    + apply List.NoDup_map_NoDup_ForallPairs; [|apply range_NoDup].
      intros x y _ _ [= E1 E2].
      rewrite (Z.div_mod x c), (Z.div_mod y c) by lia. congruence.
    + subst spacers. destruct (n mod c =? 0)%Z; [constructor|].
      apply List.NoDup_map_NoDup_ForallPairs; [|apply range_NoDup].
      intros x y _ _ [= E]. exact E.
    + intros [row col] (idx & Hi & -> & ->)%Hcell [E Hcol]%Hsp.
      pose proof (Z.div_mod idx c ltac:(lia)).
      pose proof (Z.div_mod n c ltac:(lia)). nia.
  - intros row col [(idx & Hi & -> & ->)%Hcell|[-> Hcol]%Hsp]%in_app_or.
    + split; [apply Z.div_pos; lia|apply Z.mod_pos_bound; lia].
    + split; [apply Z.div_pos; lia|lia].
  - rewrite length_app. subst cells spacers. rewrite length_map, range_length.
    destruct (Z.eqb_spec (n mod c) 0) as [E|E].
    + simpl. rewrite Nat.add_0_r, Z2Nat.id by lia.
      now rewrite Z.sub_0_r.
    + rewrite length_map, range_length.
      rewrite Nat2Z.inj_add, !Z2Nat.id by lia.
      replace (n - 0 + (c - n mod c))%Z with (n - n mod c + 1 * c)%Z by lia.
      rewrite Z.mod_add by lia.
      rewrite Zminus_mod, Z.mod_mod, Z.sub_diag by lia. apply Z.mod_0_l. lia.
Qed.

Lemma combine_snd {A B} (l : list A) (k : list B) :
  length l = length k -> map snd (combine l k) = k.
Proof.
  revert k. induction l as [|a l IH]; intros [|b k]; simpl; try discriminate;
    [reflexivity|]. intros [= H]. now rewrite IH.
Qed.

Lemma combine_fst {A B} (l : list A) (k : list B) :
  length l = length k -> map fst (combine l k) = l.
Proof.
  revert k. induction l as [|a l IH]; intros [|b k]; simpl; try discriminate;
    [reflexivity|]. intros [= H]. now rewrite IH.
Qed.

(** X22.  When [rearrange_cards] fills the grid, every card gets a cell,
    in order; no cell holds two things; every cell lies in one of the
    columns; cards and placeholders together fill whole rows; and the
    columns fit into the width unless there is only one. *)
Theorem rearrange_cards_grid {A} (cards : option (list A)) (is_visible : bool)
    (base_width width : Z) (last_columns : option Z) (g : card_grid A) :
  rearrange_cards cards is_visible base_width width last_columns = Some g ->
  Some (map fst (cards_at g)) = cards
  /\ List.NoDup (map snd (cards_at g) ++ spacers_at g)
  /\ (forall row col, In (row, col) (map snd (cards_at g) ++ spacers_at g) ->
        (0 <= row /\ 0 <= col < columns g)%Z)
  /\ (Z.of_nat (length (cards_at g) + length (spacers_at g)) mod columns g = 0)%Z
  /\ (columns g = 1 \/ columns g * (card_w g + season_spacing) <= Z.max 100 width)%Z.
Proof.
  unfold rearrange_cards.
  destruct cards as [[|a cards]|]; try discriminate.
  destruct is_visible; cbn [negb]; [|discriminate].
  set (n := Z.of_nat (length (a :: cards))).
  set (c := Z.max 1 (Z.max 100 width / (Z.max 50 base_width + season_spacing))).
  set (cells := map (fun idx => ((idx / c)%Z, (idx mod c)%Z)) (range 0 n)).
  set (spacers := if (n mod c =? 0)%Z then []
                  else map (fun col => ((n / c)%Z, col)) (range (n mod c) c)).
  intros H.
  assert (Hg : g = {| columns := c; card_w := Z.max 50 base_width;
                      cards_at := combine (a :: cards) cells;
                      spacers_at := spacers |}).
  { destruct last_columns as [c0|]; [destruct (c0 =? c)%Z; [discriminate|]|];
      now injection H as <-. }
  subst g. clear H. cbn [columns card_w cards_at spacers_at].
  assert (Hlen : length (a :: cards) = length cells).
  { subst cells. rewrite length_map, range_length. subst n. lia. }
  destruct (grid_cells n c ltac:(lia) ltac:(lia)) as (Hnd & Hin & Hfull).
  fold cells spacers in Hnd, Hin, Hfull.
  rewrite combine_snd, combine_fst by assumption.
  split; [reflexivity|]. split; [exact Hnd|]. split; [exact Hin|]. split.
  - rewrite length_app in Hfull. rewrite length_combine, <- Hlen, Nat.min_id.
    now rewrite Hlen.
  - unfold season_spacing in *. subst c.
    destruct (Z.max_spec 1 (Z.max 100 width / (Z.max 50 base_width + 10)))
      as [[_ ->]|[_ ->]]; [right|now left].
    rewrite Z.mul_comm. apply Z.mul_div_le. lia.
Qed.

Lemma rearrange_cards_grid_witness :
  Some (map fst [(txt "a", (0, 0)); (txt "b", (0, 1)); (txt "c", (1, 0))]%Z)
    = Some [txt "a"; txt "b"; txt "c"]
  /\ List.NoDup ([(0, 0); (0, 1); (1, 0)] ++ [(1, 1)])%Z
  /\ (forall row col, In (row, col) ([(0, 0); (0, 1); (1, 0)] ++ [(1, 1)])%Z ->
        (0 <= row /\ 0 <= col < 2)%Z)
  /\ (Z.of_nat (3 + 1) mod 2 = 0)%Z
  /\ (2 = 1 \/ 2 * (130 + season_spacing) <= Z.max 100 300)%Z.
Proof.
  exact (rearrange_cards_grid (Some [txt "a"; txt "b"; txt "c"]) true 130 300 None
           {| columns := 2; card_w := 130;
              cards_at := [(txt "a", (0, 0)); (txt "b", (0, 1)); (txt "c", (1, 0))]%Z;
              spacers_at := [(1, 1)%Z] |} eq_refl).
Defined.

(** ** Genre ids that cannot be stored *)




(** ** The flat listing and the scan *)

Lemma is_video_file_recognized name :
  is_video_file name = true -> recognized name = true.
Proof.
  unfold is_video_file, recognized.
  intros (e & Hin & E%str_eqb_eq)%existsb_exists.
  apply existsb_exists. exists e. split; [now apply video_exts_set_known|].
  apply endswith_iff. exists (lower (fst (splitext name))).
  rewrite <- E, <- lower_app, splitext_app. reflexivity.
Qed.

Lemma list_videos_flat_folders fs folders acc flat :
  fold_left (fun acc folder =>
    bind acc (fun videos =>
      match fs folder with
      | None => Ok videos
      | Some nd =>
          if false then
            Ok (videos ++
                flat_map (fun '(root, _, files) =>
                            map (join root) (List.filter has_video_ext files))
                         (walk folder nd))
          else
            bind (scandir fs folder) (fun entries =>
              Ok (videos ++
                  map (fun e => join folder (fst e))
                      (List.filter (fun e => is_file (snd e) && has_video_ext (fst e))
                                   entries)))
      end)) folders (Ok acc)
  = Ok flat ->
  forall folder, In folder folders ->
    fs folder = None \/ exists entries, fs folder = Some (Dir entries).
Proof.
  revert acc. induction folders as [|f folders IH]; intros acc; [intros _ ? []|].
  cbn [fold_left bind]. unfold scandir.
  destruct (fs f) as [[|entries|]|] eqn:Efs; cbn [bind].
  - intros H. exfalso. clear -H.
    induction folders as [|f' fs' IH]; [discriminate|]. exact (IH H).
  - intros H folder [<-|Hin]; [right; eauto|]. exact (IH _ H folder Hin).
  - intros H. exfalso. clear -H.
    induction folders as [|f' fs' IH]; [discriminate|]. exact (IH H).
  - intros H folder [<-|Hin]; [now left|]. exact (IH _ H folder Hin).
Qed.

(** X24.  What the listing of the top level of the configured folders
    returns, the library scan shows as a stand-alone video: when both
    return, each path listed is the path of a [VideoItem]. *)
Theorem flat_listing_within_scan fs folders flat items :
  list_videos_in_dirs fs folders false = Ok flat ->
  LibraryWindow.refresh_list fs folders = Ok items ->
  forall p, In p flat -> In (VideoItem p) items.
Proof.
  intros H Hscan p Hp.
  pose proof (list_videos_flat_folders fs folders [] flat H) as Hf.
  unfold LibraryWindow.refresh_list in Hscan.
  rewrite (refresh_list_from fs folders [] Hf) in Hscan. injection Hscan as <-.
  destruct (list_videos_flat_from fs folders [] flat H p Hp)
    as [[]|(folder & entries & name & Hin & Efs & Hn & Hv & ->)].
  unfold scan_spec. apply in_flat_map. exists folder. split; [assumption|].
  rewrite Efs. apply in_flat_map. exists (name, File). split; [assumption|].
  apply classify_video. exists name. repeat split.
  apply recognized_iff. now apply is_video_file_recognized.
Qed.

Lemma flat_listing_within_scan_witness :
  In (VideoItem (txt "/media/Movie.2021.1080p.mkv"))
     [VideoItem (txt "/media/Movie.2021.1080p.mkv"); SeriesItem (txt "/media/Show")].
Proof.
  apply (flat_listing_within_scan media_library [txt "/media"]
           [txt "/media/Movie.2021.1080p.mkv"]
           [VideoItem (txt "/media/Movie.2021.1080p.mkv");
            SeriesItem (txt "/media/Show")]);
    [reflexivity|reflexivity|now left].
Defined.
